(** * Loki: typed expression model, frontend passes and Maxeler back end

    A shallow embedding of the parts of

      - [loki/expression/symbol_types.py]  (Variable, Literal, RangeIndex),
      - [loki/frontend/fparser.py]         (operator translation),
      - [loki/frontend/util.py]            (IR post-processing passes),
      - [loki/backend/maxgen.py]           (kernel type and statement emission)

    that the specification talks about, together with the properties the
    specification states about them.

    Python objects with identity (scopes, symbol types, field dictionaries)
    live in an explicit store; exceptions are values of [Result]. *)

From Stdlib Require Import ZArith String Ascii List Lia Bool.
From stdpp Require Import base option list gmap strings pretty.

#[local] Set Warnings "-register-all".

Local Open Scope string_scope.
Local Open Scope Z_scope.

(** ** Exceptions *)

Inductive PyExc : Type :=
| IndexError
| KeyError
| AttributeError
| RecursionError
| RuntimeError (msg : string)
| ValueError (msg : string).

Inductive Result (A : Type) : Type :=
| Ok (a : A)
| Raise (e : PyExc).

Arguments Ok {A} a.
Arguments Raise {A} e.

#[global] Instance Result_ret : MRet Result := fun A a => Ok a.
#[global] Instance Result_bind : MBind Result :=
  fun A B f m => match m with Ok a => f a | Raise e => Raise e end.
#[global] Instance Result_fmap : FMap Result :=
  fun A B f m => match m with Ok a => Ok (f a) | Raise e => Raise e end.

Definition is_Ok {A} (r : Result A) : bool :=
  match r with Ok _ => true | Raise _ => false end.

(** ** Python strings *)

Module PyStr.

(** [str.lower] on the ASCII range. *)
Definition lower_ascii (c : ascii) : ascii :=
  let n := nat_of_ascii c in
  if ((65 <=? n)%nat && (n <=? 90)%nat)%bool then ascii_of_nat (n + 32) else c.

Fixpoint lower (s : string) : string :=
  match s with
  | EmptyString => EmptyString
  | String c s' => String (lower_ascii c) (lower s')
  end.

Definition len (s : string) : Z := Z.of_nat (String.length s).

(** [s[i]]: negative indices count from the end, out of range raises. *)
Definition index (s : string) (i : Z) : Result ascii :=
  let j := if i <? 0 then i + len s else i in
  if (j <? 0) || (len s <=? j) then Raise IndexError
  else match String.get (Z.to_nat j) s with
       | Some c => Ok c
       | None => Raise IndexError
       end.

(** Normalisation of one slice bound against the length [n]. *)
Definition clamp (n i : Z) : Z :=
  if i <? 0 then Z.max (i + n) 0 else Z.min i n.

(** [s[start:stop]]. *)
Definition slice (s : string) (start stop : Z) : string :=
  let a := clamp (len s) start in
  let b := clamp (len s) stop in
  String.substring (Z.to_nat a) (Z.to_nat (b - a)) s.

(** [s[start:]]. *)
Definition slice_from (s : string) (start : Z) : string :=
  slice s start (len s).

(** [c in chars] for a one-character string [c]. *)
Fixpoint char_in (c : ascii) (chars : string) : bool :=
  match chars with
  | EmptyString => false
  | String d rest => if Ascii.eqb c d then true else char_in c rest
  end.

(** [s.rfind(c)] for a single character: the last position, or -1. *)
Fixpoint rfind_from (c : ascii) (s : string) (pos : Z) (found : Z) : Z :=
  match s with
  | EmptyString => found
  | String d rest => rfind_from c rest (pos + 1) (if Ascii.eqb c d then pos else found)
  end.

Definition rfind (s : string) (c : ascii) : Z := rfind_from c s 0 (-1).

(** [s.replace(c, by)] for a single character [c]. *)
Fixpoint replace_char (c : ascii) (by_ : string) (s : string) : string :=
  match s with
  | EmptyString => EmptyString
  | String d rest =>
      if Ascii.eqb c d then by_ ++ replace_char c by_ rest
      else String d (replace_char c by_ rest)
  end.

(** [s * n]. *)
Fixpoint repeat (s : string) (n : nat) : string :=
  match n with
  | O => EmptyString
  | S n' => s ++ repeat s n'
  end.

(** The double and the single quote character, and the string made of
    the two that the source tests membership in. *)
Definition dquote : ascii := ascii_of_nat 34.
Definition squote : ascii := ascii_of_nat 39.
Definition quotes : string := String dquote (String squote EmptyString).

(** Membership of a string in a tuple of strings. *)
Definition in_tuple (s : string) (t : list string) : bool :=
  existsb (String.eqb s) t.

End PyStr.

(** ** Expression nodes

    One type for everything that can stand at an expression position: plain
    Python numbers and strings ([Raw]), the nodes of the expression algebra
    (pymbolic) and the nodes this package adds. Scopes are referred to by
    their identity. *)

Definition scope_id := nat.

Inductive RawValue : Type :=
| PyInt (z : Z)
| PyFloat (binary64 : Z)
| PyStr (s : string).

Inductive DataType : Type :=
| LOGICAL | INTEGER | REAL | CHARACTER | DERIVED_TYPE | DEFERRED.

#[global] Instance DataType_eq_dec : EqDecision DataType.
Proof. solve_decision. Defined.

Inductive Value : Type :=
| Raw (r : RawValue)
| IntLiteral (value : Z) (kind : option Value)
| FloatLiteral (value : Z) (kind : option Value)
| LogicLiteral (value : bool)
| StringLiteral (value : string)
| LiteralList (elements : list Value)
| Scalar (name : string) (scope : scope_id) (parent : option Value) (initial : option Value)
| Array (name : string) (scope : scope_id) (parent : option Value)
        (dimensions : option (list Value)) (initial : option Value)
| RangeIndex (lower upper step : option Value)
| Sum (children : list Value)
| Product (children : list Value)
| Quotient (numerator denominator : Value)
| Power (base exponent : Value)
| Comparison (left : Value) (operator : string) (right : Value)
| LogicalAnd (children : list Value)
| LogicalOr (children : list Value)
| LogicalNot (child : Value).

(** [isinstance(v, pmbl.Expression)]: every node class derives from
    [pmbl.Expression]; numbers and strings do not. *)
Definition is_Expression (v : Value) : bool :=
  match v with
  | Raw _ => false
  | _ => true
  end.

Definition is_RangeIndex (v : Value) : bool :=
  match v with
  | RangeIndex _ _ _ => true
  | _ => false
  end.

Definition is_Array (v : Value) : bool :=
  match v with
  | Array _ _ _ _ _ => true
  | _ => false
  end.

Definition is_Scalar (v : Value) : bool :=
  match v with
  | Scalar _ _ _ _ => true
  | _ => false
  end.

Definition is_Literal (v : Value) : bool :=
  match v with
  | IntLiteral _ _ | FloatLiteral _ _ | LogicLiteral _ | StringLiteral _ => true
  | _ => false
  end.

(** ** Literals ([symbol_types.py]) *)

Module Literals.

(** [StringLiteral.__init__]: the stored [value]. *)
Definition StringLiteral_init (value : string) : Result string :=
  first ← PyStr.index value 0;
  last ← PyStr.index value (-1);
  if Ascii.eqb first last then
    first' ← PyStr.index value 0;
    if PyStr.char_in first' PyStr.quotes then Ok (PyStr.slice value 1 (-1))
    else Ok value
  else Ok value.

(** [LogicLiteral.__init__]: the stored [value]. *)
Definition LogicLiteral_init (value : string) : bool :=
  PyStr.in_tuple (PyStr.lower value) ["true"; ".true."].

(** [Literal._from_literal] without a [type] keyword: the class is chosen
    from the Python type of the value. *)
Definition from_literal (value : RawValue) : Result Value :=
  match value with
  | PyInt z => Ok (IntLiteral z None)
  | PyFloat f => Ok (FloatLiteral f None)
  | PyStr s =>
      if PyStr.in_tuple (PyStr.lower s) [".true."; "true"; ".false."; "false"]
      then Ok (LogicLiteral (LogicLiteral_init s))
      else StringLiteral <$> StringLiteral_init s
  end.

(** [obj.kind = kwargs.get('kind', None)] on the classes that have the
    attribute. *)
Definition set_kind (obj : Value) (kind : option Value) : Value :=
  match obj with
  | IntLiteral v _ => IntLiteral v kind
  | FloatLiteral v _ => FloatLiteral v kind
  | _ => obj
  end.

(** [Literal.__new__] called with the value alone. For numbers and
    strings [_from_literal] never raises [KeyError], so the parsing
    fall-back is not entered. *)
Definition Literal (value : RawValue) : Result Value :=
  obj ← from_literal value;
  Ok (set_kind obj None).

End Literals.

(** ** RangeIndex ([symbol_types.py]) *)

Module Range.

(** Keyword arguments: [None] is an absent key, [Some None] the key
    given as Python's [None]. *)
Record Kwargs : Type := mkKwargs {
  kw_lower : option (option Value);
  kw_upper : option (option Value);
  kw_step : option (option Value)
}.

Definition no_kwargs : Kwargs := mkKwargs None None None.

(** [kwargs.get(key, default)]. *)
Definition kwargs_get (k : option (option Value)) (default : option Value) : option Value :=
  match k with
  | Some v => v
  | None => default
  end.

(** [RangeIndex._args2bounds]. *)
Definition args2bounds (args : list (option Value)) (kwargs : Kwargs)
  : option Value * option Value * option Value :=
  let '(lower, upper, step) :=
    match args with
    | [a0] => (None, a0, None)
    | [a0; a1] => (a0, a1, None)
    | [a0; a1; a2] => (a0, a1, a2)
    | _ => (None, None, None)
    end in
  (kwargs_get (kw_lower kwargs) lower,
   kwargs_get (kw_upper kwargs) upper,
   kwargs_get (kw_step kwargs) step).

(** [RangeIndex.__new__]. *)
Definition RangeIndex_new (args : list (option Value)) (kwargs : Kwargs) : Result Value :=
  let '(lower, upper, step) := args2bounds args kwargs in
  match upper, lower, step with
  | Some u, None, None =>
      match u with
      | Raw r => Literals.Literal r
      | _ => Ok u
      end
  | _, _, _ => Ok (RangeIndex lower upper step)
  end.

(** The object a call of the class evaluates to. An expression node is
    a finite term; the one object that is none is a [RangeIndex] whose
    upper bound is that object itself. *)
Inductive Object : Type :=
| Plain (v : Value)
| OwnUpper (lower step : option Value).

(** [isinstance(obj, RangeIndex)]. *)
Definition is_instance (o : Object) : bool :=
  match o with
  | Plain v => is_RangeIndex v
  | OwnUpper _ _ => true
  end.

(** [__new__] hands back the very object that was passed as upper
    bound, not a copy of it, when it returns early with an expression
    node; every other result is a new object. *)
Definition returns_upper (args : list (option Value)) (kwargs : Kwargs) : bool :=
  match args2bounds args kwargs with
  | (None, Some u, None) => is_Expression u
  | _ => false
  end.

(** [RangeIndex.__init__] on the object [__new__] returned: the three
    attributes are set from the arguments. [self_is_upper] tells that
    the object is the one passed as upper bound, which then becomes its
    own upper bound. *)
Definition RangeIndex_init (self_is_upper : bool) (args : list (option Value))
           (kwargs : Kwargs) : Object :=
  let '(lower, upper, step) := args2bounds args kwargs in
  if self_is_upper then OwnUpper lower step
  else Plain (RangeIndex lower upper step).

(** The call [RangeIndex(...)]. Python's [type.__call__]
    runs [__new__] and then, when the result is an instance of the
    class, [__init__] on it with the same arguments. *)
Definition RangeIndex_call (args : list (option Value)) (kwargs : Kwargs) : Result Object :=
  obj ← RangeIndex_new args kwargs;
  if is_RangeIndex obj then Ok (RangeIndex_init (returns_upper args kwargs) args kwargs)
  else Ok (Plain obj).

End Range.

(** ** Operator translation ([fparser.py]) *)

Module Operators.

(** [t[i]] on a tuple. *)
Definition getitem {A} (t : list A) (i : nat) : Result A :=
  match t !! i with
  | Some x => Ok x
  | None => Raise IndexError
  end.

Definition parse_error : PyExc :=
  RuntimeError "FParser: Error parsing generic expression".

Definition minus_one : Value := Raw (PyInt (-1)).

(** [FParser2IR.visit_operation], with [exprs] already a tuple. *)
Definition visit_operation (op : string) (exprs : list Value) : Result Value :=
  if String.eqb op "*" then Ok (Product exprs)
  else if String.eqb op "/" then
    n ← getitem exprs 0; d ← getitem exprs 1; Ok (Quotient n d)
  else if String.eqb op "+" then Ok (Sum exprs)
  else if String.eqb op "-" then
    if (1 <? length exprs)%nat then
      e0 ← getitem exprs 0; e1 ← getitem exprs 1;
      Ok (Sum [e0; Product [minus_one; e1]])
    else
      e0 ← getitem exprs 0; Ok (Product [minus_one; e0])
  else if String.eqb op "**" then
    b ← getitem exprs 0; e ← getitem exprs 1; Ok (Power b e)
  else if String.eqb (PyStr.lower op) ".and." then Ok (LogicalAnd exprs)
  else if String.eqb (PyStr.lower op) ".or." then Ok (LogicalOr exprs)
  else if String.eqb op "==" || String.eqb (PyStr.lower op) ".eq." then
    l ← getitem exprs 0; r ← getitem exprs 1; Ok (Comparison l "==" r)
  else if String.eqb op "/=" || String.eqb (PyStr.lower op) ".ne." then
    l ← getitem exprs 0; r ← getitem exprs 1; Ok (Comparison l "!=" r)
  else if String.eqb op ">" || String.eqb (PyStr.lower op) ".gt." then
    l ← getitem exprs 0; r ← getitem exprs 1; Ok (Comparison l ">" r)
  else if String.eqb op "<" || String.eqb (PyStr.lower op) ".lt." then
    l ← getitem exprs 0; r ← getitem exprs 1; Ok (Comparison l "<" r)
  else if String.eqb op ">=" || String.eqb (PyStr.lower op) ".ge." then
    l ← getitem exprs 0; r ← getitem exprs 1; Ok (Comparison l ">=" r)
  else if String.eqb op "<=" || String.eqb (PyStr.lower op) ".le." then
    l ← getitem exprs 0; r ← getitem exprs 1; Ok (Comparison l "<=" r)
  else if String.eqb (PyStr.lower op) ".not." then
    c ← getitem exprs 0; Ok (LogicalNot c)
  else Raise parse_error.

(** The operator tokens of the dispatch, as the specification lists
    them: symbolic spellings are matched as they are, mnemonic ones after
    [lower()]. *)
Definition symbolic_tokens : list string :=
  ["+"; "-"; "*"; "/"; "**"; "=="; "/="; ">"; "<"; ">="; "<="].

Definition mnemonic_tokens : list string :=
  [".and."; ".or."; ".not."; ".eq."; ".ne."; ".gt."; ".lt."; ".ge."; ".le."].

Definition recognised (op : string) : bool :=
  PyStr.in_tuple op symbolic_tokens || PyStr.in_tuple (PyStr.lower op) mnemonic_tokens.

(** The symbolic spelling of a relational mnemonic. *)
Definition symbolic_of (mnemonic : string) : option string :=
  if String.eqb mnemonic ".eq." then Some "=="
  else if String.eqb mnemonic ".ne." then Some "/="
  else if String.eqb mnemonic ".gt." then Some ">"
  else if String.eqb mnemonic ".lt." then Some "<"
  else if String.eqb mnemonic ".ge." then Some ">="
  else if String.eqb mnemonic ".le." then Some "<="
  else None.

End Operators.

(** ** Symbol types

    Modelled from the spec: the type record [SymbolType] of [loki/types.py],
    which is not among the sources. The attributes are the ones the
    specification lists, plus those the back end reads ([initial], [name],
    [dfevar], [dfestream]). The field mapping of a derived type is a Python
    dictionary with an identity of its own, so the record holds a reference
    to it. *)

Definition dict_id := nat.
Definition type_id := nat.

Module Types.

Record SymbolType : Type := mkSymbolType {
  dtype : DataType;
  kind : option Value;
  intent : option string;
  pointer : bool;
  allocatable : bool;
  optional : bool;
  parameter : bool;
  target : bool;
  external : bool;
  shape : option (list Value);
  variables : option dict_id;
  parent : option Value;
  initial : option Value;
  name : option string;
  dfevar : bool;
  dfestream : bool
}.

(** [SymbolType(dtype)] with every other attribute at its default. *)
Definition SymbolType_new (d : DataType) : SymbolType :=
  mkSymbolType d None None false false false false false false
               None None None None None false false.

End Types.

(** ** Stringification ([LokiStringifyMapper]) *)

Section Stringify.

(** pymbolic's own [StringifyMapper] (sums, products, comparisons, ...)
    and Python's [str] of a float are outside this package. *)
Variable stringify : Value -> string.

(** [Scalar.basename]. *)
Definition basename (name : string) : string :=
  PyStr.slice_from name (PyStr.rfind name "%"%char + 1).

(** [str(expr)] through [LokiStringifyMapper]: the mapper methods of
    [symbol_types.py] that do not go back into pymbolic. *)
Fixpoint py_str (v : Value) : string :=
  match v with
  | Raw (PyStr s) => s
  | Raw (PyInt z) => pretty z
  | IntLiteral z _ => pretty z
  | LogicLiteral b => if b then "True" else "False"
  | StringLiteral s => "'" ++ s ++ "'"
  | Scalar name _ (Some p) _ => py_str p ++ "%" ++ basename name
  | Scalar name _ None _ => name
  | _ => stringify v
  end.

(** [str(x)] for an attribute that may be [None]. *)
Definition py_str_opt (o : option Value) : string :=
  match o with
  | Some v => py_str v
  | None => "None"
  end.

End Stringify.

(** ** IR nodes

    Modelled from the spec: the node classes of [loki/ir.py] and the source
    span [Source] of [loki/frontend/source.py], which are not among the
    sources. Every node carries an optional source span; [Statement] and
    [Declaration] have a comment slot, [Declaration], [CallStatement] and
    [Loop] a pragma slot. A tuple (or list) of nodes is an IR object of its
    own, as the visitors treat it. *)

Module IR.

Record Source : Type := mkSource {
  lines : Z * Z;
  string : option String.string;
  file : option String.string;
  label : option String.string
}.

Record CommentData : Type := mkComment {
  text : option String.string;
  c_source : option Source
}.

Record PragmaData : Type := mkPragma {
  keyword : String.string;
  content : option String.string;
  p_source : option Source
}.

Inductive Node : Type :=
| Tuple (items : list Node)
| Statement (target expr : Value) (comment : option CommentData) (source : option Source)
| Declaration (variables : list Value) (comment : option CommentData)
              (pragma : option PragmaData) (source : option Source)
| Comment (c : CommentData)
| CommentBlock (comments : list CommentData) (source : option Source)
| Pragma (p : PragmaData)
| CallStatement (name : String.string) (arguments : list Value)
                (pragma : option PragmaData) (source : option Source)
| Loop (variable : Value) (bounds : list Value) (body : list Node)
       (pragma : option PragmaData) (source : option Source)
| Conditional (conditions : list Value) (bodies : list Node) (else_body : list Node)
              (source : option Source)
| Intrinsic (text : String.string) (source : option Source).

End IR.

(** ** Kernel code generation ([maxgen.py]) *)

Module Maxj.
Import Types.

Section Codegen.

Variable stringify : Value -> string.

(** [MaxjCodeMapper()(expr)], the expression printer of the kernel
    dialect, built on pymbolic's mapper. *)
Variable maxjsymgen : Value -> string.

(** [maxj_local_type]. *)
Definition maxj_local_type (_type : SymbolType) : Result string :=
  match dtype _type with
  | LOGICAL => Ok "boolean"
  | INTEGER => Ok "int"
  | REAL =>
      if PyStr.in_tuple (py_str_opt stringify (kind _type)) ["real32"]
      then Ok "float" else Ok "double"
  | _ => Raise (ValueError "SymbolType")
  end.

(** [maxj_dfevar_type]. *)
Definition maxj_dfevar_type (_type : SymbolType) : Result string :=
  match dtype _type with
  | LOGICAL => Ok "dfeBool()"
  | INTEGER => Ok "dfeInt(32)"
  | REAL =>
      if PyStr.in_tuple (py_str_opt stringify (kind _type)) ["real32"]
      then Ok "dfeFloat(8, 24)" else Ok "dfeFloat(11, 53)"
  | _ => Raise (ValueError "SymbolType")
  end.

(** [MaxjCodegen.indent]. *)
Definition indent (depth : nat) : string := PyStr.repeat "  " depth.

(** [MaxjCodegen.visit_Comment]. *)
Definition visit_Comment (depth : nat) (o : IR.CommentData) : Result string :=
  text ← match IR.text o with
         | Some t => Ok t
         | None =>
             match IR.c_source o with
             | Some src =>
                 match IR.string src with
                 | Some s => Ok s
                 | None => Raise AttributeError
                 end
             | None => Raise AttributeError
             end
         end;
  Ok (indent depth ++ PyStr.replace_char "!"%char "//" text).


(** [MaxjCodegen.visit_Statement] on the attributes of the statement
    [o]. *)
Definition visit_Statement (depth : nat) (target expr : Value)
           (comment : option IR.CommentData) : Result string :=
  let stmt :=
    if is_Array target then
      maxjsymgen target ++ " <== " ++ maxjsymgen expr ++ ";" ++ String (ascii_of_nat 10) ""
    else
      maxjsymgen target ++ " = " ++ maxjsymgen expr ++ ";" ++ String (ascii_of_nat 10) "" in
  comment' ← match comment with
             | Some c => s ← visit_Comment depth c; Ok ("  " ++ s)
             | None => Ok ""
             end;
  Ok (indent depth ++ stmt ++ comment').

End Codegen.

End Maxj.

(** ** Scopes, symbol tables and variables ([symbol_types.py])

  Type objects and field dictionaries are shared and mutable, so the
  store keeps them by identity; a variable never holds its type, only the
  name and the scope it is read through. *)

Module Symbols.
Import Types.

Record Store : Type := mkStore {
  symbols : gmap (scope_id * string) type_id;
  parents : gmap scope_id scope_id;
  types : gmap type_id SymbolType;
  dicts : gmap dict_id (list (string * Value));
  next_type : type_id;
  next_dict : dict_id
}.

Definition empty_store : Store := mkStore ∅ ∅ ∅ ∅ 0%nat 0%nat.

Definition with_symbols (st : Store) (s : gmap (scope_id * string) type_id) : Store :=
  mkStore s (parents st) (types st) (dicts st) (next_type st) (next_dict st).

Definition with_types (st : Store) (t : gmap type_id SymbolType) : Store :=
  mkStore (symbols st) (parents st) t (dicts st) (next_type st) (next_dict st).

Definition with_dicts (st : Store) (d : gmap dict_id (list (string * Value))) : Store :=
  mkStore (symbols st) (parents st) (types st) d (next_type st) (next_dict st).

(** *** The symbol table

    Modelled from the spec: the class [SymbolTable] of [loki/types.py],
    which is not among the sources: a mapping from the case-insensitive
    symbol name to the type object, with an optional parent table.
    A name that is not bound reads as [None], as the variable
    constructor's [is not None] tests and the member-procedure test of
    [tests/test_subroutine.py] expect. *)

Definition format_lookup_name (name : string) : string := PyStr.lower name.

(** [scope.symbols[name] = value], the spec's [define]. *)
Definition define (st : Store) (sc : scope_id) (name : string) (t : type_id) : Store :=
  with_symbols st (<[(sc, format_lookup_name name) := t]> (symbols st)).

(** [scope.symbols[name]] and [lookup(name, recursive=False)]. *)
Definition getitem (st : Store) (sc : scope_id) (name : string) : option type_id :=
  symbols st !! (sc, format_lookup_name name).

(** [scope.symbols.lookup(name, recursive)]: the nearest binding along
    the parent chain. The chain is followed for at most [fuel] tables. *)
Fixpoint lookup (fuel : nat) (st : Store) (sc : scope_id) (name : string)
         (recursive : bool) : Result (option type_id) :=
  match fuel with
  | O => Raise RecursionError
  | S fuel' =>
      match getitem st sc name with
      | Some t => Ok (Some t)
      | None =>
          if recursive then
            match parents st !! sc with
            | Some p => lookup fuel' st p name recursive
            | None => Ok None
            end
          else Ok None
      end
  end.

(** [scope.symbols.setdefault(name, value)]. *)
Definition setdefault (st : Store) (sc : scope_id) (name : string) (t : type_id) : Store :=
  match getitem st sc name with
  | Some _ => st
  | None => define st sc name t
  end.

(** [scope.symbols.clear()]. *)
Definition clear (st : Store) (sc : scope_id) : Store :=
  with_symbols st (filter (fun kv => kv.1.1 ≠ sc) (symbols st)).

(** *** Type objects *)

(** A new type object. *)
Definition alloc_type (st : Store) (T : SymbolType) : type_id * Store :=
  (next_type st,
   mkStore (symbols st) (parents st) (<[next_type st := T]> (types st)) (dicts st)
           (S (next_type st)) (next_dict st)).

(** [OrderedDict()]. *)
Definition alloc_dict (st : Store) : dict_id * Store :=
  (next_dict st,
   mkStore (symbols st) (parents st) (types st) (<[next_dict st := []]> (dicts st))
           (next_type st) (S (next_dict st))).

Definition dangling : PyExc := RuntimeError "dangling reference".

Definition deref (st : Store) (l : type_id) : Result SymbolType :=
  match types st !! l with
  | Some T => Ok T
  | None => Raise dangling
  end.

Definition deref_dict (st : Store) (d : dict_id) : Result (list (string * Value)) :=
  match dicts st !! d with
  | Some flds => Ok flds
  | None => Raise dangling
  end.

Definition with_variables (T : SymbolType) (v : option dict_id) : SymbolType :=
  mkSymbolType (dtype T) (kind T) (intent T) (pointer T) (allocatable T) (optional T)
               (parameter T) (target T) (external T) (shape T) v (parent T)
               (initial T) (name T) (dfevar T) (dfestream T).

Definition with_parent (T : SymbolType) (p : option Value) : SymbolType :=
  mkSymbolType (dtype T) (kind T) (intent T) (pointer T) (allocatable T) (optional T)
               (parameter T) (target T) (external T) (shape T) (variables T) p
               (initial T) (name T) (dfevar T) (dfestream T).

(** Modelled from the spec: [SymbolType.clone] with keyword overrides, of
    [loki/types.py], which is not among the sources: a new type object
    with the attributes of the cloned one, except for the overridden
    ones. *)
Definition clone (st : Store) (l : type_id) (overrides : SymbolType -> SymbolType)
  : Result (type_id * Store) :=
  T ← deref st l;
  Ok (alloc_type st (overrides T)).

(** [t.attr = value] on the type object [l]. *)
Definition setattr (st : Store) (l : type_id) (update : SymbolType -> SymbolType) : Store :=
  with_types st (alter update l (types st)).

(** [d[k] = v] on an ordered dictionary: an existing key keeps its
    place, a new one goes to the end. *)
Fixpoint odict_set (flds : list (string * Value)) (k : string) (v : Value)
  : list (string * Value) :=
  match flds with
  | [] => [(k, v)]
  | (k', v') :: rest =>
      if String.eqb k' k then (k, v) :: rest else (k', v') :: odict_set rest k v
  end.

Definition dict_set (st : Store) (d : dict_id) (k : string) (v : Value) : Result Store :=
  flds ← deref_dict st d;
  Ok (with_dicts st (<[d := odict_set flds k v]> (dicts st))).

(** *** Variables *)

(** [v.name] and [v.scope]; only [Scalar] and [Array] have them. *)
Definition var_name (v : Value) : Result string :=
  match v with
  | Scalar n _ _ _ | Array n _ _ _ _ => Ok n
  | _ => Raise AttributeError
  end.

Definition var_scope (v : Value) : Result scope_id :=
  match v with
  | Scalar _ sc _ _ | Array _ sc _ _ _ => Ok sc
  | _ => Raise AttributeError
  end.

(** The property [Scalar.type] / [Array.type]: read through the scope
    at every access. *)
Definition get_type (st : Store) (v : Value) : Result (option type_id) :=
  n ← var_name v; sc ← var_scope v; Ok (getitem st sc n).

(** The setter of the property. *)
Definition set_type (st : Store) (v : Value) (t : type_id) : Result Store :=
  n ← var_name v; sc ← var_scope v; Ok (define st sc n t).

(** The part of [Scalar.__init__] and [Array.__init__] that touches the
    symbol table. *)
Definition init_type (st : Store) (sc : scope_id) (name : string) (type : option type_id)
  : Store :=
  match type with
  | None =>
      let '(deferred, st1) := alloc_type st (SymbolType_new DEFERRED) in
      setdefault st1 sc name deferred
  | Some t => define st sc name t
  end.

(** [Scalar.__init__]. *)
Definition Scalar_init (st : Store) (name : string) (sc : scope_id) (type : option type_id)
           (parent initial : option Value) : Value * Store :=
  (Scalar name sc parent initial, init_type st sc name type).

(** [Array.__init__]. *)
Definition Array_init (st : Store) (name : string) (sc : scope_id) (type : option type_id)
           (parent : option Value) (dimensions : option (list Value))
           (initial : option Value) : Value * Store :=
  (Array name sc parent dimensions initial, init_type st sc name type).

(** The keyword arguments of [Variable(...)]. For [type], [None] is an
    absent keyword and [Some None] the keyword given as Python's [None]. *)
Record VarArgs : Type := mkVarArgs {
  a_name : string;
  a_scope : scope_id;
  a_dimensions : option (list Value);
  a_initial : option Value;
  a_type : option (option type_id);
  a_parent : option Value
}.

(** [_type] in [Variable.__new__]. *)
Definition resolve_type (st : Store) (a : VarArgs) : option type_id :=
  match a_type a with
  | Some t => t
  | None => getitem st (a_scope a) (a_name a)
  end.

(** [shape] in [Variable.__new__]. *)
Definition resolve_shape (st : Store) (a : VarArgs) : Result (option (list Value)) :=
  match resolve_type st a with
  | Some l => T ← deref st l; Ok (shape T)
  | None => Ok None
  end.

(** The test that selects [Scalar] in [Variable.__new__]. *)
Definition scalar_test (dimensions shape : option (list Value)) : bool :=
  match dimensions with
  | None =>
      match shape with
      | None => true
      | Some s => (length s =? 0)%nat
      end
  | Some _ => false
  end.

(** A monadic left fold: the body of a [for] loop threaded through the
    store. *)
Fixpoint foldM {A S} (body : S -> A -> Result S) (l : list A) (s : S) : Result S :=
  match l with
  | [] => Ok s
  | x :: rest => s' ← body s x; foldM body rest s'
  end.

(** One round of the loop of [instantiate_derived_type_variables]: the
    field [v], stored under the key [k], is created anew for [obj].
    [new] is the constructor [Variable(...)]. *)
Definition instantiate_field (new : Store -> VarArgs -> Result (Value * Store))
           (obj : Value) (st : Store) (kv : string * Value) : Result Store :=
  let '(k, v) := kv in
  vt ← get_type st v;
  match vt with
  | None => Raise AttributeError
  | Some lv =>
      '(vtype, st) ← clone st lv (fun T => with_parent T (Some obj));
      oname ← var_name obj;
      vn ← var_name v;
      let vname := oname ++ "%" ++ basename vn in
      oscope ← var_scope obj;
      '(fv, st) ← new st (mkVarArgs vname oscope None None (Some (Some vtype)) None);
      ot ← get_type st obj;
      match ot with
      | None => Raise AttributeError
      | Some lt =>
          T' ← deref st lt;
          match variables T' with
          | None => Raise AttributeError
          | Some dt => dict_set st dt k fv
          end
      end
  end.

(** [Variable.instantiate_derived_type_variables]. *)
Definition instantiate_derived_type_variables
           (new : Store -> VarArgs -> Result (Value * Store))
           (st : Store) (obj : Value) : Result (Value * Store) :=
  ot ← get_type st obj;
  match ot with
  | None => Ok (obj, st)
  | Some l =>
      T ← deref st l;
      if decide (dtype T = DERIVED_TYPE) then
        match variables T with
        | None => Ok (obj, st)
        | Some d =>
            flds ← deref_dict st d;
            match flds with
            | [] => Ok (obj, st)
            | (_, first) :: _ =>
                first_scope ← var_scope first;
                oscope ← var_scope obj;
                if decide (first_scope ≠ oscope) then
                  let '(d', st) := alloc_dict st in
                  '(l', st) ← clone st l (fun T => with_variables T (Some d'));
                  st ← set_type st obj l';
                  st ← foldM (instantiate_field new obj) flds st;
                  Ok (obj, st)
                else Ok (obj, st)
            end
        end
      else Ok (obj, st)
  end.

(** The object [Variable.__new__] builds before the derived-type fields
    are looked at. *)
Definition construct (st : Store) (a : VarArgs) : Result (Value * Store) :=
  let _type := resolve_type st a in
  shape ← resolve_shape st a;
  if scalar_test (a_dimensions a) shape then
    Ok (Scalar_init st (a_name a) (a_scope a) _type (a_parent a) (a_initial a))
  else
    Ok (Array_init st (a_name a) (a_scope a) _type (a_parent a) (a_dimensions a)
                   (a_initial a)).

(** [Variable.__new__]. It and [instantiate_derived_type_variables] call
    each other; [fuel] bounds the depth of the calls, and running out of
    it is Python's [RecursionError]. *)
Fixpoint Variable_new (fuel : nat) (st : Store) (a : VarArgs) : Result (Value * Store) :=
  match fuel with
  | O => Raise RecursionError
  | S fuel' =>
      '(obj, st) ← construct st a;
      instantiate_derived_type_variables (Variable_new fuel') st obj
  end.

End Symbols.

(** ** IR post-processing passes ([frontend/util.py])

    The passes find nodes, fill a dictionary keyed by node objects, and hand
    it to a transformer. A node object is told apart from an equal one by
    its place in the tree: its identity is the path of indices that leads
    to it from the root, through tuples and through the children of
    nodes. *)

Module Passes.
Import IR.
Local Open Scope list_scope.

(** [type(o)]. *)
Inductive NodeType : Type :=
| TTuple | TStatement | TDeclaration | TComment | TCommentBlock | TPragma
| TCallStatement | TLoop | TConditional | TIntrinsic.

#[global] Instance NodeType_eq_dec : EqDecision NodeType.
Proof. solve_decision. Defined.

Definition type_of (o : Node) : NodeType :=
  match o with
  | Tuple _ => TTuple
  | Statement _ _ _ _ => TStatement
  | Declaration _ _ _ _ => TDeclaration
  | Comment _ => TComment
  | CommentBlock _ _ => TCommentBlock
  | Pragma _ => TPragma
  | CallStatement _ _ _ _ => TCallStatement
  | Loop _ _ _ _ _ => TLoop
  | Conditional _ _ _ _ => TConditional
  | Intrinsic _ _ => TIntrinsic
  end.

(** [o._source]. *)
Definition source_of (o : Node) : option Source :=
  match o with
  | Tuple _ => None
  | Statement _ _ _ s => s
  | Declaration _ _ _ s => s
  | Comment c => c_source c
  | CommentBlock _ s => s
  | Pragma p => p_source p
  | CallStatement _ _ _ s => s
  | Loop _ _ _ _ s => s
  | Conditional _ _ _ s => s
  | Intrinsic _ s => s
  end.

(** Modelled from the spec: [Node.children] of [loki/ir.py], which is not
    among the sources: the traversable attributes of a node, each a tuple
    of nodes. *)
Definition children (o : Node) : list Node :=
  match o with
  | Loop _ _ body _ _ => [Tuple body]
  | Conditional _ bodies else_body _ => [Tuple bodies; Tuple else_body]
  | _ => []
  end.

(** Modelled from the spec: [Node._rebuild] of [loki/ir.py], which is not
    among the sources, as the transformer calls it: the node again, with
    its traversable attributes replaced by the rebuilt ones. *)
Definition rebuild (handle : Node) (rebuilt : list Node) : Node :=
  match handle, rebuilt with
  | Loop v b _ p s, [Tuple body] => Loop v b body p s
  | Conditional c _ _ s, [Tuple bodies; Tuple else_body] => Conditional c bodies else_body s
  | _, _ => handle
  end.

(** [o._rebuild(comment=c)] and [o._rebuild(pragma=p)]. *)
Definition set_comment (o : Node) (c : CommentData) : Node :=
  match o with
  | Statement t e _ s => Statement t e (Some c) s
  | Declaration v _ p s => Declaration v (Some c) p s
  | _ => o
  end.

Definition set_pragma (o : Node) (p : PragmaData) : Node :=
  match o with
  | Declaration v c _ s => Declaration v c (Some p) s
  | CallStatement n a _ s => CallStatement n a (Some p) s
  | Loop v b body _ s => Loop v b body (Some p) s
  | _ => o
  end.

(** *** Finders *)

Definition path := list nat.

(** A run of sibling nodes a finder reports: the tuple it was found in,
    the index of its first node there, and the nodes. *)
Record Match : Type := mkMatch {
  m_tuple : path;
  m_index : nat;
  m_nodes : list Node
}.

(** The identity of the [j]-th node of a match. *)
Definition node_key (m : Match) (j : nat) : path := m_tuple m ++ [(m_index m + j)%nat].

(** A match found below the [i]-th item, seen from the tuple. *)
Definition enter (i : nat) (m : Match) : Match :=
  mkMatch (i :: m_tuple m) (m_index m) (m_nodes m).

(** [PatternFinder.match_indices(pattern, sequence)], from index [i] on.
    An empty pattern has no first entry to compare with; the passes use
    patterns of two types. *)
Fixpoint match_from (pattern sequence : list NodeType) (i : nat) : list nat :=
  match sequence with
  | [] => []
  | elem :: rest =>
      (if bool_decide (Some elem = head pattern)
          && bool_decide (take (length pattern) sequence = pattern)
       then [i] else [])
      ++ match_from pattern rest (S i)
  end.

Definition match_indices (pattern sequence : list NodeType) : list nat :=
  match_from pattern sequence 0.

(** The last loop of [PatternFinder.visit_tuple]: the matches in the tuple
    itself. *)
Definition tuple_matches (pattern : list NodeType) (items : list Node) : list Match :=
  map (fun i => mkMatch [] i (take (length pattern) (drop i items)))
      (match_indices pattern (map type_of items)).

(** [itertools.groupby(o, type)]: the runs of items of one type, each
    with the index of its first item. *)
Fixpoint groupby_type (items : list Node) (i : nat) : list (NodeType * nat * list Node) :=
  match items with
  | [] => []
  | x :: rest =>
      match groupby_type rest (S i) with
      | (t, j, g) :: groups =>
          if decide (t = type_of x) then (t, i, x :: g) :: groups
          else (type_of x, i, [x]) :: (t, j, g) :: groups
      | [] => [(type_of x, i, [x])]
      end
  end.

(** The last loop of [SequenceFinder.visit_tuple]: the runs of more than
    one node of the type looked for. *)
Definition tuple_groups (node_type : NodeType) (items : list Node) : list Match :=
  omap (fun '(t, i, g) =>
          if bool_decide (t = node_type) && (1 <? length g)%nat
          then Some (mkMatch [] i g) else None)
       (groupby_type items 0).

(** The items of a tuple, visited in turn with their index. *)
Fixpoint visit_each {A} (visit : nat -> Node -> list A) (items : list Node) (i : nat)
  : list A :=
  match items with
  | [] => []
  | c :: rest => visit i c ++ visit_each visit rest (S i)
  end.

(** [visit_tuple] of the two finders: first the items, then the tuple
    itself, where [in_tuple] is the part that differs between the two. *)
Definition visit_tuple (in_tuple : list Node -> list Match)
           (visit : Node -> list Match) (items : list Node) : list Match :=
  visit_each (fun i c => map (enter i) (visit c)) items 0 ++ in_tuple items.

(** [Visitor.visit] for a finder: a tuple goes to [visit_tuple], a node
    to [visit_Node], which visits the tuple of its children. *)
Fixpoint finder_visit (in_tuple : list Node -> list Match) (o : Node) : list Match :=
  match o with
  | Tuple items => visit_tuple in_tuple (finder_visit in_tuple) items
  | Loop _ _ body _ _ =>
      map (enter 0) (visit_tuple in_tuple (finder_visit in_tuple) body)
      ++ in_tuple [Tuple body]
  | Conditional _ bodies else_body _ =>
      map (enter 0) (visit_tuple in_tuple (finder_visit in_tuple) bodies)
      ++ map (enter 1) (visit_tuple in_tuple (finder_visit in_tuple) else_body)
      ++ in_tuple [Tuple bodies; Tuple else_body]
  | _ => in_tuple []
  end.

(** [PatternFinder(pattern).visit(o)] and [SequenceFinder(node_type).visit(o)]. *)
Definition PatternFinder (pattern : list NodeType) (o : Node) : list Match :=
  finder_visit (tuple_matches pattern) o.

Definition SequenceFinder (node_type : NodeType) (o : Node) : list Match :=
  finder_visit (tuple_groups node_type) o.

(** *** The transformer *)

(** The dictionary [mapper], in the order of its assignments; a value of
    [None] marks the node for deletion. *)
Definition Mapper := list (path * option Node).

(** [mapper.get(o)]: the last assignment for the key counts. *)
Fixpoint mapper_get (M : Mapper) (p : path) : option (option Node) :=
  match M with
  | [] => None
  | (q, v) :: rest =>
      match mapper_get rest p with
      | Some r => Some r
      | None => if decide (q = p) then Some v else None
      end
  end.

(** The entries for the nodes below the [i]-th item. *)
Definition enter_mapper (i : nat) (M : Mapper) : Mapper :=
  omap (fun '(p, v) =>
          match p with
          | j :: p' => if decide (j = i) then Some (p', v) else None
          | [] => None
          end) M.

(** [NestedTransformer.visit_tuple]: the items are visited, and those
    that come back as [None] are dropped. *)
Fixpoint visit_items (visit : nat -> Node -> option Node) (items : list Node) (i : nat)
  : list Node :=
  match items with
  | [] => []
  | c :: rest =>
      match visit i c with
      | Some c' => c' :: visit_items visit rest (S i)
      | None => visit_items visit rest (S i)
      end
  end.

(** What [visit_Node] does once the children are rebuilt. *)
Definition replace (handle : option (option Node)) (o : Node) (rebuilt : list Node)
  : option Node :=
  match handle with
  | Some None => None
  | Some (Some h) => Some (rebuild h rebuilt)
  | None => Some (rebuild o rebuilt)
  end.

(** Modelled from the spec: [NestedTransformer(mapper).visit(o)] of
    [loki/visitors.py], which is not among the sources: a depth-first
    rewrite that rebuilds the children of a node, then replaces the node by
    what the mapper holds for it, and drops it if that is [None]. *)
Fixpoint NestedTransformer (M : Mapper) (o : Node) : option Node :=
  match o with
  | Tuple items =>
      Some (Tuple (visit_items (fun i c => NestedTransformer (enter_mapper i M) c) items 0))
  | Loop _ _ body _ _ =>
      let M0 := enter_mapper 0 M in
      replace (mapper_get M [])
              o [Tuple (visit_items (fun i c => NestedTransformer (enter_mapper i M0) c) body 0)]
  | Conditional _ bodies else_body _ =>
      let M0 := enter_mapper 0 M in
      let M1 := enter_mapper 1 M in
      replace (mapper_get M [])
              o [Tuple (visit_items (fun i c => NestedTransformer (enter_mapper i M0) c) bodies 0);
                 Tuple (visit_items (fun i c => NestedTransformer (enter_mapper i M1) c)
                                    else_body 0)]
  | _ => replace (mapper_get M []) o []
  end.

(** *** The three passes *)

(** The test of [inline_comments] on a pair: both nodes have a source
    span, and the comment starts on the line on which the node ends. *)
Definition same_line (o : Node) (c : CommentData) : bool :=
  match source_of o, c_source c with
  | Some s0, Some s1 => (fst (lines s1) =? snd (lines s0))%Z
  | _, _ => false
  end.

(** The body of the loop over [pairs] in [inline_comments]. *)
Definition inline_comments_entries (pair : Match) : Mapper :=
  match m_nodes pair with
  | [p0; Comment c] =>
      if same_line p0 c
      then [(node_key pair 0, Some (set_comment p0 c)); (node_key pair 1, None)]
      else []
  | _ => []
  end.

(** [inline_comments(ir)]. *)
Definition inline_comments (ir : Node) : option Node :=
  let pairs := PatternFinder [TStatement; TComment] ir
               ++ PatternFinder [TDeclaration; TComment] ir in
  NestedTransformer (flat_map inline_comments_entries pairs) ir.

Definition comment_of (o : Node) : option CommentData :=
  match o with
  | Comment c => Some c
  | _ => None
  end.

(** [''.join(c._source.string for c in comments)]. *)
Fixpoint join_strings (l : list String.string) : String.string :=
  match l with
  | [] => EmptyString
  | x :: rest => String.append x (join_strings rest)
  end.

(** The source span [cluster_comments] gives to the block. *)
Definition block_source (comments : list CommentData) : option Source :=
  if forallb (fun c => bool_decide (is_Some (c_source c))) comments then
    let sources := omap c_source comments in
    let text :=
      if forallb (fun s => bool_decide (is_Some (string s))) sources
      then Some (join_strings (omap string sources)) else None in
    match head sources, last sources with
    | Some s0, Some s1 =>
        Some (mkSource (fst (lines s0), snd (lines s1)) text (file s0) (label s0))
    | _, _ => None
    end
  else None.

(** The body of the loop over [comment_groups] in [cluster_comments]. *)
Definition cluster_comments_entries (group : Match) : Mapper :=
  let comments := omap comment_of (m_nodes group) in
  (node_key group 0, Some (CommentBlock comments (block_source comments)))
  :: map (fun j => (node_key group j, None)) (seq 1 (length (m_nodes group) - 1)).

(** [cluster_comments(ir)]. *)
Definition cluster_comments (ir : Node) : option Node :=
  NestedTransformer (flat_map cluster_comments_entries (SequenceFinder TComment ir)) ir.

(** The body of the loop over [pairs] in [inline_pragmas]. *)
Definition inline_pragmas_entries (pair : Match) : Mapper :=
  match m_nodes pair with
  | [Pragma p; p1] => [(node_key pair 0, None); (node_key pair 1, Some (set_pragma p1 p))]
  | _ => []
  end.

(** [inline_pragmas(ir)]. *)
Definition inline_pragmas (ir : Node) : option Node :=
  let pairs := PatternFinder [TPragma; TDeclaration] ir
               ++ PatternFinder [TPragma; TCallStatement] ir
               ++ PatternFinder [TPragma; TLoop] ir in
  NestedTransformer (flat_map inline_pragmas_entries pairs) ir.

End Passes.

(** ** A sample store

  A type definition [my_struct] with a scalar field [a] and an array
  field [b], declared in the scope of the type definition, and a routine
  scope in which a variable [item] of that type is created. *)

Module Sample.
Import Types Symbols.

Definition routine_scope : scope_id := 0%nat.
Definition typedef_scope : scope_id := 1%nat.

Definition real_type : SymbolType := SymbolType_new REAL.

Definition vector_type : SymbolType :=
  mkSymbolType REAL None None false false false false false false
               (Some [Raw (PyInt 3)]) None None None None false false.

Definition field_a : Value := Scalar "a" typedef_scope None None.
Definition field_b : Value := Array "b" typedef_scope None None None.

Definition struct_type (d : dict_id) : SymbolType :=
  mkSymbolType DERIVED_TYPE None None false false false false false false
               None (Some d) None None (Some "my_struct") false false.

(** The store after the type definition has been translated. *)
Definition typedef_store : Result (type_id * type_id * type_id * dict_id * Store) :=
  let '(ta, st) := alloc_type empty_store real_type in
  let st := define st typedef_scope "a" ta in
  let '(tb, st) := alloc_type st vector_type in
  let st := define st typedef_scope "b" tb in
  let '(d, st) := alloc_dict st in
  st ← dict_set st d "a" field_a;
  st ← dict_set st d "b" field_b;
  let '(ts, st) := alloc_type st (struct_type d) in
  Ok (ta, tb, ts, d, st).

Definition store : Store :=
  match typedef_store with
  | Ok (_, _, _, _, st) => st
  | Raise _ => empty_store
  end.

Definition struct_id : type_id := 2%nat.

Definition item_args : VarArgs :=
  mkVarArgs "item" routine_scope None None (Some (Some struct_id)) None.

(** The variable [item] and the store after its construction. *)
Definition item : Value :=
  match Variable_new 3 store item_args with
  | Ok (obj, _) => obj
  | Raise _ => Scalar "item" routine_scope None None
  end.

Definition item_store : Store :=
  match Variable_new 3 store item_args with
  | Ok (_, st) => st
  | Raise _ => store
  end.

End Sample.

(** ** Reference definitions for the statements below *)

Module Reference.

(** The first and the last character of a string, if it has any. *)
Definition first_char (s : string) : option ascii :=
  match s with
  | EmptyString => None
  | String c _ => Some c
  end.

Fixpoint last_char (s : string) : option ascii :=
  match s with
  | EmptyString => None
  | String c EmptyString => Some c
  | String _ rest => last_char rest
  end.

(** The string without its last character. *)
Fixpoint drop_last (s : string) : string :=
  match s with
  | EmptyString => EmptyString
  | String _ EmptyString => EmptyString
  | String c rest => String c (drop_last rest)
  end.

(** The string without its two outer characters; a string of one
    character has only one to lose. *)
Definition strip_outer (s : string) : string :=
  match s with
  | EmptyString => EmptyString
  | String _ rest => drop_last rest
  end.

Definition is_quote (c : ascii) : bool :=
  Ascii.eqb c PyStr.dquote || Ascii.eqb c PyStr.squote.

(** First and last character are the same quote character. *)
Definition outer_quoted (s : string) : bool :=
  match first_char s, last_char s with
  | Some a, Some b => Ascii.eqb a b && is_quote a
  | _, _ => false
  end.

(** A kind tag that denotes 32-bit precision, as the Fortran source
    means it: the named constant [real32] of [iso_fortran_env], in any
    letter case since Fortran names have none, or the kind number [4] of
    the four-byte real. *)
Definition denotes_32bit (stringify : Value -> string) (kind : option Value) : bool :=
  PyStr.in_tuple (PyStr.lower (py_str_opt stringify kind)) ["real32"; "4"].

(** The one spelling of such a tag that the back end knows. *)
Definition spelled_real32 (stringify : Value -> string) (kind : option Value) : Prop :=
  py_str_opt stringify kind = "real32".


(** The keys a construction of [name] may bind: its own, and those of
    its fields and of theirs, which are qualified by it. *)
Definition own_key (name key : string) : Prop :=
  key = Symbols.format_lookup_name name
  \/ exists rest, key = Symbols.format_lookup_name name ++ "%" ++ rest.

(** The allocation counters of a store lie above every object in it. *)
Definition wf (st : Symbols.Store) : Prop :=
  (forall l, is_Some (Symbols.types st !! l) -> (l < Symbols.next_type st)%nat)
  /\ (forall d, is_Some (Symbols.dicts st !! d) -> (d < Symbols.next_dict st)%nat).

(** The same as a check that can be run on a given store. *)
Definition wf_check (st : Symbols.Store) : bool :=
  forallb (fun l => (l <? Symbols.next_type st)%nat) (map fst (map_to_list (Symbols.types st)))
  && forallb (fun d => (d <? Symbols.next_dict st)%nat)
             (map fst (map_to_list (Symbols.dicts st))).

(** A field variable that belongs to another scope than [sc]. *)
Definition declared_elsewhere (sc : scope_id) (v : Value) : bool :=
  match Symbols.var_scope v with
  | Ok s => negb (s =? sc)%nat
  | Raise _ => false
  end.

(** A shape that is absent or empty, and one that has dimensions. *)
Definition no_shape (shape : option (list Value)) : Prop :=
  shape = None \/ shape = Some [].

Definition has_shape (shape : option (list Value)) : Prop :=
  exists s, shape = Some s /\ s <> [].

(** What a run of the constructor may change in a store: it allocates,
    it binds keys of its own in its scope ([ok] is what they may be bound
    to), it leaves every type object alone, and the dictionaries below
    [nd] as well. *)
Record frame (nd : nat) (sc : scope_id) (name : string) (ok : type_id -> Prop)
       (st st' : Symbols.Store) : Prop := mkFrame {
  fr_next_type : (Symbols.next_type st <= Symbols.next_type st')%nat;
  fr_next_dict : (Symbols.next_dict st <= Symbols.next_dict st')%nat;
  fr_types : forall l, (l < Symbols.next_type st)%nat ->
                       Symbols.types st' !! l = Symbols.types st !! l;
  fr_dicts : forall d, (d < nd)%nat -> Symbols.dicts st' !! d = Symbols.dicts st !! d;
  fr_parents : Symbols.parents st' = Symbols.parents st;
  fr_symbols : forall key,
    Symbols.symbols st' !! key = Symbols.symbols st !! key
    \/ (key.1 = sc /\ own_key name key.2
        /\ exists l, Symbols.symbols st' !! key = Some l /\ ok l
                     /\ is_Some (Symbols.types st' !! l))
}.

(** What the name of a new variable may end up bound to: a new type
    object, or the type the constructor resolved. *)
Definition bound_ok (st : Symbols.Store) (a : Symbols.VarArgs) (l : type_id) : Prop :=
  (Symbols.next_type st <= l)%nat \/ Symbols.resolve_type st a = Some l.

(** The object the constructor makes of the arguments [a]: its class
    follows from the dimensions and from the shape of the resolved type. *)
Definition constructed (st : Symbols.Store) (a : Symbols.VarArgs) (o : Value) : Prop :=
  exists shape,
    Symbols.resolve_shape st a = Ok shape
    /\ o = if Symbols.scalar_test (Symbols.a_dimensions a) shape
           then Scalar (Symbols.a_name a) (Symbols.a_scope a) (Symbols.a_parent a)
                       (Symbols.a_initial a)
           else Array (Symbols.a_name a) (Symbols.a_scope a) (Symbols.a_parent a)
                      (Symbols.a_dimensions a) (Symbols.a_initial a).

(** What the name is bound to after a construction that resolved the
    type object [lt] of content [Tt]: that object, or, for a derived
    type, a new copy of it that has a field dictionary of its own. *)
Definition bound_to_resolved (st st' : Symbols.Store) (a : Symbols.VarArgs)
           (lt : type_id) (Tt : Types.SymbolType) : Prop :=
  exists l Tl,
    Symbols.getitem st' (Symbols.a_scope a) (Symbols.a_name a) = Some l
    /\ Symbols.types st' !! l = Some Tl
    /\ ((l = lt /\ Tl = Tt)
        \/ (Types.dtype Tt = DERIVED_TYPE
            /\ (Symbols.next_type st <= l)%nat
            /\ exists d', (Symbols.next_dict st <= d')%nat
                          /\ Tl = Symbols.with_variables Tt (Some d'))).

(** The contract of the constructor that the loop over the fields relies
    on. *)
Definition new_spec (new : Symbols.Store -> Symbols.VarArgs
                           -> Result (Value * Symbols.Store)) : Prop :=
  forall st a o st',
    wf st -> new st a = Ok (o, st') ->
    wf st'
    /\ Symbols.var_name o = Ok (Symbols.a_name a)
    /\ Symbols.var_scope o = Ok (Symbols.a_scope a)
    /\ frame (Symbols.next_dict st) (Symbols.a_scope a) (Symbols.a_name a)
             (bound_ok st a) st st'
    /\ (exists l,
          Symbols.getitem st' (Symbols.a_scope a) (Symbols.a_name a) = Some l
          /\ is_Some (Symbols.types st' !! l)
          /\ (bound_ok st a l
              \/ (Symbols.resolve_type st a = None
                  /\ Symbols.getitem st (Symbols.a_scope a) (Symbols.a_name a) = Some l)))
    /\ constructed st a o
    /\ (forall lt Tt,
          Symbols.resolve_type st a = Some lt -> Symbols.types st !! lt = Some Tt ->
          bound_to_resolved st st' a lt Tt).

(** The type object a variable reads, with its content. *)
Definition typed (st : Symbols.Store) (v : Value) (lv : type_id) (Tv : Types.SymbolType)
  : Prop :=
  Symbols.get_type st v = Ok (Some lv) /\ Symbols.types st !! lv = Some Tv.





(** What holds between two rounds of the loop over the fields of the
    instance [name]: its name is bound to the clone [l'], whose field
    dictionary [d'] is there. *)
Definition loop_base (st : Symbols.Store) (nt nd : nat) (sc : scope_id) (name : string)
           (l' : type_id) (T' : Types.SymbolType) (d' : dict_id) : Prop :=
  wf st
  /\ Symbols.getitem st sc name = Some l'
  /\ (nt <= l')%nat /\ (nd <= d')%nat
  /\ Symbols.types st !! l' = Some T'
  /\ Types.variables T' = Some d'
  /\ is_Some (Symbols.dicts st !! d').



(** The store in which the loop over the fields starts: the instance
    [name] is bound to a new copy of its type [T] that has a new, empty
    field dictionary. *)
Definition loop_start (st : Symbols.Store) (sc : scope_id) (name : string)
           (T : Types.SymbolType) : Symbols.Store :=
  Symbols.define
    (Symbols.alloc_type (Symbols.alloc_dict st).2
                        (Symbols.with_variables T (Some (Symbols.next_dict st)))).2
    sc name (Symbols.next_type st).

(** A field of a type definition as an instance of scope [sc] finds it:
    a variable of another scope that reads a type object of the store. *)
Definition foreign_field (st : Symbols.Store) (sc : scope_id) (v : Value) : Prop :=
  exists vn s lv Tv,
    Symbols.var_name v = Ok vn /\ Symbols.var_scope v = Ok s /\ s <> sc
    /\ typed st v lv Tv.


(** The type a field variable reads in [st], if it reads one. *)
Definition type_of_field (st : Symbols.Store) (v : Value) : option Types.SymbolType :=
  match Symbols.get_type st v with
  | Ok (Some lv) => Symbols.types st !! lv
  | _ => None
  end.

(** A field that can be made anew for an instance of scope [sc]: it
    belongs to another scope and reads a type object that is [ok]. *)
Definition field_ready (ok : Types.SymbolType -> bool) (st : Symbols.Store)
           (sc : scope_id) (v : Value) : bool :=
  declared_elsewhere sc v
  && match type_of_field st v with
     | Some Tv => ok Tv
     | None => false
     end.

(** The fields of the type [T] can be made anew for an instance of the
    scope [sc] within [fuel] nested calls of the constructor: a derived
    type has its field dictionary in the store, every field belongs to
    another scope and reads a type object of the store, and that type can
    in turn be instantiated within one call less. *)
Fixpoint ready (fuel : nat) (st : Symbols.Store) (sc : scope_id) (T : Types.SymbolType)
  : bool :=
  match fuel with
  | O => false
  | S fuel' =>
      if decide (Types.dtype T = DERIVED_TYPE) then
        match Types.variables T with
        | None => true
        | Some d =>
            match Symbols.dicts st !! d with
            | None => false
            | Some flds =>
                forallb (fun kv => field_ready (ready fuel' st sc) st sc kv.2) flds
            end
        end
      else true
  end.

End Reference.

(** ** The passes, as rewrites of sibling sequences

    What the specification says the three passes do, written as plain
    recursions over the items of a tuple; the statements below compare the
    passes of [util.py] with them. *)

Module Rewrites.
Import IR Passes.
Local Open Scope list_scope.

(** A rewrite of sibling sequences, applied to the sequences a node
    holds. *)
Definition descend (on_items : list Node -> list Node) (o : Node) : Node :=
  match o with
  | Tuple items => Tuple (on_items items)
  | Loop v b body p s => Loop v b (on_items body) p s
  | Conditional c bodies else_body s => Conditional c (on_items bodies) (on_items else_body) s
  | _ => o
  end.

(** The nodes of the sequences a node holds. *)
Definition subnodes (o : Node) : list Node :=
  match o with
  | Tuple items => items
  | Loop _ _ body _ _ => body
  | Conditional _ bodies else_body _ => bodies ++ else_body
  | _ => []
  end.

(** A key one level further down. *)
Definition below (i : nat) (kv : path * option Node) : path * option Node :=
  (i :: kv.1, kv.2).

(** A node that was rewritten inside, put in place of the original as the
    dictionary says; a tuple has no entry of its own. *)
Definition apply_handle (handle : option (option Node)) (o' : Node) : option Node :=
  match o' with
  | Tuple _ => Some o'
  | _ => replace handle o' (children o')
  end.

(** The entries of a pass for the nodes of one tuple. *)
Definition local_mapper (finders : list (list Node -> list Match))
           (entries : Match -> Mapper) (items : list Node) : Mapper :=
  flat_map entries (flat_map (fun f => f items) finders).

(** The entries of a pass for a whole tree. *)
Definition pass_mapper (finders : list (list Node -> list Match))
           (entries : Match -> Mapper) (o : Node) : Mapper :=
  flat_map entries (flat_map (fun f => finder_visit f o) finders).

(** The rewrite a pass amounts to: every tuple is rewritten by the entries
    found in it, after its items were rewritten inside. *)
Fixpoint rewrite (local : list Node -> Mapper) (o : Node) : Node :=
  descend (fun items =>
             visit_items (fun i c => apply_handle (mapper_get (local items) [i])
                                                    (rewrite local c))
                         items 0) o.

(** What a finder and the loop body of a pass have to satisfy for the
    pass to be such a rewrite: matches are reported for the tuple they are
    in, the tuple of a node's children never matches, and the entries are
    keyed by the nodes of the match. *)
Record local_pass (finders : list (list Node -> list Match))
       (entries : Match -> Mapper) : Prop := mkLocalPass {
  lp_here : forall f items m, In f finders -> In m (f items) -> m_tuple m = [];
  lp_children : forall f o, In f finders -> f (children o) = [];
  lp_enter : forall i m,
      entries (enter i m) = map (below i) (entries m);
  lp_keys : forall m kv, In kv (entries m) -> exists k, kv.1 = m_tuple m ++ [k]
}.

(** The finders of [inline_comments] and of [inline_pragmas]. *)
Definition comment_finders : list (list Node -> list Match) :=
  [tuple_matches [TStatement; TComment]; tuple_matches [TDeclaration; TComment]].

Definition pragma_finders : list (list Node -> list Match) :=
  [tuple_matches [TPragma; TDeclaration]; tuple_matches [TPragma; TCallStatement];
   tuple_matches [TPragma; TLoop]].

(** *** Merging of inline comments *)

(** A statement or declaration takes the comment that follows it if both
    have a source span and the comment starts on the line on which the
    node ends. *)
Definition takes_comment (a : Node) (c : CommentData) : bool :=
  (bool_decide (type_of a = TStatement) || bool_decide (type_of a = TDeclaration))
  && same_line a c.

Fixpoint merge_comments_in (inside : Node -> Node) (items : list Node) : list Node :=
  match items with
  | [] => []
  | a :: rest =>
      match rest with
      | Comment c :: rest' =>
          if takes_comment a c then set_comment a c :: merge_comments_in inside rest'
          else inside a :: merge_comments_in inside rest
      | _ => inside a :: merge_comments_in inside rest
      end
  end.

Fixpoint merged_comments (o : Node) : Node :=
  descend (merge_comments_in merged_comments) o.

(** The reading of the specification: the comment is also taken when it
    starts on the line after the one on which the node ends. *)
Definition same_or_next_line (o : Node) (c : CommentData) : bool :=
  match source_of o, c_source c with
  | Some s0, Some s1 =>
      (fst (lines s1) =? snd (lines s0))%Z || (fst (lines s1) =? snd (lines s0) + 1)%Z
  | _, _ => false
  end.

(** *** Clustering of comments *)

(** A run of comments that has come to its end. *)
Definition flush (run : list CommentData) : list Node :=
  match run with
  | [] => []
  | [c] => [Comment c]
  | _ => [CommentBlock run (block_source run)]
  end.

Fixpoint cluster_in (inside : Node -> Node) (run : list CommentData) (items : list Node)
  : list Node :=
  match items with
  | [] => flush run
  | Comment c :: rest => cluster_in inside (run ++ [c]) rest
  | x :: rest => flush run ++ inside x :: cluster_in inside [] rest
  end.

Fixpoint clustered_comments (o : Node) : Node :=
  descend (cluster_in clustered_comments []) o.

(** Comment blocks opened up again: the sequence of nodes a clustered
    sequence stands for. *)
Definition expand (o : Node) : list Node :=
  match o with
  | CommentBlock comments _ => map Comment comments
  | _ => [o]
  end.

(** The runs [SequenceFinder] reports for a tuple whose first item has
    the index [i]. *)
Definition groups_from (node_type : NodeType) (items : list Node) (i : nat) : list Match :=
  omap (fun '(t, i, g) =>
          if bool_decide (t = node_type) && (1 <? length g)%nat
          then Some (mkMatch [] i g) else None)
       (groupby_type items i).

(** Entries for items of a tuple, with indices below, or from, [j]. *)
Definition keys_lt (j : nat) (M : Mapper) : Prop :=
  forall kv, In kv M -> exists k, kv.1 = [k] /\ (k < j)%nat.

Definition keys_ge (j : nat) (M : Mapper) : Prop :=
  forall kv, In kv M -> exists k, kv.1 = [k] /\ (j <= k)%nat.

(** The entries for a run of comments that starts at the index [j]. *)
Definition run_entries (j : nat) (run : list CommentData) : Mapper :=
  if (1 <? length run)%nat
  then cluster_comments_entries (mkMatch [] j (map Comment run))
  else [].

(** *** Attaching of pragmas *)

(** A declaration, call or loop takes the pragma in front of it. *)
Definition takes_pragma (b : Node) : bool :=
  bool_decide (type_of b = TDeclaration) || bool_decide (type_of b = TCallStatement)
  || bool_decide (type_of b = TLoop).

Fixpoint attach_pragmas_in (inside : Node -> Node) (items : list Node) : list Node :=
  match items with
  | [] => []
  | a :: rest =>
      match a, rest with
      | Pragma p, b :: rest' =>
          if takes_pragma b then set_pragma (inside b) p :: attach_pragmas_in inside rest'
          else inside a :: attach_pragmas_in inside rest
      | _, _ => inside a :: attach_pragmas_in inside rest
      end
  end.

Fixpoint attached_pragmas (o : Node) : Node :=
  descend (attach_pragmas_in attached_pragmas) o.

(** *** What is kept of a sequence *)

(** A node without what the passes attach to it: the comment and the
    pragma slot emptied. *)
Definition bare (o : Node) : Node :=
  match o with
  | Statement t e _ s => Statement t e None s
  | Declaration v _ _ s => Declaration v None None s
  | CallStatement n a _ s => CallStatement n a None s
  | Loop v b body _ s => Loop v b body None s
  | _ => o
  end.

(** A test on three neighbours that holds all along a sequence. *)
Fixpoint all_triples (R : Node -> Node -> Node -> bool) (items : list Node) : bool :=
  match items with
  | a :: rest =>
      match rest with
      | b :: c :: _ => R a b c
      | _ => true
      end && all_triples R rest
  | [] => true
  end.

(** No statement or declaration is followed by two comments that both
    start on the line on which it ends. *)
Definition comments_settled (items : list Node) : bool :=
  all_triples (fun a b c =>
                 match b, c with
                 | Comment c1, Comment c2 => negb (takes_comment a c1 && takes_comment a c2)
                 | _, _ => true
                 end) items.

(** No two pragmas in a row stand in front of a declaration, call or
    loop. *)
Definition pragmas_settled (items : list Node) : bool :=
  all_triples (fun a b c =>
                 negb (bool_decide (type_of a = TPragma) && bool_decide (type_of b = TPragma)
                       && takes_pragma c)) items.

(** A test of sibling sequences that holds of every sequence in a tree. *)
Fixpoint everywhere (P : list Node -> bool) (o : Node) : bool :=
  match o with
  | Tuple items => P items && forallb (everywhere P) items
  | Loop _ _ body _ _ => P body && forallb (everywhere P) body
  | Conditional _ bodies else_body _ =>
      (P bodies && forallb (everywhere P) bodies)
      && (P else_body && forallb (everywhere P) else_body)
  | _ => true
  end.

(** Comment blocks opened up again in a sequence. *)
Definition expanded (items : list Node) : list Node := flat_map expand items.

(** A pass that rewrites the sequences a node holds: the result for a
    sequence is related by [same] to the items after the pass, taken one by
    one. *)
Definition rewrites_sequences (pass : Node -> option Node)
           (same : list Node -> list Node -> Prop) : Prop :=
  exists on_items : list Node -> list Node,
    (forall o, pass o = Some (descend on_items o))
    /\ forall items, exists kids,
        Forall2 (fun x k => pass x = Some k) items kids /\ same (on_items items) kids.

(** Nodes are only dropped or given a comment or pragma: what is left is
    in the order of the items. *)
Definition in_order (out kids : list Node) : Prop :=
  map bare out `sublist_of` map bare kids.

(** Comments are only gathered into blocks: with the blocks opened up the
    sequence is the same. *)
Definition regrouped (out kids : list Node) : Prop :=
  expanded out = expanded kids.

(** *** Sample trees *)

Definition at_line (n : Z) : option Source := Some (mkSource (n, n) None None None).

Definition assign (n : Z) : Node :=
  Statement (Scalar "a" 0%nat None None) (IntLiteral 1 None) None (at_line n).

Definition remark (t : String.string) (n : Z) : CommentData := mkComment (Some t) (at_line n).

Definition directive (k : String.string) (n : Z) : PragmaData := mkPragma k None (at_line n).

Definition counted (body : list Node) (p : option PragmaData) (n : Z) : Node :=
  Loop (Scalar "i" 0%nat None None) [IntLiteral 1 None; IntLiteral 9 None] body p (at_line n).

End Rewrites.

(** ** Helpers of the translator and of the finders
    ([frontend/fparser.py], [frontend/util.py]) *)

Module Frontend.
Import IR Passes.
Local Open Scope list_scope.

Section NodeSublist.
Context {A : Type}.

(** [isinstance(node, starttype)] and [isinstance(node, endtype)]. *)
Variables starttype endtype : A -> bool.

(** The loop of [node_sublist], entered with the flag [active]. *)
Fixpoint node_sublist_loop (active : bool) (nodelist : list A) : list A :=
  match nodelist with
  | [] => []
  | node :: rest =>
      let active := if endtype node then false else active in
      (if active then [node] else [])
      ++ node_sublist_loop (if starttype node then true else active) rest
  end.

(** [node_sublist(nodelist, starttype, endtype)]. *)
Definition node_sublist (nodelist : list A) : list A :=
  node_sublist_loop false nodelist.

End NodeSublist.

(** [PatternFinder.match_indices(pattern, sequence)] as a function of its
    own: the test [elem == pattern[0]] of the first round fails on an
    empty pattern. *)
Definition match_indices (pattern sequence : list NodeType) : Result (list nat) :=
  match pattern, sequence with
  | [], _ :: _ => Raise IndexError
  | _, _ => Ok (match_from pattern sequence 0)
  end.

End Frontend.

(** ** Operands of an operator *)

Module Operands.

(** The number of operands [visit_operation] takes out of [exprs] by
    index for an operator: none where the whole tuple is handed on, one for
    a sign and for a negation, two otherwise. *)
Definition operands_needed (op : string) (given : nat) : nat :=
  if String.eqb op "*" || String.eqb op "+"
     || String.eqb (PyStr.lower op) ".and." || String.eqb (PyStr.lower op) ".or."
  then 0%nat
  else if String.eqb op "-" then (if (1 <? given)%nat then 2%nat else 1%nat)
  else if String.eqb (PyStr.lower op) ".not." then 1%nat
  else 2%nat.

End Operands.

(** ** The object a constructor call builds *)

Module Built.
Import Symbols.

(** The object [Variable(...)] builds from its arguments and the shape
    it finds. *)
Definition built (a : VarArgs) (shape : option (list Value)) : Value :=
  if scalar_test (a_dimensions a) shape
  then Scalar (a_name a) (a_scope a) (a_parent a) (a_initial a)
  else Array (a_name a) (a_scope a) (a_parent a) (a_dimensions a) (a_initial a).

End Built.

(** ** The passes one after the other ([frontend/fparser.py]) *)

Module Pipeline.
Import IR Passes Rewrites.
Local Open Scope list_scope.

(** The three sanitation steps at the end of [parse_fparser_ast], run on
    the tree the translator has built. *)
Definition parse_fparser_ast_passes (ir : Node) : option Node :=
  ir ← inline_comments ir;
  ir ← cluster_comments ir;
  inline_pragmas ir.

(** A test on two neighbours that holds all along a sequence. *)
Fixpoint all_pairs (R : Node -> Node -> bool) (items : list Node) : bool :=
  match items with
  | a :: rest =>
      match rest with
      | b :: _ => R a b
      | [] => true
      end && all_pairs R rest
  | [] => true
  end.

(** No two comments stand next to each other. *)
Definition comments_apart (items : list Node) : bool :=
  all_pairs (fun a b => negb (bool_decide (type_of a = TComment)
                              && bool_decide (type_of b = TComment))) items.

(** No comment follows a statement or declaration on the line on which
    that node ends. *)
Definition comments_taken (items : list Node) : bool :=
  all_pairs (fun a b => match b with
                        | Comment c => negb (takes_comment a c)
                        | _ => true
                        end) items.

(** No pragma stands in front of a declaration, call or loop. *)
Definition pragmas_taken (items : list Node) : bool :=
  all_pairs (fun a b => negb (bool_decide (type_of a = TPragma) && takes_pragma b)) items.

End Pipeline.

(** ** The kernel code of a tree ([backend/maxgen.py]) *)

Module Kernel.
Import IR Types Maxj.

(** [sep.join(l)]. *)
Fixpoint join (sep : String.string) (l : list String.string) : String.string :=
  match l with
  | [] => EmptyString
  | x :: rest =>
      match rest with
      | [] => x
      | _ :: _ => x ++ sep ++ join sep rest
      end
  end.

(** [[f(i) for i in l]]: the first failure ends the comprehension. *)
Definition traverse {A B} (f : A -> Result B) : list A -> Result (list B) :=
  fix go (l : list A) : Result (list B) :=
    match l with
    | [] => Ok []
    | x :: rest => y ← f x; ys ← go rest; Ok (y :: ys)
    end.

Definition newline : String.string := String (ascii_of_nat 10) EmptyString.

(** [MaxjCodegen.visit_tuple], for the method [visit] that is applied to
    the items. *)
Definition visit_tuple (visit : Node -> Result String.string) (o : list Node) : Result String.string :=
  lines ← traverse visit o; Ok (join newline lines).

(** [MaxjCodegen.visit_CommentBlock]. *)
Definition visit_CommentBlock (depth : nat) (comments : list CommentData) : Result String.string :=
  lines ← traverse (visit_Comment depth) comments; Ok (join newline lines).

(** [o.__class__.__name__] for the node classes the generator has no
    method of their own for. *)
Definition class_name (o : Node) : String.string :=
  match o with
  | Tuple _ => "tuple"
  | Statement _ _ _ _ => "Statement"
  | Declaration _ _ _ _ => "Declaration"
  | Comment _ => "Comment"
  | CommentBlock _ _ => "CommentBlock"
  | Pragma _ => "Pragma"
  | CallStatement _ _ _ _ => "CallStatement"
  | Loop _ _ _ _ _ => "Loop"
  | Conditional _ _ _ _ => "Conditional"
  | Intrinsic _ _ => "Intrinsic"
  end.

(** [MaxjCodegen.visit_Node]. *)
Definition visit_Node (depth : nat) (o : Node) : String.string :=
  indent depth ++ "// <" ++ class_name o ++ ">".

Section Emit.

Variable stringify : Value -> String.string.
Variable maxjsymgen : Value -> String.string.

(** [MaxjCodegen.visit_SymbolType]. *)
Definition visit_SymbolType (o : SymbolType) : Result String.string :=
  if decide (dtype o = DERIVED_TYPE) then
    Ok ("DFEStructType " ++ match name o with Some n => n | None => "None" end)
  else if dfevar o then maxj_dfevar_type stringify o
  else maxj_local_type stringify o.

(** [MaxjCodegen.visit_Declaration] reads the type of the declaration,
    which the nodes here do not carry, and no sequence of nodes; the
    header line of [visit_Loop] is made by [str.format] from the loop
    variable and the bounds. *)
Variable visit_Declaration : nat -> Node -> Result String.string.
Variable loop_header : nat -> Value -> list Value -> Result String.string.

(** Modelled from the spec: the dispatch of [Visitor.visit] of
    [loki/visitors.py], which is not among the sources: the method named
    after the class of the object, and [visit_Node] where the generator has
    none. The methods are those of [MaxjCodegen]; [depth] is its
    [_depth]. *)
Fixpoint visit (depth : nat) (o : Node) : Result String.string :=
  match o with
  | Tuple items => visit_tuple (visit depth) items
  | Statement target expr comment _ => visit_Statement maxjsymgen depth target expr comment
  | Declaration _ _ _ _ => visit_Declaration depth o
  | Comment c => visit_Comment depth c
  | CommentBlock comments _ => visit_CommentBlock depth comments
  | Intrinsic text _ => Ok text
  | Loop variable bounds body _ _ =>
      body' ← visit_tuple (visit (S depth)) body;
      header ← loop_header depth variable bounds;
      Ok (header ++ "{" ++ newline ++ body' ++ newline ++ indent depth ++ "}" ++ newline)
  | Pragma _ | CallStatement _ _ _ _ | Conditional _ _ _ _ => Ok (visit_Node depth o)
  end.

End Emit.

End Kernel.

(** ** The type of a stream variable ([backend/maxgen.py]) *)

Module Streams.

(** [template % arg] for a string [arg] and a template with one
    conversion, [%s]; [None] stands for the [TypeError] of a template that
    has no conversion or more than this one. *)
Fixpoint percent (template arg : string) : option string :=
  match template with
  | EmptyString => None
  | String c rest =>
      if Ascii.eqb c "%" then
        match rest with
        | String "s" rest' => if PyStr.char_in "%" rest' then None else Some (arg ++ rest')
        | _ => None
        end
      else String c <$> percent rest arg
  end.

(** [reduce(lambda p, n: n % p, types)] after its first element [p]. *)
Fixpoint reduce_percent (p : string) (templates : list string) : option string :=
  match templates with
  | [] => Some p
  | n :: rest => p' ← percent n p; reduce_percent p' rest
  end.

(** The list [types] that [type_and_stream] builds for a variable with
    [L] dimensions. *)
Definition vector_types (L : nat) : option (list string) :=
  let types := "DFEVar" :: replicate L "DFEVector<%s>" in
  mapM (fun i => match take i types with
                 | [] => None
                 | p :: rest => reduce_percent p rest
                 end) (seq 1 (L + 1)).

(** [types[-1]], the type that [type_and_stream] returns. *)
Definition vector_type (L : nat) : option string :=
  types ← vector_types L; last types.

End Streams.

(** ** Statement labels ([frontend/util.py]) *)

Module Labels.
Import IR Passes Rewrites.
Local Open Scope list_scope.

(** [o._rebuild(source=s)] on the nodes [inline_labels] rebuilds. *)
Definition set_source (o : Node) (s : option Source) : Node :=
  match o with
  | Statement t e c _ => Statement t e c s
  | Intrinsic t _ => Intrinsic t s
  | _ => o
  end.

Definition label_text : String.string := "__STATEMENT_LABEL__"%string.

(** The two tests of [inline_labels] on a pair. *)
Definition labels (c : CommentData) (o : Node) : bool :=
  match c_source c with
  | Some s0 =>
      bool_decide (text c = Some label_text)
      && match source_of o with
         | Some s1 => (fst (lines s1) =? snd (lines s0))%Z
         | None => false
         end
  | None => false
  end.

(** The body of the loop over [pairs] in [inline_labels]. *)
Definition inline_labels_entries (pair : Match) : Mapper :=
  match m_nodes pair with
  | [Comment c; p1] =>
      if labels c p1
      then [(node_key pair 0, None); (node_key pair 1, Some (set_source p1 (c_source c)))]
      else []
  | _ => []
  end.

(** [inline_labels(ir)]. *)
Definition inline_labels (ir : Node) : option Node :=
  let pairs := PatternFinder [TComment; TStatement] ir
               ++ PatternFinder [TComment; TIntrinsic] ir in
  NestedTransformer (flat_map inline_labels_entries pairs) ir.

(** *** The pass as a rewrite of sequences *)

Definition label_finders : list (list Node -> list Match) :=
  [tuple_matches [TComment; TStatement]; tuple_matches [TComment; TIntrinsic]].

(** A statement or intrinsic takes the label in front of it. *)
Definition takes_label (c : CommentData) (b : Node) : bool :=
  (bool_decide (type_of b = TStatement) || bool_decide (type_of b = TIntrinsic))
  && labels c b.

Fixpoint attach_labels_in (inside : Node -> Node) (items : list Node) : list Node :=
  match items with
  | [] => []
  | a :: rest =>
      match a, rest with
      | Comment c, b :: rest' =>
          if takes_label c b
          then set_source (inside b) (c_source c) :: attach_labels_in inside rest'
          else inside a :: attach_labels_in inside rest
      | _, _ => inside a :: attach_labels_in inside rest
      end
  end.

Fixpoint labelled (o : Node) : Node :=
  descend (attach_labels_in labelled) o.

(** No comment of the sequence is a statement label. *)
Definition no_labels (items : list Node) : bool :=
  forallb (fun x => match x with
                    | Comment c => negb (bool_decide (text c = Some label_text))
                    | _ => true
                    end) items.

End Labels.

(** ** What a pass may drop *)

Module Kept.
Import IR Passes Rewrites.
Local Open Scope list_scope.

(** The nodes of a sequence that are not of the type [t], without what
    the passes attach to them. *)
Definition others (t : NodeType) (items : list Node) : list Node :=
  List.filter (fun x => negb (bool_decide (type_of x = t))) (map bare items).

(** Only nodes of the type [t] are dropped: the other nodes are all
    there, in their order. *)
Definition drops_only (t : NodeType) (out kids : list Node) : Prop :=
  others t out = others t kids.

End Kept.

(** * Properties *)

(** ** Python strings *)

Section PyStrFacts.
Import PyStr Reference.

Lemma len_nonneg s : 0 <= len s.
Proof. unfold len. lia. Qed.

Lemma len_String c s : len (String c s) = len s + 1.
Proof. unfold len. cbn [String.length]. lia. Qed.

Lemma index_0 c s : index (String c s) 0 = Ok c.
Proof.
  unfold index. rewrite len_String. pose proof (len_nonneg s).
  change (0 <? 0) with false. cbn match.
  destruct (0 <? 0) eqn:E0; [lia|]. cbn [orb].
  destruct (len s + 1 <=? 0) eqn:E1; [lia|]. reflexivity.
Qed.

Lemma get_last s :
  s <> EmptyString -> String.get (String.length s - 1) s = last_char s.
Proof.
  induction s as [|c s IH]; [congruence|]. intros _.
  destruct s as [|d s']; [reflexivity|].
  cbn [String.length] in *. replace (S (S (String.length s')) - 1)%nat
    with (S (String.length s')) by lia.
  change (last_char (String c (String d s'))) with (last_char (String d s')).
  rewrite <- IH by congruence.
  replace (S (String.length s') - 1)%nat with (String.length s') by lia.
  reflexivity.
Qed.

Lemma last_char_is_Some s : s <> EmptyString -> is_Some (last_char s).
Proof.
  induction s as [|c s IH]; [congruence|]. intros _.
  destruct s as [|d s']; [eexists; reflexivity|].
  cbn [last_char]. apply IH. congruence.
Qed.

Lemma index_last s c :
  last_char s = Some c -> index s (-1) = Ok c.
Proof.
  intros Hl. assert (Hne : s <> EmptyString) by (intros ->; discriminate).
  unfold index. change (-1 <? 0) with true. cbn match.
  assert (1 <= len s).
  { destruct s; [congruence|]. rewrite len_String. pose proof (len_nonneg s). lia. }
  destruct (-1 + len s <? 0) eqn:E0; [lia|]. cbn [orb].
  destruct (len s <=? -1 + len s) eqn:E1; [lia|].
  replace (Z.to_nat (-1 + len s)) with (String.length s - 1)%nat by (unfold len; lia).
  rewrite get_last by assumption. rewrite Hl. reflexivity.
Qed.

Lemma substring_drop_last s :
  String.substring 0 (String.length s - 1) s = drop_last s.
Proof.
  induction s as [|c s IH]; [reflexivity|].
  destruct s as [|d s']; [reflexivity|].
  cbn [String.length] in *.
  replace (S (S (String.length s')) - 1)%nat with (S (String.length s')) by lia.
  change (drop_last (String c (String d s'))) with (String c (drop_last (String d s'))).
  rewrite <- IH.
  replace (S (String.length s') - 1)%nat with (String.length s') by lia.
  reflexivity.
Qed.

Lemma slice_outer s : slice s 1 (-1) = strip_outer s.
Proof.
  destruct s as [|c s]; [reflexivity|].
  unfold slice, clamp. rewrite len_String. pose proof (len_nonneg s).
  change (1 <? 0) with false. change (-1 <? 0) with true. cbn match.
  rewrite Z.min_l by lia. rewrite Z.max_l by lia.
  change (Z.to_nat 1) with 1%nat. cbn [String.substring strip_outer].
  replace (Z.to_nat (-1 + (len s + 1) - 1)) with (String.length s - 1)%nat
    by (unfold len; lia).
  apply substring_drop_last.
Qed.

Lemma char_in_quotes c : char_in c quotes = is_quote c.
Proof.
  unfold quotes, is_quote. cbn [char_in].
  destruct (Ascii.eqb c dquote), (Ascii.eqb c squote); reflexivity.
Qed.

End PyStrFacts.

(** ** String literals *)

(** C10 (as amended). For every non-empty input whose first and last
  characters are the same quote character (single or double),
  [StringLiteral] stores the input without its two outer characters; every
  other non-empty input is stored unchanged. A one-character input made
  of a single quote yields the empty string. *)
Theorem StringLiteral_strips_outer_quotes (value : string) :
value <> EmptyString ->
Literals.StringLiteral_init value
= Ok (if Reference.outer_quoted value then Reference.strip_outer value else value)
/\ Literals.StringLiteral_init (String PyStr.squote EmptyString) = Ok EmptyString.
Proof.
intros Hne. split; [|reflexivity].
destruct value as [|c s]; [congruence|].
destruct (last_char_is_Some (String c s) Hne) as [l Hl].
unfold Literals.StringLiteral_init.
rewrite index_0. cbn [mbind Result_bind].
rewrite (index_last _ _ Hl). cbn [mbind Result_bind].
unfold Reference.outer_quoted. cbn [Reference.first_char]. rewrite Hl.
rewrite char_in_quotes, slice_outer.
destruct (Ascii.eqb c l); [|reflexivity].
cbn [andb]. destruct (Reference.is_quote c); reflexivity.
Qed.

Lemma StringLiteral_strips_outer_quotes_witness :
Literals.StringLiteral_init "'abc'" = Ok "abc".
Proof.
refine (proj1 (StringLiteral_strips_outer_quotes "'abc'" _)).
discriminate.
Defined.

(** C10, the claim as stated fails on the empty input: it has no first
  character to compare, and the constructor raises instead of storing
  it unchanged. *)
Lemma StringLiteral_empty_raises :
Literals.StringLiteral_init EmptyString = Raise IndexError
/\ Literals.StringLiteral_init EmptyString <> Ok EmptyString.
Proof. split; [reflexivity | discriminate]. Qed.

(** ** Range indices *)

Lemma Literal_is_Literal r v :
Literals.Literal r = Ok v -> is_Literal v = true.
Proof.
unfold Literals.Literal, Literals.from_literal.
destruct r as [z|f|s]; try (intros [= <-]; reflexivity).
destruct (PyStr.in_tuple _ _); [intros [= <-]; reflexivity|].
destruct (Literals.StringLiteral_init s); cbn; [intros [= <-]; reflexivity|discriminate].
Qed.

Lemma Literal_not_RangeIndex v : is_Literal v = true -> is_RangeIndex v = false.
Proof. destruct v; cbn; congruence. Qed.

(** C4 (as amended). When only an upper bound is given and it is not
  itself a [RangeIndex], the call of [RangeIndex] returns the upper bound
  itself if it is an expression node, and the [Literal] made of it
  otherwise (for a number, the literal of that number): an expression
  node that is no [RangeIndex] instance, and that [__init__] has not
  touched. An upper bound that is a [RangeIndex] is handed back as the
  same object, which is an instance. *)
Theorem RangeIndex_upper_only args kwargs (upper : Value) :
Range.args2bounds args kwargs = (None, Some upper, None) ->
(is_RangeIndex upper = false ->
   Range.RangeIndex_call args kwargs
   = match upper with
     | Raw r => Range.Plain <$> Literals.Literal r
     | _ => Ok (Range.Plain upper)
     end
   /\ (is_Expression upper = true ->
       Range.RangeIndex_call args kwargs = Ok (Range.Plain upper))
   /\ (forall z, upper = Raw (PyInt z) ->
       Range.RangeIndex_call args kwargs = Ok (Range.Plain (IntLiteral z None)))
   /\ (forall f, upper = Raw (PyFloat f) ->
       Range.RangeIndex_call args kwargs = Ok (Range.Plain (FloatLiteral f None)))
   /\ (forall o, Range.RangeIndex_call args kwargs = Ok o ->
       Range.is_instance o = false
       /\ exists r, o = Range.Plain r
                    /\ is_Expression r = true
                    /\ (is_Expression upper = false -> is_Literal r = true)))
/\ (is_RangeIndex upper = true ->
    exists o, Range.RangeIndex_call args kwargs = Ok o /\ Range.is_instance o = true).
Proof.
intros Hb. unfold Range.RangeIndex_call, Range.RangeIndex_new, Range.RangeIndex_init,
  Range.returns_upper. rewrite Hb. split.
- intros Hu.
  assert (Hraw : forall r v, Literals.Literal r = Ok v -> is_RangeIndex v = false).
  { intros r v Hr. apply Literal_not_RangeIndex. exact (Literal_is_Literal _ _ Hr). }
  split; [|split; [|split; [|split]]].
  + destruct upper; cbn in Hu |- *; try reflexivity; try discriminate.
    destruct (Literals.Literal r) as [v|e] eqn:Hr; cbn; [|reflexivity].
    rewrite (Hraw _ _ Hr). reflexivity.
  + destruct upper; cbn in Hu |- *; try reflexivity; discriminate.
  + intros z ->. reflexivity.
  + intros f ->. reflexivity.
  + intros o Ho. destruct upper; cbn in Hu, Ho; try discriminate;
      try (injection Ho as <-; split; [reflexivity|]; eexists; split; [reflexivity|];
           split; [reflexivity | discriminate]).
    destruct (Literals.Literal r) as [v|e] eqn:Hr; cbn in Ho; [|discriminate].
    rewrite (Hraw _ _ Hr) in Ho. injection Ho as <-.
    split; [exact (Hraw _ _ Hr)|]. exists v. split; [reflexivity|].
    pose proof (Literal_is_Literal _ _ Hr) as Hl.
    split; [destruct v; cbn in *; congruence | intros _; exact Hl].
- intros Hu. destruct upper; try discriminate. cbn.
  eexists. split; reflexivity.
Qed.

Lemma RangeIndex_upper_only_witness :
Range.RangeIndex_call [Some (Raw (PyInt 5))] Range.no_kwargs
= Ok (Range.Plain (IntLiteral 5 None)).
Proof.
exact (proj1 (proj2 (proj2 (proj1 (RangeIndex_upper_only [Some (Raw (PyInt 5))]
                                      Range.no_kwargs (Raw (PyInt 5)) eq_refl)
                                   eq_refl)))
         5 eq_refl).
Defined.

(** C4, the claim as stated fails when the upper bound is itself a range:
  it is an expression node, so [__new__] hands it back, and the result of
  the call is a [RangeIndex] instance. Being one, it has gone through
  [__init__] with the arguments of the call, which has made it its own
  upper bound. *)
Lemma RangeIndex_upper_only_can_be_range :
let inner := RangeIndex (Some (IntLiteral 1 None)) (Some (IntLiteral 2 None)) None in
Range.args2bounds [Some inner] Range.no_kwargs = (None, Some inner, None)
/\ Range.RangeIndex_new [Some inner] Range.no_kwargs = Ok inner
/\ Range.RangeIndex_call [Some inner] Range.no_kwargs = Ok (Range.OwnUpper None None)
/\ Range.is_instance (Range.OwnUpper None None) = true.
Proof. repeat split. Qed.

(** ** Operator translation *)

Section OperatorFacts.
Import Operators.

Lemma in_tuple_cons s t ts :
  PyStr.in_tuple s (t :: ts) = String.eqb s t || PyStr.in_tuple s ts.
Proof. reflexivity. Qed.

Lemma unrecognised_raises op exprs :
  recognised op = false -> visit_operation op exprs = Raise parse_error.
Proof.
  unfold recognised, symbolic_tokens, mnemonic_tokens.
  rewrite !in_tuple_cons. unfold PyStr.in_tuple, existsb.
  rewrite !orb_false_r. intros H.
  repeat (apply orb_false_elim in H; destruct H as [? H]).
  repeat match goal with
         | H : (_ || _)%bool = false |- _ => apply orb_false_elim in H; destruct H
         end.
  unfold visit_operation.
  repeat match goal with
         | H : String.eqb _ _ = false |- _ => rewrite H; clear H
         end.
  reflexivity.
Qed.

Lemma recognised_never_parse_error op exprs :
  recognised op = true -> visit_operation op exprs <> Raise parse_error.
Proof.
  unfold recognised, symbolic_tokens, mnemonic_tokens.
  rewrite !in_tuple_cons. unfold PyStr.in_tuple, existsb.
  rewrite !orb_false_r. intros H.
  unfold visit_operation.
  repeat match goal with
         | |- context [if ?b then _ else _] =>
             let E := fresh "E" in destruct b eqn:E
         end;
    try (destruct exprs as [|e0 [|e1 rest]]; cbn; discriminate).
  exfalso.
  repeat match goal with
         | H : (_ || _)%bool = false |- _ => apply orb_false_elim in H; destruct H
         end.
  repeat match goal with
         | H : String.eqb _ _ = false |- _ => rewrite H in *; clear H
         end.
  cbn in H. discriminate.
Qed.

Lemma recognised_binary op e0 e1 rest :
  recognised op = true ->
  exists node, visit_operation op (e0 :: e1 :: rest) = Ok node /\ is_Expression node = true.
Proof.
  intros H. pose proof (recognised_never_parse_error op (e0 :: e1 :: rest) H) as Hne.
  unfold visit_operation in *.
  repeat match goal with
         | |- context [if ?b then _ else _] => destruct b
         end; cbn; try (eexists; split; reflexivity).
  congruence.
Qed.

Lemma eqb_symbolic_false op tok m :
  PyStr.lower op = m -> PyStr.lower tok <> m -> String.eqb op tok = false.
Proof. intros H1 H2. apply String.eqb_neq. intros ->. contradiction. Qed.

Lemma mnemonic_same_node op sym exprs :
  symbolic_of (PyStr.lower op) = Some sym ->
  visit_operation op exprs = visit_operation sym exprs.
Proof.
  intros Hs. unfold symbolic_of in Hs.
  repeat match type of Hs with
         | (if String.eqb ?a ?m then _ else _) = _ =>
             let E := fresh "E" in
             destruct (String.eqb a m) eqn:E;
             [ apply String.eqb_eq in E; injection Hs as <- | ]
         end; try discriminate.
  all: match goal with
       | H : PyStr.lower ?o = _ |- _ =>
           unfold visit_operation; rewrite H;
           rewrite !(eqb_symbolic_false o _ _ H) by (vm_compute; discriminate)
       end.
  all: reflexivity.
Qed.

End OperatorFacts.

(** C6. Operator translation handles exactly the listed tokens: the
  arithmetic ones, the logical ones and the relational ones in symbolic
  and in mnemonic spelling (the latter in any letter case). A mnemonic
  relational operator gives the same result as its symbolic spelling, and
  every other token raises the translation error. *)
Theorem visit_operation_dispatch (op : string) (exprs : list Value) :
(Operators.visit_operation op exprs = Raise Operators.parse_error
 <-> Operators.recognised op = false)
/\ (Operators.recognised op = true ->
    forall e0 e1 rest, exists node,
      Operators.visit_operation op (e0 :: e1 :: rest) = Ok node
      /\ is_Expression node = true)
/\ (forall sym, Operators.symbolic_of (PyStr.lower op) = Some sym ->
      Operators.visit_operation op exprs = Operators.visit_operation sym exprs)
/\ Operators.visit_operation ".EQ." exprs = Operators.visit_operation "==" exprs
/\ Operators.visit_operation ".ne." exprs = Operators.visit_operation "/=" exprs
/\ (forall l r, Operators.visit_operation ".EQ." [l; r] = Ok (Comparison l "==" r)).
Proof.
repeat split.
- intros H. destruct (Operators.recognised op) eqn:E; [|reflexivity].
  exfalso. exact (recognised_never_parse_error op exprs E H).
- apply unrecognised_raises.
- intros H e0 e1 rest. apply recognised_binary. exact H.
- intros sym. apply mnemonic_same_node.
Qed.

Lemma visit_operation_dispatch_witness :
exists node,
  Operators.visit_operation ".Le." [Raw (PyInt 1); Raw (PyInt 2)] = Ok node
  /\ is_Expression node = true.
Proof.
exact (proj1 (proj2 (visit_operation_dispatch ".Le." []))
         eq_refl (Raw (PyInt 1)) (Raw (PyInt 2)) []).
Defined.

(** ** Kernel code generation *)

Section MaxjFacts.
Import Types Maxj Reference.

Variable stringify : Value -> string.
Variable maxjsymgen : Value -> string.

Lemma in_tuple_singleton s t : PyStr.in_tuple s [t] = String.eqb s t.
Proof. unfold PyStr.in_tuple, existsb. apply orb_false_r. Qed.

Lemma append_cons x (a b : string) : String x a ++ b = String x (a ++ b).
Proof. reflexivity. Qed.

Lemma append_nil (b : string) : EmptyString ++ b = b.
Proof. reflexivity. Qed.

Lemma append_assoc (a b c : string) : (a ++ b) ++ c = a ++ (b ++ c).
Proof.
  induction a as [|x a IH]; [reflexivity|].
  rewrite !append_cons. f_equal. exact IH.
Qed.

Lemma append_length (a b : string) :
  String.length (a ++ b) = (String.length a + String.length b)%nat.
Proof.
  induction a as [|x a IH]; [reflexivity|].
  rewrite append_cons. cbn [String.length]. rewrite IH. reflexivity.
Qed.





End MaxjFacts.

(** C7 (as amended). For a REAL type, the stream type of the kernel
  dialect is [dfeFloat(8, 24)] exactly when the kind tag prints as
  [real32] in this very spelling, and [dfeFloat(11, 53)] for every other
  kind tag and when there is none. A type that gets [dfeFloat(8, 24)]
  therefore has a kind tag of 32-bit precision, while such a tag in
  another spelling gets the double type. LOGICAL gives [dfeBool()] and
  INTEGER gives [dfeInt(32)]. *)
Theorem maxj_dfevar_type_mapping (stringify : Value -> string) (T : Types.SymbolType) :
(Types.dtype T = REAL ->
   (Maxj.maxj_dfevar_type stringify T = Ok "dfeFloat(8, 24)"
    <-> Reference.spelled_real32 stringify (Types.kind T))
   /\ (Maxj.maxj_dfevar_type stringify T = Ok "dfeFloat(11, 53)"
       <-> ~ Reference.spelled_real32 stringify (Types.kind T))
   /\ (Types.kind T = None ->
       Maxj.maxj_dfevar_type stringify T = Ok "dfeFloat(11, 53)")
   /\ (Maxj.maxj_dfevar_type stringify T = Ok "dfeFloat(8, 24)" ->
       Reference.denotes_32bit stringify (Types.kind T) = true)
   /\ (Reference.denotes_32bit stringify (Types.kind T) = true ->
       ~ Reference.spelled_real32 stringify (Types.kind T) ->
       Maxj.maxj_dfevar_type stringify T = Ok "dfeFloat(11, 53)"))
/\ (Types.dtype T = LOGICAL -> Maxj.maxj_dfevar_type stringify T = Ok "dfeBool()")
/\ (Types.dtype T = INTEGER -> Maxj.maxj_dfevar_type stringify T = Ok "dfeInt(32)").
Proof.
unfold Maxj.maxj_dfevar_type, Reference.spelled_real32, Reference.denotes_32bit.
split; [|split]; intros H; rewrite H; try reflexivity.
rewrite in_tuple_singleton.
destruct (String.eqb_spec (py_str_opt stringify (Types.kind T)) "real32") as [E|E].
- split; [tauto|]. split; [split; [discriminate | contradiction]|].
  split; [intros HN; rewrite HN in E; discriminate E|].
  split; [intros _; rewrite E; reflexivity | contradiction].
- split; [split; [discriminate | contradiction]|]. split; [tauto|].
  split; [reflexivity|]. split; [discriminate | reflexivity].
Qed.

Lemma maxj_dfevar_type_mapping_witness :
let T := Symbols.with_parent (Types.SymbolType_new REAL) None in
let T32 := Types.mkSymbolType REAL (Some (Raw (PyStr "real32"))) None
                              false false false false false false
                              None None None None None true false in
Maxj.maxj_dfevar_type (fun _ => "") T32 = Ok "dfeFloat(8, 24)"
/\ Maxj.maxj_dfevar_type (fun _ => "") T = Ok "dfeFloat(11, 53)".
Proof.
intros T T32. split.
- exact (proj2 (proj1 (proj1 (maxj_dfevar_type_mapping (fun _ => "") T32) eq_refl))
           eq_refl).
- exact (proj1 (proj2 (proj2 (proj1 (maxj_dfevar_type_mapping (fun _ => "") T) eq_refl)))
           eq_refl).
Defined.

(** C7, the claim as stated fails for a kind tag of 32-bit precision
  that is not written [real32]: the front end keeps the spelling of the
  source, so a declaration [REAL(KIND=REAL32)] has the kind tag [REAL32],
  and the type gets the double stream type. *)
Lemma maxj_dfevar_type_other_spelling :
let T := Types.mkSymbolType REAL (Some (Raw (PyStr "REAL32"))) None
                            false false false false false false
                            None None None None None true false in
Reference.denotes_32bit (fun _ => "") (Types.kind T) = true
/\ Maxj.maxj_dfevar_type (fun _ => "") T = Ok "dfeFloat(11, 53)"
/\ Maxj.maxj_dfevar_type (fun _ => "") T <> Ok "dfeFloat(8, 24)".
Proof. intros T. split; [reflexivity|]. split; [reflexivity | discriminate]. Qed.



(** ** Qualified names *)

Section QualifiedNames.
Import PyStr Reference.

Lemma rfind_from_absent c s pos found :
  char_in c s = false -> rfind_from c s pos found = found.
Proof.
  revert pos found. induction s as [|d s IH]; intros pos found; [reflexivity|].
  cbn [char_in rfind_from]. destruct (Ascii.eqb c d); [discriminate|]. apply IH.
Qed.

Lemma rfind_from_last c p f pos found :
  char_in c f = false ->
  rfind_from c (p ++ String c f) pos found = pos + len p.
Proof.
  intros Hf. revert pos found. induction p as [|d p IH]; intros pos found.
  - rewrite append_nil. cbn [rfind_from]. rewrite Ascii.eqb_refl.
    rewrite (rfind_from_absent _ _ _ _ Hf). unfold len. cbn. lia.
  - rewrite append_cons. cbn [rfind_from]. rewrite IH, len_String. lia.
Qed.

Lemma substring_all s : String.substring 0 (String.length s) s = s.
Proof. induction s as [|c s IH]; [reflexivity|]. cbn. rewrite IH. reflexivity. Qed.

Lemma substring_skip p s n :
  String.substring (String.length p) n (p ++ s) = String.substring 0 n s.
Proof.
  induction p as [|c p IH]; [reflexivity|].
  rewrite append_cons. cbn [String.length String.substring]. exact IH.
Qed.

Lemma slice_from_tail p s :
  slice_from (p ++ s) (len p) = s.
Proof.
  unfold slice_from, slice, clamp, len. rewrite append_length.
  rewrite (proj2 (Z.ltb_ge (Z.of_nat (String.length p)) 0)) by lia.
  rewrite (proj2 (Z.ltb_ge (Z.of_nat (String.length p + String.length s)) 0)) by lia.
  rewrite !Z.min_l by lia. rewrite Nat2Z.id.
  replace (Z.to_nat (Z.of_nat (String.length p + String.length s)
                     - Z.of_nat (String.length p)))
    with (String.length s) by lia.
  rewrite substring_skip. apply substring_all.
Qed.

Lemma lower_append (a b : string) : lower (a ++ b) = lower a ++ lower b.
Proof.
  induction a as [|x a IH]; [reflexivity|].
  rewrite append_cons. cbn [lower]. rewrite append_cons, IH. reflexivity.
Qed.






End QualifiedNames.

(** ** Scopes, symbol tables and variables *)

Section SymbolFacts.
Import Types Symbols Reference.

Lemma length_lower s : String.length (PyStr.lower s) = String.length s.
Proof. induction s as [|c s IH]; cbn; [reflexivity|]. now rewrite IH. Qed.

Lemma getitem_define_eq st sc name t :
  getitem (define st sc name t) sc name = Some t.
Proof. unfold getitem, define. cbn. apply lookup_insert_eq. Qed.

Lemma getitem_define_ne st sc name t sc' name' :
  (sc, format_lookup_name name) ≠ (sc', format_lookup_name name') ->
  getitem (define st sc name t) sc' name' = getitem st sc' name'.
Proof. intros H. unfold getitem, define. cbn. now apply lookup_insert_ne. Qed.

Lemma lookup_define fuel st sc name t recursive :
  lookup (S fuel) (define st sc name t) sc name recursive = Ok (Some t).
Proof. cbn [lookup]. now rewrite getitem_define_eq. Qed.

Lemma frame_refl nd sc name ok st : frame nd sc name ok st st.
Proof. constructor; auto. Qed.

Lemma frame_trans nd sc name ok st1 st2 st3 :
  wf st2 ->
  frame nd sc name ok st1 st2 -> frame nd sc name ok st2 st3 ->
  frame nd sc name ok st1 st3.
Proof.
  intros [W _] [A1 A2 A3 A4 A5 A6] [B1 B2 B3 B4 B5 B6]. constructor.
  - lia.
  - lia.
  - intros l Hl. rewrite B3, A3; auto. lia.
  - intros d Hd. rewrite B4, A4; auto.
  - congruence.
  - intros key. destruct (B6 key) as [E|H]; [|right; exact H].
    rewrite E. destruct (A6 key) as [E'|(E1 & E2 & l & E3 & E4 & E5)]; [left; exact E'|].
    right. repeat split; auto. exists l. repeat split; auto.
    rewrite B3; auto.
Qed.

Lemma frame_weaken nd sc name (ok : type_id -> Prop) nd' name' (ok' : type_id -> Prop)
      st st' :
  (nd <= nd')%nat ->
  (forall k, own_key name' k -> own_key name k) ->
  (forall l, ok' l -> ok l) ->
  frame nd' sc name' ok' st st' -> frame nd sc name ok st st'.
Proof.
  intros Hnd Hk Hok [A1 A2 A3 A4 A5 A6]. constructor; auto.
  - intros d Hd. apply A4. lia.
  - intros key. destruct (A6 key) as [E|(E1 & E2 & l & E3 & E4 & E5)]; [left; exact E|].
    right. repeat split; auto. exists l. auto.
Qed.

Lemma frame_alloc_type nd sc name ok st T :
  frame nd sc name ok st (alloc_type st T).2.
Proof.
  constructor; cbn; auto.
  intros l Hl. apply lookup_insert_ne. lia.
Qed.

Lemma frame_alloc_dict nd sc name ok st :
  (nd <= next_dict st)%nat ->
  frame nd sc name ok st (alloc_dict st).2.
Proof.
  intros H. constructor; cbn; auto.
  intros l Hl. apply lookup_insert_ne. lia.
Qed.

Lemma frame_define nd sc name (ok : type_id -> Prop) st t :
  ok t -> is_Some (types st !! t) -> frame nd sc name ok st (define st sc name t).
Proof.
  intros H Ht. constructor; cbn; auto.
  intros key. destruct (decide (key = (sc, format_lookup_name name))) as [->|Hne].
  - right. cbn. repeat split; [left; reflexivity|].
    exists t. repeat split; [apply lookup_insert_eq | exact H | exact Ht].
  - left. apply lookup_insert_ne. congruence.
Qed.

Lemma wf_alloc_type st T : wf st -> wf (alloc_type st T).2.
Proof.
  intros [Ht Hd]. split; cbn; [|exact Hd].
  intros l. destruct (decide (l = next_type st)) as [->|Hne]; [lia|].
  rewrite lookup_insert_ne by congruence. intros H. specialize (Ht l H). lia.
Qed.

Lemma wf_alloc_dict st : wf st -> wf (alloc_dict st).2.
Proof.
  intros [Ht Hd]. split; cbn; [exact Ht|].
  intros d. destruct (decide (d = next_dict st)) as [->|Hne]; [lia|].
  rewrite lookup_insert_ne by congruence. intros H. specialize (Hd d H). lia.
Qed.

Lemma wf_define st sc name t : wf st -> wf (define st sc name t).
Proof. intros [Ht Hd]. split; cbn; auto. Qed.

Lemma wf_dict_update st d flds :
  is_Some (dicts st !! d) -> wf st -> wf (with_dicts st (<[d := flds]> (dicts st))).
Proof.
  intros Hin [Ht Hd]. split; cbn; [exact Ht|].
  intros d0. destruct (decide (d0 = d)) as [->|Hne]; [intros _; auto|].
  rewrite lookup_insert_ne by congruence. auto.
Qed.

Lemma clone_inv st l f l' st' :
  clone st l f = Ok (l', st') ->
  exists T, types st !! l = Some T /\ l' = next_type st /\ st' = (alloc_type st (f T)).2.
Proof.
  unfold clone, deref. destruct (types st !! l) as [T|]; cbn; [|discriminate].
  intros [= <- <-]. eauto.
Qed.

Lemma dict_set_inv st d k v st' :
  dict_set st d k v = Ok st' ->
  exists flds, dicts st !! d = Some flds
               /\ st' = with_dicts st (<[d := odict_set flds k v]> (dicts st)).
Proof.
  unfold dict_set, deref_dict. destruct (dicts st !! d) as [flds|]; cbn; [|discriminate].
  intros [= <-]. eauto.
Qed.

Lemma frame_dict_update nd sc name ok st d flds :
  (nd <= d)%nat ->
  frame nd sc name ok st (with_dicts st (<[d := flds]> (dicts st))).
Proof.
  intros H. constructor; cbn; auto.
  intros d0 Hd. apply lookup_insert_ne. lia.
Qed.

Lemma getitem_alloc_type st T sc name :
  getitem (alloc_type st T).2 sc name = getitem st sc name.
Proof. reflexivity. Qed.

Lemma init_type_spec st sc name type :
  wf st ->
  (forall t, type = Some t -> is_Some (types st !! t)) ->
  let st1 := init_type st sc name type in
  wf st1
  /\ frame (next_dict st) sc name
           (fun l => (next_type st <= l)%nat \/ type = Some l) st st1
  /\ exists l, getitem st1 sc name = Some l
               /\ ((((next_type st <= l)%nat \/ type = Some l)
                    /\ is_Some (types st1 !! l))
                   \/ (type = None /\ getitem st sc name = Some l)).
Proof.
  intros Hwf Hty. unfold init_type. destruct type as [t|]; cbn zeta.
  - split; [apply wf_define; exact Hwf|]. split.
    + apply frame_define; [right; reflexivity | auto].
    + exists t. split; [apply getitem_define_eq|]. left. split; [right; reflexivity|].
      cbn. auto.
  - change (alloc_type st (SymbolType_new DEFERRED))
      with (next_type st, (alloc_type st (SymbolType_new DEFERRED)).2).
    cbn iota. unfold setdefault. rewrite getitem_alloc_type.
    destruct (getitem st sc name) as [l|] eqn:E.
    + split; [apply wf_alloc_type; exact Hwf|]. split.
      * apply frame_alloc_type.
      * exists l. split; [exact E|]. right. split; reflexivity.
    + split; [apply wf_define, wf_alloc_type; exact Hwf|]. split.
      * eapply frame_trans; [apply wf_alloc_type; exact Hwf | apply frame_alloc_type|].
        apply frame_define; [left; cbn; lia|]. cbn. rewrite lookup_insert_eq. eauto.
      * exists (next_type st). split; [apply getitem_define_eq|].
        left. split; [left; lia|]. cbn. rewrite lookup_insert_eq. eauto.
Qed.

Lemma resolve_shape_type st a shape l :
  resolve_shape st a = Ok shape -> resolve_type st a = Some l ->
  is_Some (types st !! l).
Proof.
  unfold resolve_shape. intros H E. rewrite E in H. unfold deref in H.
  destruct (types st !! l); [eauto | discriminate].
Qed.

Lemma construct_spec st a obj st1 :
  wf st -> construct st a = Ok (obj, st1) ->
  wf st1
  /\ (exists shape,
        resolve_shape st a = Ok shape
        /\ obj = if scalar_test (a_dimensions a) shape
                 then Scalar (a_name a) (a_scope a) (a_parent a) (a_initial a)
                 else Array (a_name a) (a_scope a) (a_parent a) (a_dimensions a)
                            (a_initial a))
  /\ var_name obj = Ok (a_name a)
  /\ var_scope obj = Ok (a_scope a)
  /\ frame (next_dict st) (a_scope a) (a_name a) (bound_ok st a) st st1
  /\ exists l, getitem st1 (a_scope a) (a_name a) = Some l
               /\ ((bound_ok st a l /\ is_Some (types st1 !! l))
                   \/ (resolve_type st a = None
                       /\ getitem st (a_scope a) (a_name a) = Some l)).
Proof.
  intros Hwf. unfold construct.
  destruct (resolve_shape st a) as [shape|e] eqn:Hs; cbn; [|discriminate].
  pose proof (init_type_spec st (a_scope a) (a_name a) (resolve_type st a) Hwf
                (fun t => resolve_shape_type st a shape t Hs))
    as (W & F & B).
  unfold Scalar_init, Array_init.
  destruct (scalar_test (a_dimensions a) shape) eqn:Ht; intros [= <- <-].
  all: split; [exact W|]; split;
    [exists shape; rewrite Ht; split; reflexivity|];
    split; [reflexivity|]; split; [reflexivity|]; split; [exact F | exact B].
Qed.

Lemma bind_Ok {A B} (m : Result A) (f : A -> Result B) (b : B) :
  m ≫= f = Ok b -> exists a, m = Ok a /\ f a = Ok b.
Proof. destruct m as [a|e]; cbn; [eauto | discriminate]. Qed.

Lemma length_append (a b : string) :
  String.length (a ++ b) = (String.length a + String.length b)%nat.
Proof.
  induction a as [|x a IH]; [reflexivity|].
  change (String x a ++ b) with (String x (a ++ b)).
  cbn [String.length]. rewrite IH. reflexivity.
Qed.

Lemma lookup_name_field n b :
  format_lookup_name (n ++ "%" ++ b)
  = format_lookup_name n ++ "%" ++ format_lookup_name b.
Proof. unfold format_lookup_name. rewrite !lower_append. reflexivity. Qed.

Lemma own_key_field n b k : own_key (n ++ "%" ++ b) k -> own_key n k.
Proof.
  unfold own_key. rewrite lookup_name_field.
  intros [->|[rest ->]]; right.
  - eexists. reflexivity.
  - exists (format_lookup_name b ++ "%" ++ rest). rewrite !append_assoc. reflexivity.
Qed.

Lemma not_own_key_self n b : ~ own_key (n ++ "%" ++ b) (format_lookup_name n).
Proof.
  unfold own_key. rewrite lookup_name_field.
  intros [H|[rest H]]; apply (f_equal String.length) in H;
    rewrite !append_length in H; cbn [String.length] in H; lia.
Qed.





Lemma get_type_var st v n sc :
  var_name v = Ok n -> var_scope v = Ok sc -> get_type st v = Ok (getitem st sc n).
Proof. unfold get_type. intros -> ->. reflexivity. Qed.

Lemma get_type_inv st v r :
  get_type st v = Ok r ->
  exists n sc, var_name v = Ok n /\ var_scope v = Ok sc /\ r = getitem st sc n.
Proof.
  unfold get_type. destruct (var_name v) as [n|]; cbn; [|discriminate].
  destruct (var_scope v) as [sc|]; cbn; [|discriminate].
  intros [= <-]. eauto.
Qed.

(** A frame keeps what a variable outside the constructor's own keys is
    bound to, and produces only bindings to live type objects. *)
Lemma frame_getitem nd sc name ok st st' sc0 n0 :
  frame nd sc name ok st st' ->
  getitem st' sc0 n0 = getitem st sc0 n0
  \/ (sc0 = sc /\ own_key name (format_lookup_name n0)
      /\ exists l, getitem st' sc0 n0 = Some l /\ ok l /\ is_Some (types st' !! l)).
Proof. intros F. apply (fr_symbols _ _ _ _ _ _ F (sc0, format_lookup_name n0)). Qed.

Lemma var_scope_name v s : var_scope v = Ok s -> exists vn, var_name v = Ok vn.
Proof. destruct v; cbn; try discriminate; eauto. Qed.

(** A variable of another scope reads the same binding after a frame. *)
Lemma frame_other_scope nd sc name ok st st' v s :
  frame nd sc name ok st st' -> var_scope v = Ok s -> s <> sc ->
  get_type st' v = get_type st v.
Proof.
  intros F Hs Hne. destruct (var_scope_name _ _ Hs) as [vn Hvn].
  rewrite !(get_type_var _ _ _ _ Hvn Hs).
  destruct (frame_getitem _ _ _ _ _ _ s vn F) as [E|(E & _)]; [|contradiction].
  rewrite E. reflexivity.
Qed.

(** What a variable of another scope reads, object and content, is the
    same after a frame. *)
Lemma typed_frame nd sc name ok st st' v s lv Tv :
  wf st -> frame nd sc name ok st st' -> var_scope v = Ok s -> s <> sc ->
  typed st v lv Tv -> typed st' v lv Tv.
Proof.
  intros [W _] F Hs Hne [Hg HT]. split.
  - rewrite (frame_other_scope _ _ _ _ _ _ _ _ F Hs Hne). exact Hg.
  - rewrite (fr_types _ _ _ _ _ _ F); [exact HT|]. apply W. eauto.
Qed.




(** The call that makes one field, seen from the instance: the instance
    keeps its binding and its field dictionary. *)
Lemma field_call_frame new n sc nt nd l' T' d' st T0 b fv stB :
  new_spec new -> loop_base st nt nd sc n l' T' d' ->
  new (alloc_type st T0).2
      (mkVarArgs (n ++ "%" ++ b) sc None None (Some (Some (next_type st))) None)
  = Ok (fv, stB) ->
  wf stB
  /\ frame nd sc (n ++ "%" ++ b) (fun l => (nt <= l)%nat) st stB
  /\ getitem stB sc n = Some l'
  /\ types stB !! l' = Some T'
  /\ dicts stB !! d' = dicts st !! d'.
Proof.
  intros Hnew (W & Hb & Hnt & Hnd & HT & Hv & Hd) Hnw.
  assert (Hl'lt : (l' < next_type st)%nat) by (apply W; eauto).
  assert (Hd'lt : (d' < next_dict st)%nat) by (apply W; exact Hd).
  set (stA := (alloc_type st T0).2) in *.
  assert (WA : wf stA) by (apply wf_alloc_type; exact W).
  destruct (Hnew _ _ _ _ WA Hnw) as (WB & _ & _ & F & _).
  cbn [a_name a_scope] in F.
  assert (FAB : frame nd sc (n ++ "%" ++ b) (fun l => (nt <= l)%nat) stA stB).
  { eapply frame_weaken; [| | |exact F].
    - cbn. lia.
    - auto.
    - intros l [Hge|Hre]; cbn in *; [lia|]. injection Hre as <-. lia. }
  split; [exact WB|]. split.
  { eapply frame_trans; [exact WA|apply frame_alloc_type|exact FAB]. }
  split.
  { destruct (frame_getitem _ _ _ _ _ _ sc n F) as [E|(_ & Hown & _)].
    - rewrite E. exact Hb.
    - exfalso. exact (not_own_key_self _ _ Hown). }
  split.
  { rewrite (fr_types _ _ _ _ _ _ F) by (cbn; lia). cbn.
    rewrite lookup_insert_ne by lia. exact HT. }
  rewrite (fr_dicts _ _ _ _ _ _ F) by (cbn; lia). reflexivity.
Qed.

(** The steps of one round of the loop that returns. *)
Lemma instantiate_field_inv new obj n sc nt nd l' T' d' st k v st' :
  new_spec new -> var_name obj = Ok n -> var_scope obj = Ok sc ->
  loop_base st nt nd sc n l' T' d' ->
  instantiate_field new obj st (k, v) = Ok st' ->
  exists lv Tv vn fv stB cur,
    typed st v lv Tv /\ var_name v = Ok vn
    /\ new (alloc_type st (with_parent Tv (Some obj))).2
           (mkVarArgs (n ++ "%" ++ basename vn) sc None None
                      (Some (Some (next_type st))) None)
       = Ok (fv, stB)
    /\ dicts stB !! d' = Some cur
    /\ st' = with_dicts stB (<[d' := odict_set cur k fv]> (dicts stB)).
Proof.
  intros Hnew Hn Hsc Hbase H.
  pose proof Hbase as (W & Hb & Hnt & Hnd & HT & Hv & [cur Hcur]).
  unfold instantiate_field in H.
  apply bind_Ok in H as ([lv|] & Hgv & H); [|discriminate].
  apply bind_Ok in H as ([vtype stA] & Hc & H).
  apply clone_inv in Hc as (Tv & HTv & -> & ->).
  rewrite Hn in H. cbn [mbind Result_bind] in H.
  apply bind_Ok in H as (vn & Hvn & H).
  rewrite Hsc in H. cbn [mbind Result_bind] in H.
  apply bind_Ok in H as ([fv stB] & Hnw & H).
  destruct (field_call_frame _ _ _ _ _ _ _ _ _ _ _ _ _ Hnew Hbase Hnw)
    as (WB & F & HbB & HTB & HdB).
  rewrite (get_type_var _ _ _ _ Hn Hsc), HbB in H. cbn [mbind Result_bind] in H.
  unfold deref in H. rewrite HTB in H. cbn [mbind Result_bind] in H.
  rewrite Hv in H.
  apply dict_set_inv in H as (cur' & Hcur' & ->).
  exists lv, Tv, vn, fv, stB, cur'.
  split; [split; assumption|]. split; [exact Hvn|]. split; [exact Hnw|].
  split; [exact Hcur' | reflexivity].
Qed.

(** One round of the loop keeps the instance as it is. *)
Lemma instantiate_field_base new obj n sc nt nd l' T' d' st k v st' :
  new_spec new -> var_name obj = Ok n -> var_scope obj = Ok sc ->
  loop_base st nt nd sc n l' T' d' ->
  instantiate_field new obj st (k, v) = Ok st' ->
  frame nd sc n (fun l => (nt <= l)%nat) st st'
  /\ loop_base st' nt nd sc n l' T' d'.
Proof.
  intros Hnew Hn Hsc Hbase H.
  destruct (instantiate_field_inv _ _ _ _ _ _ _ _ _ _ _ _ _ Hnew Hn Hsc Hbase H)
    as (lv & Tv & vn & fv & stB & cur & _ & _ & Hnw & Hcur & ->).
  destruct (field_call_frame _ _ _ _ _ _ _ _ _ _ _ _ _ Hnew Hbase Hnw)
    as (WB & F & HbB & HTB & HdB).
  destruct Hbase as (W & Hb & Hnt & Hnd & HT & Hv & Hd).
  split.
  - eapply frame_trans; [exact WB| |apply frame_dict_update; exact Hnd].
    eapply frame_weaken; [| | |exact F]; auto. intros k0. apply own_key_field.
  - split; [apply wf_dict_update; [eauto | exact WB]|].
    split; [exact HbB|]. split; [exact Hnt|]. split; [exact Hnd|].
    split; [exact HTB|]. split; [exact Hv|].
    cbn. rewrite lookup_insert_eq. eauto.
Qed.

(** One round of the loop returns as soon as the field reads a type and
    the call that makes the new field returns. *)
Lemma instantiate_field_returns new obj n sc nt nd l' T' d' st k v lv Tv vn :
  new_spec new -> var_name obj = Ok n -> var_scope obj = Ok sc ->
  loop_base st nt nd sc n l' T' d' ->
  typed st v lv Tv -> var_name v = Ok vn ->
  (exists r, new (alloc_type st (with_parent Tv (Some obj))).2
                 (mkVarArgs (n ++ "%" ++ basename vn) sc None None
                            (Some (Some (next_type st))) None) = Ok r) ->
  exists st', instantiate_field new obj st (k, v) = Ok st'.
Proof.
  intros Hnew Hn Hsc Hbase [Hg HTv] Hvn [[fv stB] Hnw].
  destruct (field_call_frame _ _ _ _ _ _ _ _ _ _ _ _ _ Hnew Hbase Hnw)
    as (WB & F & HbB & HTB & HdB).
  destruct Hbase as (W & Hb & Hnt & Hnd & HT & Hv & [cur Hd]).
  unfold instantiate_field. rewrite Hg. cbn [mbind Result_bind].
  unfold clone, deref. rewrite HTv. cbn [mbind Result_bind].
  change (alloc_type st (with_parent Tv (Some obj)))
    with (next_type st, (alloc_type st (with_parent Tv (Some obj))).2).
  cbn iota. rewrite Hn. cbn [mbind Result_bind]. rewrite Hvn. cbn [mbind Result_bind].
  rewrite Hsc. cbn [mbind Result_bind]. rewrite Hnw. cbn [mbind Result_bind].
  rewrite (get_type_var _ _ _ _ Hn Hsc), HbB. cbn [mbind Result_bind].
  rewrite HTB. cbn [mbind Result_bind]. rewrite Hv.
  unfold dict_set, deref_dict. rewrite HdB, Hd. cbn [mbind Result_bind]. eauto.
Qed.

(** The loop over the fields keeps the instance as it is. *)
Lemma instantiate_fields_base new obj n sc nt nd l' T' d' :
  new_spec new -> var_name obj = Ok n -> var_scope obj = Ok sc ->
  forall flds st st',
    loop_base st nt nd sc n l' T' d' ->
    foldM (instantiate_field new obj) flds st = Ok st' ->
    frame nd sc n (fun l => (nt <= l)%nat) st st'
    /\ loop_base st' nt nd sc n l' T' d'.
Proof.
  intros Hnew Hn Hsc flds. induction flds as [|[k v] rest IH]; intros st st' Hinv H.
  - cbn in H. injection H as <-. split; [apply frame_refl | exact Hinv].
  - cbn [foldM] in H. apply bind_Ok in H as (st1 & H1 & H).
    destruct (instantiate_field_base _ _ _ _ _ _ _ _ _ _ _ _ _ Hnew Hn Hsc Hinv H1)
      as (F1 & Hinv1).
    destruct (IH _ _ Hinv1 H) as (F2 & Hinv2).
    split; [|exact Hinv2].
    eapply frame_trans; [|exact F1|exact F2]. apply Hinv1.
Qed.

(** The run of [instantiate_derived_type_variables] up to its loop. *)
Lemma instantiate_unfold new st obj n sc l T d k0 first rest s0 :
  var_name obj = Ok n -> var_scope obj = Ok sc ->
  getitem st sc n = Some l -> types st !! l = Some T ->
  dtype T = DERIVED_TYPE -> variables T = Some d ->
  dicts st !! d = Some ((k0, first) :: rest) ->
  var_scope first = Ok s0 -> s0 <> sc ->
  instantiate_derived_type_variables new st obj
  = (st5 ← foldM (instantiate_field new obj) ((k0, first) :: rest) (loop_start st sc n T);
     Ok (obj, st5)).
Proof.
  intros Hn Hsc Hb HT Hdt Hv Hd Hs0 Hne.
  unfold instantiate_derived_type_variables.
  rewrite (get_type_var _ _ _ _ Hn Hsc), Hb. cbn [mbind Result_bind].
  unfold deref. rewrite HT. cbn [mbind Result_bind].
  destruct (decide (dtype T = DERIVED_TYPE)); [|contradiction].
  rewrite Hv. unfold deref_dict. rewrite Hd.
  cbn [mbind Result_bind]. rewrite Hs0, Hsc. cbn [mbind Result_bind].
  destruct (decide (s0 <> sc)); [|contradiction].
  change (alloc_dict st) with (next_dict st, (alloc_dict st).2). cbn iota.
  unfold clone, deref.
  change (types (alloc_dict st).2) with (types st). rewrite HT.
  cbn [mbind Result_bind].
  change (alloc_type (alloc_dict st).2 (with_variables T (Some (next_dict st))))
    with (next_type st,
          (alloc_type (alloc_dict st).2 (with_variables T (Some (next_dict st)))).2).
  cbn iota. unfold set_type. rewrite Hn, Hsc. cbn [mbind Result_bind].
  reflexivity.
Qed.

Lemma loop_start_base st sc n T :
  wf st ->
  wf (loop_start st sc n T)
  /\ frame (next_dict st) sc n (fun l => (next_type st <= l)%nat) st (loop_start st sc n T)
  /\ loop_base (loop_start st sc n T) (next_type st) (next_dict st) sc n
               (next_type st) (with_variables T (Some (next_dict st))) (next_dict st)
  /\ dicts (loop_start st sc n T) !! next_dict st = Some [].
Proof.
  intros W. unfold loop_start.
  set (st2 := (alloc_dict st).2).
  set (T' := with_variables T (Some (next_dict st))).
  set (st3 := (alloc_type st2 T').2).
  assert (W2 : wf st2) by (apply wf_alloc_dict; exact W).
  assert (W3 : wf st3) by (apply wf_alloc_type; exact W2).
  assert (W4 : wf (define st3 sc n (next_type st))) by (apply wf_define; exact W3).
  assert (HT4 : types (define st3 sc n (next_type st)) !! next_type st = Some T')
    by (cbn; apply lookup_insert_eq).
  assert (Hd4 : dicts (define st3 sc n (next_type st)) !! next_dict st = Some [])
    by (cbn; apply lookup_insert_eq).
  split; [exact W4|]. split.
  { eapply frame_trans; [exact W3| |apply frame_define; [cbn; lia | eauto]].
    eapply frame_trans; [exact W2|apply frame_alloc_dict; lia|apply frame_alloc_type]. }
  split; [|exact Hd4].
  split; [exact W4|]. split; [apply getitem_define_eq|].
  split; [lia|]. split; [lia|]. split; [exact HT4|]. split; [reflexivity|]. eauto.
Qed.

Lemma instantiate_spec new st obj n sc o st' :
  new_spec new -> wf st -> var_name obj = Ok n -> var_scope obj = Ok sc ->
  instantiate_derived_type_variables new st obj = Ok (o, st') ->
  o = obj /\ wf st'
  /\ frame (next_dict st) sc n (fun l => (next_type st <= l)%nat) st st'
  /\ ((st' = st /\ forall l, getitem st sc n = Some l -> is_Some (types st !! l))
      \/ exists l0 T0 d',
           getitem st sc n = Some l0 /\ types st !! l0 = Some T0
           /\ dtype T0 = DERIVED_TYPE
           /\ getitem st' sc n = Some (next_type st)
           /\ (next_dict st <= d')%nat
           /\ types st' !! next_type st = Some (with_variables T0 (Some d'))).
Proof.
  intros Hnew W Hn Hsc H. pose proof H as Hrun.
  unfold instantiate_derived_type_variables in H.
  rewrite (get_type_var _ _ _ _ Hn Hsc) in H. cbn [mbind Result_bind] in H.
  assert (Hskip : forall l, getitem st sc n = Some l -> is_Some (types st !! l) ->
                  Ok (obj, st) = Ok (o, st') ->
                  o = obj /\ wf st'
                  /\ frame (next_dict st) sc n (fun l => (next_type st <= l)%nat) st st'
                  /\ ((st' = st /\ forall l, getitem st sc n = Some l ->
                                             is_Some (types st !! l))
                      \/ exists l0 T0 d',
                           getitem st sc n = Some l0 /\ types st !! l0 = Some T0
                           /\ dtype T0 = DERIVED_TYPE
                           /\ getitem st' sc n = Some (next_type st)
                           /\ (next_dict st <= d')%nat
                           /\ types st' !! next_type st
                              = Some (with_variables T0 (Some d')))).
  { intros l Hl HTl [= <- <-]. split; [reflexivity|]. split; [exact W|].
    split; [apply frame_refl|]. left. split; [reflexivity|].
    intros l0 Hl0. congruence. }
  destruct (getitem st sc n) as [l|] eqn:Hb.
  2:{ injection H as <- <-. split; [reflexivity|]. split; [exact W|].
      split; [apply frame_refl|]. left. split; [reflexivity|]. discriminate. }
  unfold deref in H. destruct (types st !! l) as [T|] eqn:HT; [|discriminate].
  cbn [mbind Result_bind] in H.
  destruct (decide (dtype T = DERIVED_TYPE)) as [Hdt|]; [|eapply Hskip; eauto].
  destruct (variables T) as [d|] eqn:Hv; [|eapply Hskip; eauto].
  unfold deref_dict in H. destruct (dicts st !! d) as [flds|] eqn:Hd; [|discriminate].
  cbn [mbind Result_bind] in H.
  destruct flds as [|[k0 first] rest]; [eapply Hskip; eauto|].
  destruct (var_scope first) as [s0|] eqn:Hs0; [|discriminate].
  cbn [mbind Result_bind] in H. rewrite Hsc in H. cbn [mbind Result_bind] in H.
  destruct (decide (s0 <> sc)) as [Hne|]; [|eapply Hskip; eauto].
  clear H.
  rewrite (instantiate_unfold _ _ _ _ _ _ _ _ _ _ _ _ Hn Hsc Hb HT Hdt Hv Hd Hs0 Hne)
    in Hrun.
  apply bind_Ok in Hrun as (st5 & Hloop & [= <- <-]).
  destruct (loop_start_base st sc n T W) as (W4 & F4 & Hbase & _).
  destruct (instantiate_fields_base _ _ _ _ _ _ _ _ _ Hnew Hn Hsc _ _ _ Hbase Hloop)
    as (F & (W5 & Hb5 & _ & _ & HT5 & _)).
  split; [reflexivity|]. split; [exact W5|]. split.
  - eapply frame_trans; [exact W4|exact F4|exact F].
  - right. exists l, T, (next_dict st). repeat split; auto.
Qed.

Lemma Variable_new_S fuel st a :
  Variable_new (S fuel) st a
  = ('(obj, st) ← construct st a;
     instantiate_derived_type_variables (Variable_new fuel) st obj).
Proof. reflexivity. Qed.

Lemma construct_given st a l obj st1 :
  resolve_type st a = Some l -> construct st a = Ok (obj, st1) ->
  st1 = define st (a_scope a) (a_name a) l.
Proof.
  intros Hr. unfold construct. rewrite Hr.
  destruct (resolve_shape st a); cbn [mbind Result_bind]; [|discriminate].
  unfold Scalar_init, Array_init, init_type.
  destruct (scalar_test _ _); intros [= _ <-]; reflexivity.
Qed.

Lemma construct_resolved st a l T :
  resolve_type st a = Some l -> types st !! l = Some T ->
  construct st a
  = Ok (if scalar_test (a_dimensions a) (shape T)
        then Scalar (a_name a) (a_scope a) (a_parent a) (a_initial a)
        else Array (a_name a) (a_scope a) (a_parent a) (a_dimensions a) (a_initial a),
        define st (a_scope a) (a_name a) l).
Proof.
  intros Hr HT. unfold construct, resolve_shape. rewrite Hr. unfold deref. rewrite HT.
  cbn [mbind Result_bind]. unfold Scalar_init, Array_init, init_type.
  destruct (scalar_test _ _); reflexivity.
Qed.

Lemma Variable_new_spec fuel : new_spec (Variable_new fuel).
Proof.
  induction fuel as [|fuel IH]; intros st a o st' W H; [discriminate|].
  rewrite Variable_new_S in H. apply bind_Ok in H as ([obj st1] & Hc & H).
  destruct (construct_spec _ _ _ _ W Hc) as (W1 & Hcons & Hn & Hsc & F1 & l1 & Hl1 & B1).
  destruct (instantiate_spec _ _ _ _ _ _ _ IH W1 Hn Hsc H) as (-> & W' & F2 & Alt).
  split; [exact W'|]. split; [exact Hn|]. split; [exact Hsc|]. split.
  { eapply frame_trans; [exact W1|exact F1|].
    eapply frame_weaken; [| | |exact F2].
    + apply (fr_next_dict _ _ _ _ _ _ F1).
    + auto.
    + intros l Hl. left. pose proof (fr_next_type _ _ _ _ _ _ F1). cbn in Hl. lia. }
  split.
  { destruct Alt as [[-> Hlive]|(l0 & T0 & d' & _ & _ & _ & Hl & _ & HTl)].
    + exists l1. split; [exact Hl1|]. split; [apply Hlive; exact Hl1|].
      destruct B1 as [[B1 _]|B1]; auto.
    + exists (next_type st1). split; [exact Hl|]. split; [eauto|]. left. left.
      pose proof (fr_next_type _ _ _ _ _ _ F1). lia. }
  split; [exact Hcons|].
  intros lt Tt Hr HT.
  pose proof (construct_given _ _ _ _ _ Hr Hc) as ->.
  destruct Alt as [[-> _]|(l0 & T0 & d' & Hl0 & HT0 & Hdt & Hl & Hd' & HTl)].
  - exists lt, Tt. split; [apply getitem_define_eq|]. split; [exact HT|]. auto.
  - rewrite getitem_define_eq in Hl0. injection Hl0 as <-.
    assert (T0 = Tt) as -> by (cbn in HT0; congruence).
    exists (next_type st), (with_variables Tt (Some d')).
    split; [exact Hl|]. split; [exact HTl|]. right.
    split; [exact Hdt|]. split; [lia|]. exists d'. split; [exact Hd' | reflexivity].
Qed.

Lemma Variable_new_obj fuel st a obj st' :
  Variable_new fuel st a = Ok (obj, st') -> constructed st a obj.
Proof.
  destruct fuel as [|fuel]; [discriminate|].
  rewrite Variable_new_S. intros H. apply bind_Ok in H as ([obj1 st1] & Hc & H).
  assert (Hobj : obj = obj1).
  { unfold instantiate_derived_type_variables in H.
    repeat match type of H with
           | mbind _ ?m = Ok _ =>
               let x := fresh "x" in
               apply bind_Ok in H as (x & _ & H)
           | match ?x with _ => _ end = Ok _ => destruct x
           | (let '(_, _) := ?x in _) = Ok _ => destruct x
           | (if ?b then _ else _) = Ok _ => destruct b
           end; try discriminate; injection H as <- _; reflexivity. }
  subst obj1. unfold construct in Hc.
  destruct (resolve_shape st a) as [shape|] eqn:Hs; [|discriminate].
  exists shape. split; [exact Hs|]. cbn [mbind Result_bind] in Hc.
  unfold Scalar_init, Array_init in Hc.
  destruct (scalar_test (a_dimensions a) shape); injection Hc as <- _; reflexivity.
Qed.

Lemma wf_check_sound st : wf_check st = true -> wf st.
Proof.
  unfold wf_check. intros H. apply andb_true_iff in H as [Ht Hd].
  rewrite forallb_forall in Ht, Hd. split.
  - intros l [T HT]. apply Nat.ltb_lt. apply Ht.
    apply in_map_iff. exists (l, T). split; [reflexivity|].
    apply list_elem_of_In. apply elem_of_map_to_list. exact HT.
  - intros d [f Hf]. apply Nat.ltb_lt. apply Hd.
    apply in_map_iff. exists (d, f). split; [reflexivity|].
    apply list_elem_of_In. apply elem_of_map_to_list. exact Hf.
Qed.

Lemma scalar_test_spec dims shape :
  scalar_test dims shape = true <-> dims = None /\ no_shape shape.
Proof.
  unfold scalar_test, no_shape. destruct dims as [ds|]; [split; [discriminate|]|].
  - intros [H _]. discriminate.
  - destruct shape as [[|x s]|]; cbn; split; intros H; auto.
    + discriminate.
    + destruct H as [_ [H|H]]; discriminate.
Qed.

Lemma scalar_test_false dims shape :
  scalar_test dims shape = false <-> dims <> None \/ has_shape shape.
Proof.
  unfold scalar_test, has_shape. destruct dims as [ds|]; [split; auto|].
  destruct shape as [[|x s]|]; cbn; split; intros H; try discriminate; auto.
  - destruct H as [H|(s & [= <-] & H)]; congruence.
  - right. exists (x :: s). split; [reflexivity | discriminate].
  - destruct H as [H|(s & H & _)]; congruence.
Qed.

(** The fields of a type are not looked at unless it is a derived type. *)
Lemma instantiate_not_derived new st obj n sc l T :
  var_name obj = Ok n -> var_scope obj = Ok sc ->
  getitem st sc n = Some l -> types st !! l = Some T -> dtype T <> DERIVED_TYPE ->
  instantiate_derived_type_variables new st obj = Ok (obj, st).
Proof.
  intros Hn Hsc Hb HT Hd. unfold instantiate_derived_type_variables.
  rewrite (get_type_var _ _ _ _ Hn Hsc), Hb. cbn [mbind Result_bind].
  unfold deref. rewrite HT. cbn [mbind Result_bind].
  destruct (decide (dtype T = DERIVED_TYPE)); [contradiction | reflexivity].
Qed.

Lemma Variable_new_returns_plain fuel st a l T :
  resolve_type st a = Some l -> types st !! l = Some T -> dtype T <> DERIVED_TYPE ->
  is_Ok (Variable_new (S fuel) st a) = true.
Proof.
  intros Hr HT Hd. rewrite Variable_new_S, (construct_resolved _ _ _ _ Hr HT).
  cbn [mbind Result_bind].
  assert (Hi : forall obj, var_name obj = Ok (a_name a) -> var_scope obj = Ok (a_scope a) ->
               is_Ok (instantiate_derived_type_variables (Variable_new fuel)
                        (define st (a_scope a) (a_name a) l) obj) = true).
  { intros obj Hn Hsc.
    rewrite (instantiate_not_derived _ _ _ _ _ _ _ Hn Hsc (getitem_define_eq _ _ _ _) HT Hd).
    reflexivity. }
  destruct (scalar_test _ _); apply Hi; reflexivity.
Qed.

Lemma Variable_new_returns_undeclared fuel st a :
  resolve_type st a = None -> getitem st (a_scope a) (a_name a) = None ->
  is_Ok (Variable_new (S fuel) st a) = true.
Proof.
  intros Hr Hb. rewrite Variable_new_S. unfold construct, resolve_shape.
  rewrite Hr. cbn [mbind Result_bind].
  unfold Scalar_init, Array_init, init_type.
  change (alloc_type st (SymbolType_new DEFERRED))
    with (next_type st, (alloc_type st (SymbolType_new DEFERRED)).2).
  cbn iota. unfold setdefault. rewrite getitem_alloc_type, Hb.
  assert (Hi : forall obj, var_name obj = Ok (a_name a) -> var_scope obj = Ok (a_scope a) ->
               is_Ok (instantiate_derived_type_variables (Variable_new fuel)
                        (define (alloc_type st (SymbolType_new DEFERRED)).2
                                (a_scope a) (a_name a) (next_type st)) obj) = true).
  { intros obj Hn Hsc.
    assert (HT : types (define (alloc_type st (SymbolType_new DEFERRED)).2
                               (a_scope a) (a_name a) (next_type st)) !! next_type st
                 = Some (SymbolType_new DEFERRED)) by (cbn; apply lookup_insert_eq).
    rewrite (instantiate_not_derived _ _ _ _ _ _ _ Hn Hsc (getitem_define_eq _ _ _ _) HT);
      [reflexivity | discriminate]. }
  destruct (scalar_test _ _); cbn [mbind Result_bind]; apply Hi; reflexivity.
Qed.

(** With [type=None] given for a name that is bound, the binding stays
    and is read when the fields are looked at. *)
Lemma Variable_new_returns_unresolved fuel st a l T :
  resolve_type st a = None -> wf st ->
  getitem st (a_scope a) (a_name a) = Some l -> types st !! l = Some T ->
  dtype T <> DERIVED_TYPE ->
  exists st',
    Variable_new (S fuel) st a
    = Ok (if scalar_test (a_dimensions a) None
          then Scalar (a_name a) (a_scope a) (a_parent a) (a_initial a)
          else Array (a_name a) (a_scope a) (a_parent a) (a_dimensions a) (a_initial a),
          st')
    /\ getitem st' (a_scope a) (a_name a) = Some l
    /\ types st' !! l = Some T.
Proof.
  intros Hr [W _] Hb HT Hd. rewrite Variable_new_S. unfold construct, resolve_shape.
  rewrite Hr. cbn [mbind Result_bind].
  unfold Scalar_init, Array_init, init_type.
  change (alloc_type st (SymbolType_new DEFERRED))
    with (next_type st, (alloc_type st (SymbolType_new DEFERRED)).2).
  cbn iota. unfold setdefault. rewrite getitem_alloc_type, Hb.
  set (st1 := (alloc_type st (SymbolType_new DEFERRED)).2).
  assert (Hl : (l < next_type st)%nat) by (apply W; eauto).
  assert (HT1 : types st1 !! l = Some T).
  { cbn. rewrite lookup_insert_ne by lia. exact HT. }
  exists st1. split; [|split; [exact Hb | exact HT1]].
  destruct (scalar_test _ _); cbn [mbind Result_bind];
    apply (instantiate_not_derived _ _ _ (a_name a) (a_scope a) l T);
    try reflexivity; assumption.
Qed.





(** *** The constructor returns *)

Lemma ready_with_parent fuel st sc T p :
  ready fuel st sc (with_parent T p) = ready fuel st sc T.
Proof. destruct fuel; reflexivity. Qed.

Lemma type_of_field_typed st v Tv :
  type_of_field st v = Some Tv -> exists lv, typed st v lv Tv.
Proof.
  unfold type_of_field, typed.
  destruct (get_type st v) as [[lv|]|]; try discriminate. eauto.
Qed.

Lemma declared_elsewhere_spec sc v :
  declared_elsewhere sc v = true -> exists s, var_scope v = Ok s /\ s <> sc.
Proof.
  unfold declared_elsewhere. destruct (var_scope v) as [s|]; [|discriminate].
  intros H. exists s. split; [reflexivity|].
  apply negb_true_iff, Nat.eqb_neq in H. exact H.
Qed.

Lemma field_ready_spec ok st sc v :
  field_ready ok st sc v = true ->
  foreign_field st sc v /\ exists Tv, type_of_field st v = Some Tv /\ ok Tv = true.
Proof.
  unfold field_ready. intros H. apply andb_true_iff in H as [He Ht].
  destruct (declared_elsewhere_spec _ _ He) as (s & Hs & Hne).
  destruct (type_of_field st v) as [Tv|] eqn:E; [|discriminate].
  destruct (type_of_field_typed _ _ _ E) as [lv Hty].
  destruct (var_scope_name _ _ Hs) as [vn Hvn].
  split; [exists vn, s, lv, Tv; auto | eauto].
Qed.

(** What [ready] says of a derived type. *)
Lemma ready_fields fuel st sc T d :
  ready (S fuel) st sc T = true -> dtype T = DERIVED_TYPE -> variables T = Some d ->
  exists flds,
    dicts st !! d = Some flds
    /\ forallb (fun kv => field_ready (ready fuel st sc) st sc kv.2) flds = true.
Proof.
  cbn [ready]. intros H Hdt Hv.
  destruct (decide (dtype T = DERIVED_TYPE)); [|contradiction].
  rewrite Hv in H. destruct (dicts st !! d) as [flds|]; [|discriminate]. eauto.
Qed.

Lemma ready_foreign fuel st sc (flds : list (string * Value)) k v :
  forallb (fun kv => field_ready (ready fuel st sc) st sc kv.2) flds = true ->
  (k, v) ∈ flds -> foreign_field st sc v.
Proof.
  intros H Hin. rewrite forallb_forall in H.
  apply (field_ready_spec (ready fuel st sc)). apply (H (k, v)).
  apply list_elem_of_In. exact Hin.
Qed.

(** The loop over the fields returns when every call it makes does. *)
Lemma instantiate_fields_return fuel new obj n sc nt nd l' T' d' st0 n0 :
  new_spec new -> var_name obj = Ok n -> var_scope obj = Ok sc ->
  wf st0 -> (forall k, own_key n k -> own_key n0 k) -> (next_dict st0 <= nd)%nat ->
  (forall st a lt Tt,
      wf st -> frame (next_dict st0) sc n0 (fun _ => True) st0 st ->
      a_scope a = sc -> (forall k, own_key (a_name a) k -> own_key n0 k) ->
      resolve_type st a = Some lt -> types st !! lt = Some Tt ->
      ready fuel st0 sc Tt = true ->
      exists r, new st a = Ok r) ->
  forall flds st,
    loop_base st nt nd sc n l' T' d' ->
    frame (next_dict st0) sc n0 (fun _ => True) st0 st ->
    forallb (fun kv => field_ready (ready fuel st0 sc) st0 sc kv.2) flds = true ->
    exists st', foldM (instantiate_field new obj) flds st = Ok st'.
Proof.
  intros Hnew Hn Hsc W0 Hown Hnd0 Hret flds.
  induction flds as [|[k v] rest IH]; intros st Hbase F0 Hfor; [cbn; eauto|].
  cbn [forallb snd] in Hfor. apply andb_true_iff in Hfor as [Hv Hrest].
  destruct (field_ready_spec _ _ _ _ Hv)
    as ((vn & s & lv & Tv & Hvn & Hs & Hne & Hty) & Tv' & HTv' & Hready).
  assert (Tv' = Tv) as ->.
  { destruct (type_of_field_typed _ _ _ HTv') as [lv' [Hg' HT']].
    destruct Hty as [Hg HT]. congruence. }
  pose proof Hbase as (W & _).
  pose proof (typed_frame _ _ _ _ _ _ _ _ _ _ W0 F0 Hs Hne Hty) as Hty1.
  assert (Hcall : exists r,
             new (alloc_type st (with_parent Tv (Some obj))).2
                 (mkVarArgs (n ++ "%" ++ basename vn) sc None None
                            (Some (Some (next_type st))) None) = Ok r).
  { apply (Hret _ _ (next_type st) (with_parent Tv (Some obj))).
    - apply wf_alloc_type. exact W.
    - eapply frame_trans; [exact W|exact F0|apply frame_alloc_type].
    - reflexivity.
    - intros k0 Hk0. apply Hown. eapply own_key_field. exact Hk0.
    - reflexivity.
    - cbn. apply lookup_insert_eq.
    - rewrite ready_with_parent. exact Hready. }
  destruct (instantiate_field_returns _ _ _ _ _ _ _ _ _ _ k _ _ _ _
              Hnew Hn Hsc Hbase Hty1 Hvn Hcall) as [st1 H1].
  destruct (instantiate_field_base _ _ _ _ _ _ _ _ _ _ _ _ _ Hnew Hn Hsc Hbase H1)
    as (F1 & Hbase1).
  destruct (IH st1 Hbase1) as [st' H']; [|exact Hrest|].
  - eapply frame_trans; [exact W|exact F0|].
    eapply frame_weaken; [| | |exact F1]; auto.
  - exists st'. cbn [foldM]. rewrite H1. cbn [mbind Result_bind]. exact H'.
Qed.

(** The constructor returns for a resolved type that is [ready], in a
    store that has grown out of the one the type is ready in. *)
Lemma Variable_new_returns fuel :
  forall st0 n0 st a lt Tt,
    wf st0 -> wf st -> frame (next_dict st0) (a_scope a) n0 (fun _ => True) st0 st ->
    (forall k, own_key (a_name a) k -> own_key n0 k) ->
    resolve_type st a = Some lt -> types st !! lt = Some Tt ->
    ready fuel st0 (a_scope a) Tt = true ->
    exists r, Variable_new fuel st a = Ok r.
Proof.
  induction fuel as [|fuel IH]; intros st0 n0 st a lt Tt W0 W F0 Hown Hr HT Hready;
    [discriminate|].
  rewrite Variable_new_S, (construct_resolved _ _ _ _ Hr HT). cbn [mbind Result_bind].
  set (sc := a_scope a) in *. set (n := a_name a) in *.
  set (obj := if scalar_test (a_dimensions a) (shape Tt)
              then Scalar n sc (a_parent a) (a_initial a)
              else Array n sc (a_parent a) (a_dimensions a) (a_initial a)).
  assert (Hn : var_name obj = Ok n) by (unfold obj; destruct (scalar_test _ _); reflexivity).
  assert (Hsc : var_scope obj = Ok sc)
    by (unfold obj; destruct (scalar_test _ _); reflexivity).
  set (st1 := define st sc n lt).
  assert (W1 : wf st1) by (apply wf_define; exact W).
  assert (Hb1 : getitem st1 sc n = Some lt) by apply getitem_define_eq.
  assert (HT1 : types st1 !! lt = Some Tt) by exact HT.
  assert (F1 : frame (next_dict st0) sc n0 (fun _ => True) st0 st1).
  { eapply frame_trans; [exact W|exact F0|].
    eapply frame_weaken; [| | |apply (frame_define (next_dict st0) sc n (fun _ => True))];
      eauto. }
  destruct (decide (dtype Tt = DERIVED_TYPE)) as [Hdt|Hdt].
  2:{ rewrite (instantiate_not_derived _ _ _ _ _ _ _ Hn Hsc Hb1 HT1 Hdt). eauto. }
  assert (Hskip : forall m, m = Ok (obj, st1) ->
            exists r : Value * Store, m = Ok r) by (intros m ->; eauto).
  destruct (variables Tt) as [d|] eqn:Hv.
  2:{ apply Hskip. unfold instantiate_derived_type_variables.
      rewrite (get_type_var _ _ _ _ Hn Hsc), Hb1. cbn [mbind Result_bind].
      unfold deref. rewrite HT1. cbn [mbind Result_bind].
      destruct (decide (dtype Tt = DERIVED_TYPE)); [|contradiction].
      rewrite Hv. reflexivity. }
  destruct (ready_fields _ _ _ _ _ Hready Hdt Hv) as (flds & Hd0 & Hfor).
  assert (Hd1 : dicts st1 !! d = Some flds).
  { rewrite (fr_dicts _ _ _ _ _ _ F1); [exact Hd0|]. apply (proj2 W0). eauto. }
  destruct flds as [|[k0 first] rest] eqn:Eflds.
  { apply Hskip. unfold instantiate_derived_type_variables.
    rewrite (get_type_var _ _ _ _ Hn Hsc), Hb1. cbn [mbind Result_bind].
    unfold deref. rewrite HT1. cbn [mbind Result_bind].
    destruct (decide (dtype Tt = DERIVED_TYPE)); [|contradiction].
    rewrite Hv. unfold deref_dict. rewrite Hd1. reflexivity. }
  rewrite <- Eflds in Hfor.
  destruct (ready_foreign _ _ _ _ k0 first Hfor)
    as (_ & s0 & _ & _ & _ & Hs0 & Hs0ne & _); [rewrite Eflds; apply elem_of_cons; auto|].
  rewrite (instantiate_unfold _ _ _ _ _ _ _ _ _ _ _ _ Hn Hsc Hb1 HT1 Hdt Hv Hd1 Hs0 Hs0ne).
  rewrite <- Eflds.
  destruct (loop_start_base st1 sc n Tt W1) as (W4 & F4 & Hbase & _).
  destruct (instantiate_fields_return fuel (Variable_new fuel) obj n sc _ _ _ _ _ st0 n0
              (Variable_new_spec fuel) Hn Hsc W0 Hown
              (fr_next_dict _ _ _ _ _ _ F1)
              (fun st a lt Tt Wst Fst Hasc Haown Har HaT Hard =>
                 IH st0 n0 st a lt Tt W0 Wst
                    (eq_rect_r (fun s => frame (next_dict st0) s n0 (fun _ => True) st0 st)
                               Fst Hasc)
                    Haown Har HaT
                    (eq_rect_r (fun s => ready fuel st0 s Tt = true) Hard Hasc))
              flds (loop_start st1 sc n Tt) Hbase)
    as [st5 H5].
  - eapply frame_trans; [exact W1|exact F1|].
    eapply frame_weaken; [| | |exact F4]; auto.
    apply (fr_next_dict _ _ _ _ _ _ F1).
  - exact Hfor.
  - rewrite H5. cbn [mbind Result_bind]. eauto.
Qed.

End SymbolFacts.

(** C3 (as amended). [Variable(...)] returns a [Scalar] exactly when no
  dimensions are given and the shape of the type the call resolves is
  absent or empty, and an [Array] as soon as dimensions are given or
  that shape has entries. The type the call resolves is the [type]
  keyword when it is given, [None] included, and the entry of the name in
  the scope otherwise. When it is a type object, the variable reads a
  type of that shape afterwards, so that the class is the one of
  (dimensions, type.shape); with [type=None] the class follows from the
  dimensions alone, whatever is declared for the name. The constructor
  does return when the resolved type can be instantiated (a type that is
  not a derived type always can), when the name is new to the scope, and
  with [type=None] for a name that is bound to a type that is not a
  derived type. *)
Theorem Variable_scalar_or_array (fuel : nat) (st : Symbols.Store) (a : Symbols.VarArgs) :
(forall obj st',
    Symbols.Variable_new fuel st a = Ok (obj, st') ->
    exists shape,
      Symbols.resolve_shape st a = Ok shape
      /\ (is_Scalar obj = true
          <-> Symbols.a_dimensions a = None /\ Reference.no_shape shape)
      /\ (is_Array obj = true
          <-> Symbols.a_dimensions a <> None \/ Reference.has_shape shape)
      /\ is_Scalar obj = negb (is_Array obj))
/\ (forall obj st' l T,
      Reference.wf st ->
      Symbols.Variable_new fuel st a = Ok (obj, st') ->
      Symbols.resolve_type st a = Some l -> Symbols.types st !! l = Some T ->
      Symbols.resolve_shape st a = Ok (Types.shape T)
      /\ exists l' T', Reference.typed st' obj l' T' /\ Types.shape T' = Types.shape T)
/\ (forall obj st',
      Symbols.a_type a = Some None ->
      Symbols.Variable_new fuel st a = Ok (obj, st') ->
      (is_Scalar obj = true <-> Symbols.a_dimensions a = None)
      /\ (is_Array obj = true <-> Symbols.a_dimensions a <> None))
/\ (forall l T,
      Symbols.resolve_type st a = Some l -> Symbols.types st !! l = Some T ->
      Types.dtype T <> DERIVED_TYPE ->
      is_Ok (Symbols.Variable_new (S fuel) st a) = true)
/\ (forall l T,
      Reference.wf st ->
      Symbols.resolve_type st a = Some l -> Symbols.types st !! l = Some T ->
      Reference.ready fuel st (Symbols.a_scope a) T = true ->
      is_Ok (Symbols.Variable_new fuel st a) = true)
/\ (Symbols.resolve_type st a = None ->
    Symbols.getitem st (Symbols.a_scope a) (Symbols.a_name a) = None ->
    is_Ok (Symbols.Variable_new (S fuel) st a) = true)
/\ (forall l T,
      Reference.wf st ->
      Symbols.resolve_type st a = None ->
      Symbols.getitem st (Symbols.a_scope a) (Symbols.a_name a) = Some l ->
      Symbols.types st !! l = Some T -> Types.dtype T <> DERIVED_TYPE ->
      is_Ok (Symbols.Variable_new (S fuel) st a) = true).
Proof.
assert (Hclass : forall obj st',
    Symbols.Variable_new fuel st a = Ok (obj, st') ->
    exists shape,
      Symbols.resolve_shape st a = Ok shape
      /\ (is_Scalar obj = true
          <-> Symbols.a_dimensions a = None /\ Reference.no_shape shape)
      /\ (is_Array obj = true
          <-> Symbols.a_dimensions a <> None \/ Reference.has_shape shape)
      /\ is_Scalar obj = negb (is_Array obj)).
{ intros obj st' H. destruct (Variable_new_obj _ _ _ _ _ H) as (shape & Hs & ->).
  exists shape. split; [exact Hs|].
  pose proof (scalar_test_spec (Symbols.a_dimensions a) shape) as Ht.
  pose proof (scalar_test_false (Symbols.a_dimensions a) shape) as Hf.
  destruct (Symbols.scalar_test (Symbols.a_dimensions a) shape); cbn.
  + split; [tauto|]. split; [|reflexivity].
    rewrite <- Hf. split; discriminate.
  + split; [|split; [tauto | reflexivity]].
    rewrite <- Ht. split; discriminate. }
split; [exact Hclass|]. split; [|split; [|split; [|split; [|split]]]].
- intros obj st' l T W H Hr HT. split.
  { unfold Symbols.resolve_shape, Symbols.deref. rewrite Hr, HT. reflexivity. }
  destruct (Variable_new_spec _ _ _ _ _ W H) as (_ & Hn & Hsc & _ & _ & _ & Hb).
  destruct (Hb _ _ Hr HT) as (l' & T' & Hl' & HT' & Alt).
  exists l', T'. split.
  + split; [|exact HT']. rewrite (get_type_var _ _ _ _ Hn Hsc), Hl'. reflexivity.
  + destruct Alt as [[_ ->]|(_ & _ & d' & _ & ->)]; reflexivity.
- intros obj st' Ha H. destruct (Hclass _ _ H) as (shape & Hs & H1 & H2 & _).
  unfold Symbols.resolve_shape, Symbols.resolve_type in Hs. rewrite Ha in Hs.
  injection Hs as <-. split.
  + rewrite H1. unfold Reference.no_shape. tauto.
  + rewrite H2. unfold Reference.has_shape. split; [|tauto].
    intros [Hd|(s & Hs & _)]; [exact Hd | discriminate].
- intros l T. apply Variable_new_returns_plain.
- intros l T W Hr HT Hready.
  destruct (Variable_new_returns fuel st (Symbols.a_name a) st a l T W W
              (frame_refl _ _ _ _ _) (fun k Hk => Hk) Hr HT Hready) as [r Hret].
  rewrite Hret. reflexivity.
- apply Variable_new_returns_undeclared.
- intros l T W Hr Hb HT Hd.
  destruct (Variable_new_returns_unresolved fuel st a l T Hr W Hb HT Hd) as (st' & E & _).
  rewrite E. reflexivity.
Qed.

Lemma Variable_scalar_or_array_witness :
exists shape,
  Symbols.resolve_shape Sample.store
    (Symbols.mkVarArgs "b" Sample.typedef_scope None None None None) = Ok shape
  /\ Reference.has_shape shape.
Proof.
destruct (proj1 (Variable_scalar_or_array 1 Sample.store
                   (Symbols.mkVarArgs "b" Sample.typedef_scope None None None None))
            (Array "b" Sample.typedef_scope None None None)
            (Symbols.init_type Sample.store Sample.typedef_scope "b" (Some 1%nat))
            eq_refl)
  as (shape & Hs & _ & Ha & _).
exists shape. split; [exact Hs|].
destruct (proj1 Ha eq_refl) as [H|H]; [contradiction H; reflexivity | exact H].
Defined.

(** C3, the claim as stated fails when the [type] keyword is given as
  [None] for a name that is declared: the shape of the declared type is
  not looked at, so a name declared with the shape [(3)] gives, without
  dimensions, a [Scalar], which then reads the declared type with its
  shape. *)
Lemma Variable_type_None_ignores_shape :
let a := Symbols.mkVarArgs "b" Sample.typedef_scope None None (Some None) None in
let obj := Scalar "b" Sample.typedef_scope None None in
let st' := (Symbols.alloc_type Sample.store (Types.SymbolType_new DEFERRED)).2 in
Symbols.Variable_new 1 Sample.store a = Ok (obj, st')
/\ is_Scalar obj = true /\ is_Array obj = false
/\ Reference.typed st' obj 1%nat Sample.vector_type
/\ Reference.has_shape (Types.shape Sample.vector_type).
Proof.
intros a obj st'. split; [vm_compute; reflexivity|].
split; [reflexivity|]. split; [reflexivity|].
split; [split; vm_compute; reflexivity|].
exists [Raw (PyInt 3)]. split; [reflexivity | discriminate].
Qed.

(** C2. Once a type object is bound for a name in a scope, by [define] or
  through the [type] setter of a variable, every variable of that name
  and scope reads that very object (its identity, not a copy) for as long
  as the binding is not written again; the read goes through the symbol
  table each time, so an update of the object is seen through every such
  variable, and two constructions for the same name and scope observe the
  same type object. *)
Theorem type_is_read_through_scope (st : Symbols.Store) (sc : scope_id) (name : string)
      (t : type_id) :
Symbols.getitem (Symbols.define st sc name t) sc name = Some t
/\ (forall fuel recursive,
      Symbols.lookup (S fuel) (Symbols.define st sc name t) sc name recursive
      = Ok (Some t))
/\ (forall v w st',
      Symbols.var_name v = Ok name -> Symbols.var_scope v = Ok sc ->
      Symbols.var_name w = Ok name -> Symbols.var_scope w = Ok sc ->
      Symbols.set_type st v t = Ok st' ->
      Symbols.get_type st' w = Ok (Some t))
/\ (forall sc' name' t',
      (sc', Symbols.format_lookup_name name') <> (sc, Symbols.format_lookup_name name) ->
      Symbols.getitem (Symbols.define (Symbols.define st sc name t) sc' name' t') sc name
      = Some t)
/\ (forall T,
      Symbols.getitem (Symbols.alloc_type (Symbols.define st sc name t) T).2 sc name
      = Some t)
/\ (forall st0 v w,
      Symbols.var_name v = Ok name -> Symbols.var_scope v = Ok sc ->
      Symbols.var_name w = Ok name -> Symbols.var_scope w = Ok sc ->
      Symbols.get_type st0 v = Symbols.get_type st0 w)
/\ (forall st0 v w l T update,
      Symbols.var_name v = Ok name -> Symbols.var_scope v = Ok sc ->
      Symbols.var_name w = Ok name -> Symbols.var_scope w = Ok sc ->
      Symbols.get_type st0 v = Ok (Some l) -> Symbols.types st0 !! l = Some T ->
      Symbols.get_type (Symbols.setattr st0 l update) w = Ok (Some l)
      /\ Symbols.deref (Symbols.setattr st0 l update) l = Ok (update T))
/\ (forall fuel1 fuel2 a1 a2 v1 st1 v2 st2,
      Reference.wf st ->
      Symbols.a_name a1 = name -> Symbols.a_scope a1 = sc ->
      Symbols.a_name a2 = name -> Symbols.a_scope a2 = sc ->
      Symbols.Variable_new fuel1 st a1 = Ok (v1, st1) ->
      Symbols.Variable_new fuel2 st1 a2 = Ok (v2, st2) ->
      exists l, Symbols.get_type st2 v1 = Ok (Some l)
                /\ Symbols.get_type st2 v2 = Ok (Some l)
                /\ is_Some (Symbols.types st2 !! l)).
Proof.
split; [apply getitem_define_eq|].
split; [intros; apply lookup_define|].
split.
{ intros v w st' Hv Hvs Hw Hws H. unfold Symbols.set_type in H.
  rewrite Hv, Hvs in H. injection H as <-.
  rewrite (get_type_var _ _ _ _ Hw Hws), getitem_define_eq. reflexivity. }
split.
{ intros sc' name' t' Hne. rewrite getitem_define_ne by exact Hne.
  apply getitem_define_eq. }
split; [intros T; apply getitem_define_eq|].
split.
{ intros st0 v w Hv Hvs Hw Hws.
  rewrite (get_type_var _ _ _ _ Hv Hvs), (get_type_var _ _ _ _ Hw Hws). reflexivity. }
split.
{ intros st0 v w l T update Hv Hvs Hw Hws Hl HT.
  rewrite (get_type_var _ _ _ _ Hv Hvs) in Hl.
  rewrite (get_type_var _ _ _ _ Hw Hws). split; [exact Hl|].
  unfold Symbols.deref, Symbols.setattr. cbn.
  rewrite lookup_alter_eq, HT. reflexivity. }
intros fuel1 fuel2 a1 a2 v1 st1 v2 st2 W Hn1 Hs1 Hn2 Hs2 H1 H2.
destruct (Variable_new_spec _ _ _ _ _ W H1) as (W1 & Hv1 & Hvs1 & _).
destruct (Variable_new_spec _ _ _ _ _ W1 H2)
  as (_ & Hv2 & Hvs2 & _ & (l & Hl & HT & _) & _).
rewrite Hn1 in Hv1. rewrite Hs1 in Hvs1. rewrite Hn2 in Hv2, Hl. rewrite Hs2 in Hvs2, Hl.
exists l. rewrite (get_type_var _ _ _ _ Hv1 Hvs1), (get_type_var _ _ _ _ Hv2 Hvs2), Hl.
auto.
Qed.

Lemma type_is_read_through_scope_witness :
Symbols.get_type (Symbols.define Symbols.empty_store 0%nat "x" 7%nat)
                 (Array "x" 0%nat None None None) = Ok (Some 7%nat).
Proof.
exact (proj1 (proj2 (proj2 (type_is_read_through_scope Symbols.empty_store 0%nat "x" 7%nat)))
         (Scalar "x" 0%nat None None) (Array "x" 0%nat None None None) _
         eq_refl eq_refl eq_refl eq_refl eq_refl).
Defined.

Section DerivedTypeFacts.
Import Types Symbols Reference.



End DerivedTypeFacts.




(** ** IR post-processing passes *)

Section TransformerFacts.
Import IR Passes Rewrites.
Local Open Scope list_scope.

Lemma Node_subnodes_ind (P : Node -> Prop) :
  (forall o, Forall P (subnodes o) -> P o) -> forall o, P o.
Proof.
  intros H. fix IH 1. intros o. apply H.
  destruct o; cbn [subnodes]; try constructor.
  - induction items as [|a items IHl]; constructor; [apply IH | exact IHl].
  - induction body as [|a body IHl]; constructor; [apply IH | exact IHl].
  - apply Forall_app. split.
    + induction bodies as [|a bodies IHl]; constructor; [apply IH | exact IHl].
    + induction else_body as [|a else_body IHl]; constructor; [apply IH | exact IHl].
Qed.

Lemma mapper_get_app A B p :
  mapper_get (A ++ B) p
  = match mapper_get B p with
    | Some r => Some r
    | None => mapper_get A p
    end.
Proof.
  induction A as [|[q v] A IH]; cbn [app mapper_get].
  - destruct (mapper_get B p); reflexivity.
  - rewrite IH. destruct (mapper_get B p); reflexivity.
Qed.

Lemma mapper_get_none M p :
  (forall kv, In kv M -> kv.1 <> p) -> mapper_get M p = None.
Proof.
  induction M as [|[q v] M IH]; intros H; cbn [mapper_get]; [reflexivity|].
  rewrite IH by (intros kv Hin; apply H; right; exact Hin).
  destruct (decide (q = p)) as [->|]; [|reflexivity].
  exfalso. apply (H (p, v)); [left; reflexivity | reflexivity].
Qed.

Lemma enter_mapper_cons i (q : path) (v : option Node) (M : Mapper) :
  enter_mapper i ((q, v) :: M)
  = match q with
    | j :: q' => if decide (j = i) then (q', v) :: enter_mapper i M else enter_mapper i M
    | [] => enter_mapper i M
    end.
Proof.
  destruct q as [|j q']; [reflexivity|].
  unfold enter_mapper. cbn. destruct (decide (j = i)); reflexivity.
Qed.

Lemma mapper_get_enter i M p :
  mapper_get (enter_mapper i M) p = mapper_get M (i :: p).
Proof.
  induction M as [|[q v] M IH]; [reflexivity|].
  cbn [mapper_get]. rewrite <- IH, enter_mapper_cons.
  destruct q as [|j q']; [|destruct (decide (j = i)) as [->|Hne]].
  - destruct (mapper_get (enter_mapper i M) p); [reflexivity|].
    repeat case_decide; try reflexivity; exfalso; simplify_eq.
  - cbn [mapper_get].
    destruct (mapper_get (enter_mapper i M) p); [reflexivity|].
    repeat case_decide; try reflexivity; exfalso; simplify_eq.
  - destruct (mapper_get (enter_mapper i M) p); [reflexivity|].
    repeat case_decide; try reflexivity; exfalso; simplify_eq.
Qed.

Lemma mapper_get_below i M p :
  mapper_get (map (below i) M) (i :: p) = mapper_get M p.
Proof.
  induction M as [|[q v] M IH]; [reflexivity|].
  cbn [map mapper_get below fst snd]. rewrite IH.
  destruct (mapper_get M p); [reflexivity|].
  repeat case_decide; try reflexivity; exfalso; simplify_eq.
Qed.

Lemma mapper_get_below_other i j M p :
  i <> j -> mapper_get (map (below j) M) (i :: p) = None.
Proof.
  intros Hne. apply mapper_get_none. intros kv Hin.
  apply in_map_iff in Hin as ([q v] & <- & _). cbn. congruence.
Qed.

Lemma flat_map_map {A B C} (f : B -> list C) (g : A -> B) (l : list A) :
  flat_map f (map g l) = flat_map (fun x => f (g x)) l.
Proof. induction l as [|x l IH]; cbn; [reflexivity|]. now rewrite IH. Qed.

Lemma map_flat_map {A B C} (f : B -> C) (g : A -> list B) (l : list A) :
  map f (flat_map g l) = flat_map (fun x => map f (g x)) l.
Proof. induction l as [|x l IH]; cbn; [reflexivity|]. now rewrite map_app, IH. Qed.

Lemma visit_items_ext f g items i0 :
  (forall k c, items !! k = Some c -> f (i0 + k)%nat c = g (i0 + k)%nat c) ->
  visit_items f items i0 = visit_items g items i0.
Proof.
  revert i0. induction items as [|c items IH]; intros i0 H; [reflexivity|].
  cbn [visit_items]. pose proof (H 0%nat c eq_refl) as H0.
  rewrite Nat.add_0_r in H0. rewrite H0.
  rewrite (IH (S i0)); [reflexivity|].
  intros k c' Hk. replace (S i0 + k)%nat with (i0 + S k)%nat by lia. apply H. exact Hk.
Qed.

Lemma visit_items_cons f c rest i :
  visit_items f (c :: rest) i
  = match f i c with
    | Some c' => c' :: visit_items f rest (S i)
    | None => visit_items f rest (S i)
    end.
Proof. reflexivity. Qed.

Lemma rebuild_children o : rebuild o (children o) = o.
Proof. destruct o; reflexivity. Qed.

Section OnePass.
Variable finders : list (list Node -> list Match).
Variable entries : Match -> Mapper.
Hypothesis LP : local_pass finders entries.

Lemma entries_enter_flat i ms :
  flat_map entries (map (enter i) ms) = map (below i) (flat_map entries ms).
Proof.
  rewrite flat_map_map, map_flat_map. apply flat_map_ext. intros m.
  apply (lp_enter _ _ LP).
Qed.

(** The entries of the items of a tuple, read at a key below the [i]-th
    item. *)
Lemma get_visit_each (g : Node -> list Match) items j0 i p :
  mapper_get (flat_map entries (visit_each (fun j c => map (enter j) (g c)) items j0))
             (i :: p)
  = match (if decide (j0 <= i)%nat then items !! (i - j0)%nat else None) with
    | Some c => mapper_get (flat_map entries (g c)) p
    | None => None
    end.
Proof.
  revert j0. induction items as [|c items IH]; intros j0.
  - cbn. destruct (decide (j0 <= i)%nat); reflexivity.
  - cbn [visit_each]. rewrite flat_map_app, mapper_get_app, IH, entries_enter_flat.
    destruct (decide (S j0 <= i)%nat) as [Hle|Hgt].
    + destruct (decide (j0 <= i)%nat); [|lia].
      replace (i - j0)%nat with (S (i - S j0)) by lia. cbn [lookup list_lookup].
      destruct (items !! (i - S j0)%nat) as [c'|] eqn:E.
      * destruct (mapper_get _ p) eqn:E'; [reflexivity|].
        apply mapper_get_below_other. lia.
      * apply mapper_get_below_other. lia.
    + destruct (decide (j0 <= i)%nat) as [Hle|Hgt'].
      * assert (i = j0) as -> by lia. rewrite Nat.sub_diag. cbn.
        apply mapper_get_below.
      * apply mapper_get_below_other. lia.
Qed.

Lemma keys_visit_each (g : Node -> list Match) items j0 kv :
  In kv (flat_map entries (visit_each (fun j c => map (enter j) (g c)) items j0)) ->
  exists j q, kv.1 = j :: q /\ q <> [].
Proof.
  intros Hin. apply in_flat_map in Hin as (m & Hm & Hkv).
  assert (exists j m', m = enter j m') as (j & m' & ->).
  { clear Hkv. revert j0 Hm. induction items as [|c items IH]; intros j0 Hm; [destruct Hm|].
    cbn [visit_each] in Hm. apply in_app_or in Hm as [Hm|Hm]; [|eauto].
    apply in_map_iff in Hm as (m' & <- & _). eauto. }
  destruct (lp_keys _ _ LP _ _ Hkv) as [k Hk]. cbn in Hk.
  exists j, (m_tuple m' ++ [k]). split; [exact Hk|].
  destruct (m_tuple m'); discriminate.
Qed.

Lemma keys_in_tuple f items kv :
  In f finders -> In kv (flat_map entries (f items)) -> exists k, kv.1 = [k].
Proof.
  intros Hf Hin. apply in_flat_map in Hin as (m & Hm & Hkv).
  destruct (lp_keys _ _ LP _ _ Hkv) as [k Hk].
  rewrite (lp_here _ _ LP _ _ _ Hf Hm) in Hk. eauto.
Qed.

Lemma get_item_below f items i c p :
  In f finders -> items !! i = Some c -> p <> [] ->
  mapper_get (flat_map entries (finder_visit f (Tuple items))) (i :: p)
  = mapper_get (flat_map entries (finder_visit f c)) p.
Proof.
  intros Hf Hi Hp. cbn [finder_visit]. unfold visit_tuple.
  rewrite flat_map_app, mapper_get_app.
  rewrite (mapper_get_none (flat_map entries (f items))).
  - rewrite get_visit_each. destruct (decide (0 <= i)%nat); [|lia].
    rewrite Nat.sub_0_r, Hi. reflexivity.
  - intros kv Hin. destruct (keys_in_tuple _ _ _ Hf Hin) as [k Hk].
    rewrite Hk. intros [= _ E]. congruence.
Qed.

Lemma get_item_here f items i :
  In f finders ->
  mapper_get (flat_map entries (finder_visit f (Tuple items))) [i]
  = mapper_get (flat_map entries (f items)) [i].
Proof.
  intros Hf. cbn [finder_visit]. unfold visit_tuple.
  rewrite flat_map_app, mapper_get_app.
  destruct (mapper_get (flat_map entries (f items)) [i]); [reflexivity|].
  apply mapper_get_none. intros kv Hin.
  destruct (keys_visit_each _ _ _ _ Hin) as (j & q & Hk & Hq).
  rewrite Hk. intros [= _ E]. congruence.
Qed.

Lemma finder_visit_node f o :
  In f finders ->
  finder_visit f o
  = match o with
    | Tuple items => finder_visit f (Tuple items)
    | Loop _ _ body _ _ => map (enter 0) (finder_visit f (Tuple body))
    | Conditional _ bodies else_body _ =>
        map (enter 0) (finder_visit f (Tuple bodies))
        ++ map (enter 1) (finder_visit f (Tuple else_body))
    | _ => []
    end.
Proof.
  intros Hf. pose proof (lp_children _ _ LP f o Hf) as Hc.
  destruct o; cbn [finder_visit children] in *; try exact Hc; try reflexivity.
  - rewrite Hc, app_nil_r. reflexivity.
  - rewrite Hc, app_nil_r. reflexivity.
Qed.

Lemma pass_get_below items i c p :
  items !! i = Some c -> p <> [] ->
  mapper_get (pass_mapper finders entries (Tuple items)) (i :: p)
  = mapper_get (pass_mapper finders entries c) p.
Proof.
  intros Hi Hp. unfold pass_mapper.
  assert (H : forall fs, (forall f, In f fs -> In f finders) ->
              mapper_get (flat_map entries (flat_map (fun f => finder_visit f (Tuple items)) fs))
                         (i :: p)
              = mapper_get (flat_map entries (flat_map (fun f => finder_visit f c) fs)) p).
  { induction fs as [|f fs IH]; intros Hfs; [reflexivity|].
    cbn [flat_map]. rewrite !flat_map_app, !mapper_get_app.
    rewrite IH by (intros f' Hf'; apply Hfs; right; exact Hf').
    rewrite (get_item_below f items i c p) by (auto; apply Hfs; left; reflexivity).
    reflexivity. }
  apply H. auto.
Qed.

Lemma pass_get_here items i :
  mapper_get (pass_mapper finders entries (Tuple items)) [i]
  = mapper_get (local_mapper finders entries items) [i].
Proof.
  unfold pass_mapper, local_mapper.
  assert (H : forall fs, (forall f, In f fs -> In f finders) ->
              mapper_get (flat_map entries (flat_map (fun f => finder_visit f (Tuple items)) fs))
                         [i]
              = mapper_get (flat_map entries (flat_map (fun f => f items) fs)) [i]).
  { induction fs as [|f fs IH]; intros Hfs; [reflexivity|].
    cbn [flat_map]. rewrite !flat_map_app, !mapper_get_app.
    rewrite IH by (intros f' Hf'; apply Hfs; right; exact Hf').
    rewrite (get_item_here f items i) by (apply Hfs; left; reflexivity).
    reflexivity. }
  apply H. auto.
Qed.

Lemma pass_get_loop v b body pr s q :
  mapper_get (pass_mapper finders entries (Loop v b body pr s)) (0%nat :: q)
  = mapper_get (pass_mapper finders entries (Tuple body)) q.
Proof.
  unfold pass_mapper.
  assert (H : forall fs, (forall f, In f fs -> In f finders) ->
              mapper_get (flat_map entries
                            (flat_map (fun f => finder_visit f (Loop v b body pr s)) fs))
                         (0%nat :: q)
              = mapper_get (flat_map entries (flat_map (fun f => finder_visit f (Tuple body)) fs))
                           q).
  { induction fs as [|f fs IH]; intros Hfs; [reflexivity|].
    cbn [flat_map]. rewrite !flat_map_app, !mapper_get_app.
    rewrite IH by (intros f' Hf'; apply Hfs; right; exact Hf').
    rewrite (finder_visit_node f (Loop v b body pr s)) by (apply Hfs; left; reflexivity).
    rewrite entries_enter_flat, mapper_get_below. reflexivity. }
  apply H. auto.
Qed.

Lemma pass_get_conditional c bodies else_body s q :
  mapper_get (pass_mapper finders entries (Conditional c bodies else_body s)) (0%nat :: q)
  = mapper_get (pass_mapper finders entries (Tuple bodies)) q
  /\ mapper_get (pass_mapper finders entries (Conditional c bodies else_body s)) (1%nat :: q)
     = mapper_get (pass_mapper finders entries (Tuple else_body)) q.
Proof.
  unfold pass_mapper.
  assert (H : forall fs, (forall f, In f fs -> In f finders) ->
              mapper_get (flat_map entries
                            (flat_map (fun f => finder_visit f (Conditional c bodies else_body s))
                                      fs))
                         (0%nat :: q)
              = mapper_get (flat_map entries
                              (flat_map (fun f => finder_visit f (Tuple bodies)) fs)) q
              /\ mapper_get (flat_map entries
                              (flat_map (fun f => finder_visit f
                                                    (Conditional c bodies else_body s)) fs))
                           (1%nat :: q)
                 = mapper_get (flat_map entries
                                 (flat_map (fun f => finder_visit f (Tuple else_body)) fs)) q).
  { induction fs as [|f fs IH]; intros Hfs; [split; reflexivity|].
    destruct IH as [IH0 IH1]; [intros f' Hf'; apply Hfs; right; exact Hf'|].
    cbn [flat_map]. rewrite !flat_map_app, !mapper_get_app. rewrite IH0, IH1.
    rewrite (finder_visit_node f (Conditional c bodies else_body s))
      by (apply Hfs; left; reflexivity).
    rewrite flat_map_app, !mapper_get_app, !entries_enter_flat, !mapper_get_below.
    rewrite (mapper_get_below_other 0 1) by lia.
    rewrite (mapper_get_below_other 1 0) by lia.
    split; [reflexivity|].
    repeat match goal with
           | |- context [match ?x with Some _ => _ | None => _ end] => destruct x
           end; reflexivity. }
  apply H. auto.
Qed.

Lemma items_local items M :
  Forall (fun c => forall M,
              (forall p, p <> [] ->
                         mapper_get M p = mapper_get (pass_mapper finders entries c) p) ->
              NestedTransformer M c
              = apply_handle (mapper_get M []) (rewrite (local_mapper finders entries) c))
         items ->
  (forall q, q <> [] ->
             mapper_get M q = mapper_get (pass_mapper finders entries (Tuple items)) q) ->
  visit_items (fun i c => NestedTransformer (enter_mapper i M) c) items 0
  = visit_items (fun i c => apply_handle (mapper_get (local_mapper finders entries items) [i])
                                         (rewrite (local_mapper finders entries) c))
                items 0.
Proof.
  intros HF HM. apply visit_items_ext. intros k c Hk. cbn [Nat.add].
  rewrite (Forall_lookup_1 _ _ _ _ HF Hk).
  - rewrite mapper_get_enter, HM by discriminate. rewrite pass_get_here. reflexivity.
  - intros p Hp. rewrite mapper_get_enter, HM by discriminate.
    apply pass_get_below; assumption.
Qed.

Theorem NestedTransformer_local o :
  forall M,
    (forall p, p <> [] -> mapper_get M p = mapper_get (pass_mapper finders entries o) p) ->
    NestedTransformer M o
    = apply_handle (mapper_get M []) (rewrite (local_mapper finders entries) o).
Proof.
  induction o as [o IH] using Node_subnodes_ind. intros M HM.
  destruct o; try reflexivity; cbn [subnodes] in IH.
  - cbn [NestedTransformer rewrite descend apply_handle].
    rewrite (items_local items M IH HM). reflexivity.
  - cbn [NestedTransformer rewrite descend apply_handle children].
    rewrite (items_local body (enter_mapper 0 M) IH).
    + destruct (mapper_get M []) as [[h|]|]; reflexivity.
    + intros q Hq. rewrite mapper_get_enter, HM by discriminate. apply pass_get_loop.
  - apply Forall_app in IH as [IHb IHe].
    cbn [NestedTransformer rewrite descend apply_handle children].
    rewrite (items_local bodies (enter_mapper 0 M) IHb).
    + rewrite (items_local else_body (enter_mapper 1 M) IHe).
      * destruct (mapper_get M []) as [[h|]|]; reflexivity.
      * intros q Hq. rewrite mapper_get_enter, HM by discriminate.
        apply pass_get_conditional.
    + intros q Hq. rewrite mapper_get_enter, HM by discriminate.
      apply pass_get_conditional.
Qed.

(** The pass as a whole is the rewrite. *)
Corollary pass_is_rewrite o :
  NestedTransformer (pass_mapper finders entries o) o
  = apply_handle (mapper_get (pass_mapper finders entries o) [])
                 (rewrite (local_mapper finders entries) o).
Proof. apply NestedTransformer_local. reflexivity. Qed.

End OnePass.

(** The three passes are of this kind. *)

Lemma node_key_enter i m j : node_key (enter i m) j = i :: node_key m j.
Proof. reflexivity. Qed.

Lemma tuple_matches_here pattern items m :
  In m (tuple_matches pattern items) -> m_tuple m = [].
Proof. unfold tuple_matches. intros H. apply in_map_iff in H as (i & <- & _). reflexivity. Qed.

Lemma tuple_groups_here t items m : In m (tuple_groups t items) -> m_tuple m = [].
Proof.
  unfold tuple_groups. intros H. apply list_elem_of_In, list_elem_of_omap in H.
  destruct H as ([[t' i] g] & _ & H).
  destruct (bool_decide (t' = t) && (1 <? length g)%nat); [|discriminate].
  injection H as <-. reflexivity.
Qed.

Lemma inline_comments_local : local_pass comment_finders inline_comments_entries.
Proof.
  constructor.
  - intros f items m [<-|[<-|[]]]; apply tuple_matches_here.
  - intros f o [<-|[<-|[]]]; destruct o; reflexivity.
  - intros i [t idx nodes]. unfold inline_comments_entries. cbn [m_nodes enter].
    destruct nodes as [|a [|[] [|]]]; try reflexivity.
    destruct (same_line a c); reflexivity.
  - intros [t idx nodes] kv. unfold inline_comments_entries. cbn [m_nodes].
    destruct nodes as [|a [|[] [|]]]; try solve [intros []].
    destruct (same_line a c); [|intros []].
    intros [<-|[<-|[]]]; eexists; reflexivity.
Qed.

Lemma inline_pragmas_local : local_pass pragma_finders inline_pragmas_entries.
Proof.
  constructor.
  - intros f items m [<-|[<-|[<-|[]]]]; apply tuple_matches_here.
  - intros f o [<-|[<-|[<-|[]]]]; destruct o; reflexivity.
  - intros i [t idx nodes]. unfold inline_pragmas_entries. cbn [m_nodes enter].
    destruct nodes as [|[] [|b [|]]]; reflexivity.
  - intros [t idx nodes] kv. unfold inline_pragmas_entries. cbn [m_nodes].
    destruct nodes as [|[] [|b [|]]]; try solve [intros []].
    intros [<-|[<-|[]]]; eexists; reflexivity.
Qed.

Lemma cluster_comments_local :
  local_pass [tuple_groups TComment] cluster_comments_entries.
Proof.
  constructor.
  - intros f items m [<-|[]]. apply tuple_groups_here.
  - intros f o [<-|[]]; destruct o; reflexivity.
  - intros i m. unfold cluster_comments_entries. cbn [map below fst snd].
    rewrite map_map. reflexivity.
  - intros m kv. unfold cluster_comments_entries. intros [<-|H]; [eexists; reflexivity|].
    apply in_map_iff in H as (j & <- & _). eexists; reflexivity.
Qed.

Lemma pass_root_has_no_entry finders entries o :
  local_pass finders entries -> mapper_get (pass_mapper finders entries o) [] = None.
Proof.
  intros LP. apply mapper_get_none. intros kv Hin.
  apply in_flat_map in Hin as (m & _ & Hkv).
  destruct (lp_keys _ _ LP _ _ Hkv) as [k ->]. destruct (m_tuple m); discriminate.
Qed.

Lemma apply_handle_none o : apply_handle None o = Some o.
Proof. destruct o; reflexivity. Qed.

Lemma pass_rewrites finders entries o :
  local_pass finders entries ->
  NestedTransformer (pass_mapper finders entries o) o
  = Some (rewrite (local_mapper finders entries) o).
Proof.
  intros LP. rewrite (pass_is_rewrite _ _ LP), (pass_root_has_no_entry _ _ _ LP).
  apply apply_handle_none.
Qed.

Lemma inline_comments_rewrites ir :
  inline_comments ir
  = Some (rewrite (local_mapper comment_finders inline_comments_entries) ir).
Proof.
  rewrite <- (pass_rewrites _ _ _ inline_comments_local).
  unfold inline_comments, pass_mapper, comment_finders, PatternFinder. cbn [flat_map].
  rewrite app_nil_r. reflexivity.
Qed.

Lemma inline_pragmas_rewrites ir :
  inline_pragmas ir
  = Some (rewrite (local_mapper pragma_finders inline_pragmas_entries) ir).
Proof.
  rewrite <- (pass_rewrites _ _ _ inline_pragmas_local).
  unfold inline_pragmas, pass_mapper, pragma_finders, PatternFinder. cbn [flat_map].
  rewrite app_nil_r. reflexivity.
Qed.

Lemma cluster_comments_rewrites ir :
  cluster_comments ir
  = Some (rewrite (local_mapper [tuple_groups TComment] cluster_comments_entries) ir).
Proof.
  rewrite <- (pass_rewrites _ _ _ cluster_comments_local).
  unfold cluster_comments, pass_mapper, SequenceFinder. cbn [flat_map].
  rewrite app_nil_r. reflexivity.
Qed.

(** *** Matches of a pattern of two types *)

Lemma mapper_get_in (M : Mapper) (p : path) v :
  mapper_get M p = Some v -> In (p, v) M.
Proof.
  induction M as [|[q w] M IH]; [discriminate|].
  cbn [mapper_get]. destruct (mapper_get M p) as [r|].
  - intros [= ->]. right. apply IH. reflexivity.
  - case_decide; [|discriminate]. intros [= ->]. subst q. left. reflexivity.
Qed.

Lemma mapper_get_found (M : Mapper) (p : path) v :
  In (p, v) M -> exists v', mapper_get M p = Some v'.
Proof.
  induction M as [|[q w] M IH]; [intros []|].
  cbn [mapper_get]. intros [[= -> ->]|Hin].
  - destruct (mapper_get M p); [eauto|]. case_decide; [eauto | contradiction].
  - destruct (IH Hin) as [v' ->]. eauto.
Qed.

Lemma mapper_get_unique (M : Mapper) (p : path) v :
  In (p, v) M -> (forall v', In (p, v') M -> v' = v) -> mapper_get M p = Some v.
Proof.
  intros Hin Hall. destruct (mapper_get_found _ _ _ Hin) as [v' Hv'].
  rewrite Hv'. f_equal. apply Hall. apply mapper_get_in. exact Hv'.
Qed.

Lemma mapper_get_absent (M : Mapper) (p : path) :
  (forall v, ~ In (p, v) M) -> mapper_get M p = None.
Proof.
  intros H. destruct (mapper_get M p) as [v|] eqn:E; [|reflexivity].
  exfalso. exact (H v (mapper_get_in _ _ _ E)).
Qed.

Lemma in_match_from t0 t1 types j0 j :
  In j (match_from [t0; t1] types j0)
  <-> exists k, j = (j0 + k)%nat /\ types !! k = Some t0 /\ types !! S k = Some t1.
Proof.
  revert j0. induction types as [|e rest IH]; intros j0.
  - cbn. split; [intros [] | intros (k & _ & H & _); discriminate].
  - cbn [match_from]. rewrite in_app_iff, IH. split.
    + intros [H|(k & -> & H0 & H1)].
      * destruct (bool_decide (Some e = head [t0; t1])
                  && bool_decide (take (length [t0; t1]) (e :: rest) = [t0; t1])) eqn:E;
          [|destruct H].
        destruct H as [<-|[]]. apply andb_true_iff in E as [_ E].
        apply bool_decide_eq_true in E. cbn in E.
        exists 0%nat. split; [lia|]. destruct rest as [|e' rest]; [discriminate|].
        cbn in E. injection E as -> ->. split; reflexivity.
      * exists (S k). split; [lia|]. split; assumption.
    + intros ([|k] & -> & H0 & H1).
      * left. cbn in H0, H1. injection H0 as ->.
        destruct rest as [|e' rest]; [discriminate|]. cbn in H1. injection H1 as ->.
        cbn. rewrite !bool_decide_eq_true_2 by reflexivity. cbn. left. lia.
      * right. exists k. split; [lia|]. split; assumption.
Qed.

Lemma take_drop_pair {A} (l : list A) i a b :
  l !! i = Some a -> l !! S i = Some b -> take 2 (drop i l) = [a; b].
Proof.
  revert i. induction l as [|x l IH]; intros i; [discriminate|].
  destruct i as [|i].
  - cbn. intros [= ->]. destruct l as [|y l]; [discriminate|]. cbn. intros [= ->].
    reflexivity.
  - cbn. apply IH.
Qed.

Lemma in_tuple_matches t0 t1 items m :
  In m (tuple_matches [t0; t1] items)
  <-> exists i a b, items !! i = Some a /\ items !! S i = Some b
                    /\ type_of a = t0 /\ type_of b = t1 /\ m = mkMatch [] i [a; b].
Proof.
  unfold tuple_matches, match_indices. rewrite in_map_iff. split.
  - intros (i & <- & Hi). apply in_match_from in Hi as (k & -> & H0 & H1).
    rewrite list_lookup_fmap in H0, H1.
    destruct (items !! k) as [a|] eqn:Ea; [|discriminate].
    destruct (items !! S k) as [b|] eqn:Eb; [|discriminate].
    cbn in H0, H1. injection H0 as H0. injection H1 as H1.
    exists k, a, b. repeat split; auto.
    cbn [length Nat.add]. rewrite (take_drop_pair _ _ _ _ Ea Eb). reflexivity.
  - intros (i & a & b & Ea & Eb & Ha & Hb & ->). exists i. split.
    + cbn [length]. rewrite (take_drop_pair _ _ _ _ Ea Eb). reflexivity.
    + apply in_match_from. exists i. split; [reflexivity|].
      rewrite !list_lookup_fmap, Ea, Eb. cbn. rewrite Ha, Hb. split; reflexivity.
Qed.

(** *** The inline-comments pass, item by item *)

Lemma takes_comment_type a c :
  takes_comment a c = true ->
  (type_of a = TStatement \/ type_of a = TDeclaration) /\ same_line a c = true.
Proof.
  unfold takes_comment. intros H. apply andb_true_iff in H as [H1 H2].
  split; [|exact H2]. apply orb_true_iff in H1 as [H1|H1];
    apply bool_decide_eq_true in H1; auto.
Qed.

Lemma in_comment_entries items key v :
  In (key, v) (local_mapper comment_finders inline_comments_entries items)
  <-> exists i a c,
      items !! i = Some a /\ items !! S i = Some (Comment c) /\ takes_comment a c = true
      /\ ((key = [i] /\ v = Some (set_comment a c)) \/ (key = [S i] /\ v = None)).
Proof.
  unfold local_mapper, comment_finders. cbn [flat_map]. rewrite app_nil_r.
  rewrite in_flat_map. split.
  - intros (m & Hm & Hkv).
    assert (exists i a b, items !! i = Some a /\ items !! S i = Some b
                          /\ (type_of a = TStatement \/ type_of a = TDeclaration)
                          /\ type_of b = TComment /\ m = mkMatch [] i [a; b])
      as (i & a & b & Ea & Eb & Ha & Hb & ->).
    { apply in_app_or in Hm as [Hm|Hm]; apply in_tuple_matches in Hm
        as (i & a & b & Ea & Eb & Ha & Hb & ->); exists i, a, b; auto 10. }
    destruct b; try discriminate.
    unfold inline_comments_entries in Hkv. cbn [m_nodes] in Hkv.
    destruct (same_line a c) eqn:Es; [|destruct Hkv].
    exists i, a, c. split; [exact Ea|]. split; [exact Eb|]. split.
    + unfold takes_comment. rewrite Es.
      destruct Ha as [->| ->]; reflexivity.
    + unfold node_key in Hkv. cbn [m_tuple m_index app] in Hkv.
      rewrite Nat.add_0_r, Nat.add_1_r in Hkv.
      destruct Hkv as [[= <- <-]|[[= <- <-]|[]]]; auto.
  - intros (i & a & c & Ea & Eb & Ht & Hkv).
    apply takes_comment_type in Ht as [Ha Hs].
    exists (mkMatch [] i [a; Comment c]). split.
    + apply in_or_app. destruct Ha as [Ha|Ha]; [left | right];
        apply in_tuple_matches; exists i, a, (Comment c); auto 10.
    + unfold inline_comments_entries. cbn [m_nodes]. rewrite Hs.
      unfold node_key. cbn [m_tuple m_index app]. rewrite Nat.add_0_r, Nat.add_1_r.
      destruct Hkv as [[-> ->]|[-> ->]]; [left | right; left]; reflexivity.
Qed.

Lemma comment_not_taking c c' : takes_comment (Comment c) c' = false.
Proof. reflexivity. Qed.

Lemma comment_handle_first items k a c :
  items !! k = Some a -> items !! S k = Some (Comment c) -> takes_comment a c = true ->
  mapper_get (local_mapper comment_finders inline_comments_entries items) [k]
  = Some (Some (set_comment a c))
  /\ mapper_get (local_mapper comment_finders inline_comments_entries items) [S k]
     = Some None.
Proof.
  intros Ea Ec Ht. split; apply mapper_get_unique.
  - apply in_comment_entries. exists k, a, c. auto 10.
  - intros v' Hv'. apply in_comment_entries in Hv'
      as (i & a' & c' & Ea' & Ec' & Ht' & [[[= <-] ->]|[[= ->] ->]]).
    + congruence.
    + rewrite Ea in Ec'. injection Ec' as ->. rewrite comment_not_taking in Ht.
      discriminate.
  - apply in_comment_entries. exists k, a, c. auto 10.
  - intros v' Hv'. apply in_comment_entries in Hv'
      as (i & a' & c' & Ea' & Ec' & Ht' & [[[= <-] ->]|[[= <-] ->]]).
    + rewrite Ec in Ea'. injection Ea' as <-. rewrite comment_not_taking in Ht'.
      discriminate.
    + reflexivity.
Qed.

Lemma comment_handle_none items k a :
  items !! k = Some a ->
  (forall c, items !! S k = Some (Comment c) -> takes_comment a c = false) ->
  (forall k' z c, k = S k' -> items !! k' = Some z -> a = Comment c ->
                  takes_comment z c = false) ->
  mapper_get (local_mapper comment_finders inline_comments_entries items) [k] = None.
Proof.
  intros Ea Hnext Hprev. apply mapper_get_absent. intros v Hv.
  apply in_comment_entries in Hv
    as (i & a' & c' & Ea' & Ec' & Ht' & [[[= <-] ->]|[[= ->] ->]]).
  - rewrite Ea in Ea'. injection Ea' as <-. rewrite (Hnext c' Ec') in Ht'. discriminate.
  - rewrite Ea in Ec'. injection Ec' as ->.
    rewrite (Hprev i a' c' eq_refl Ea' eq_refl) in Ht'. discriminate.
Qed.

Lemma apply_handle_drop o : type_of o <> TTuple -> apply_handle (Some None) o = None.
Proof. destruct o; cbn; congruence. Qed.

Lemma apply_handle_leaf h o :
  type_of h = TStatement \/ type_of h = TDeclaration ->
  type_of o <> TTuple ->
  apply_handle (Some (Some h)) o = Some h.
Proof.
  intros Hh Ho. destruct o; cbn in *; try congruence;
    destruct h; cbn in Hh; destruct Hh; try discriminate; reflexivity.
Qed.

Lemma set_comment_type a c : type_of (set_comment a c) = type_of a.
Proof. destruct a; reflexivity. Qed.

Lemma descend_type g o : type_of (descend g o) = type_of o.
Proof. destruct o; reflexivity. Qed.

Lemma comments_items g items :
  forall n suf pre,
    (length suf <= n)%nat -> items = pre ++ suf ->
    (forall k' z c, length pre = S k' -> items !! k' = Some z ->
                    head suf = Some (Comment c) -> takes_comment z c = false) ->
    visit_items (fun k c =>
                   apply_handle
                     (mapper_get (local_mapper comment_finders inline_comments_entries items)
                                 [k])
                     (descend g c))
                suf (length pre)
    = merge_comments_in (descend g) suf.
Proof.
  induction n as [|n IH]; intros suf pre Hlen Hitems Hprev.
  - destruct suf; [reflexivity | cbn in Hlen; lia].
  - destruct suf as [|a rest]; [reflexivity|].
    assert (Ea : items !! length pre = Some a)
      by (rewrite Hitems; apply list_lookup_middle; reflexivity).
    assert (Hrest : items = (pre ++ [a]) ++ rest) by (rewrite <- app_assoc; exact Hitems).
    assert (Hlen1 : length (pre ++ [a]) = S (length pre))
      by (rewrite length_app; cbn; lia).
    destruct rest as [|b rest'].
    + rewrite visit_items_cons. cbn [visit_items merge_comments_in].
      rewrite (comment_handle_none items (length pre) a Ea).
      * rewrite apply_handle_none. reflexivity.
      * intros c Hc. rewrite Hitems in Hc.
        rewrite lookup_ge_None_2 in Hc; [discriminate|]. rewrite length_app. cbn. lia.
      * intros k' z c Hk Hz ->. apply (Hprev k' z c Hk Hz). reflexivity.
    + assert (Eb : items !! S (length pre) = Some b).
      { rewrite Hrest, <- Hlen1. apply list_lookup_middle. reflexivity. }
      assert (Hmerge : forall c, b = Comment c -> takes_comment a c = true ->
                visit_items (fun k c =>
                   apply_handle
                     (mapper_get (local_mapper comment_finders inline_comments_entries items)
                                 [k])
                     (descend g c))
                  (a :: b :: rest') (length pre)
                = set_comment a c :: merge_comments_in (descend g) rest').
      { intros c -> Ht.
        destruct (comment_handle_first items _ _ _ Ea Eb Ht) as [H1 H2].
        destruct (takes_comment_type _ _ Ht) as [Hty _].
        rewrite visit_items_cons, H1.
        rewrite apply_handle_leaf;
          [|rewrite set_comment_type; exact Hty
           |rewrite descend_type; destruct Hty as [->| ->]; discriminate].
        rewrite visit_items_cons, H2.
        rewrite apply_handle_drop by (rewrite descend_type; discriminate).
        f_equal. rewrite <- (IH rest' (pre ++ [a; Comment c])).
        - f_equal. rewrite length_app. cbn. lia.
        - cbn in Hlen. lia.
        - rewrite <- app_assoc. exact Hitems.
        - intros k' z c' Hk Hz Hhd. rewrite length_app in Hk. cbn in Hk.
          assert (k' = S (length pre)) as -> by lia.
          rewrite Eb in Hz. injection Hz as <-. reflexivity. }
      assert (Hkeep : (forall c, b = Comment c -> takes_comment a c = false) ->
                visit_items (fun k c =>
                   apply_handle
                     (mapper_get (local_mapper comment_finders inline_comments_entries items)
                                 [k])
                     (descend g c))
                  (a :: b :: rest') (length pre)
                = descend g a :: merge_comments_in (descend g) (b :: rest')).
      { intros Hno. rewrite visit_items_cons.
        rewrite (comment_handle_none items (length pre) a Ea).
        - rewrite apply_handle_none. f_equal.
          rewrite <- (IH (b :: rest') (pre ++ [a])).
          + f_equal. exact (eq_sym Hlen1).
          + cbn in Hlen |- *. lia.
          + exact Hrest.
          + intros k' z c Hk Hz Hhd. rewrite Hlen1 in Hk. injection Hk as <-.
            rewrite Ea in Hz. injection Hz as <-. cbn in Hhd. injection Hhd as ->.
            apply Hno. reflexivity.
        - intros c Hc. rewrite Eb in Hc. injection Hc as ->. apply Hno. reflexivity.
        - intros k' z c Hk Hz ->. apply (Hprev k' z c Hk Hz). reflexivity. }
      cbn [merge_comments_in].
      destruct b; try (apply Hkeep; intros; discriminate).
      destruct (takes_comment a c) eqn:Ht.
      * apply Hmerge; [reflexivity | exact Ht].
      * apply Hkeep. intros c' [= <-]. exact Ht.
Qed.

(** *** The pragma pass, item by item *)

Lemma takes_pragma_type b :
  takes_pragma b = true ->
  type_of b = TDeclaration \/ type_of b = TCallStatement \/ type_of b = TLoop.
Proof.
  unfold takes_pragma. intros H. apply orb_true_iff in H as [H|H].
  - apply orb_true_iff in H as [H|H]; apply bool_decide_eq_true in H; auto.
  - apply bool_decide_eq_true in H. auto.
Qed.

Lemma in_pragma_entries items key v :
  In (key, v) (local_mapper pragma_finders inline_pragmas_entries items)
  <-> exists i p b,
      items !! i = Some (Pragma p) /\ items !! S i = Some b /\ takes_pragma b = true
      /\ ((key = [i] /\ v = None) \/ (key = [S i] /\ v = Some (set_pragma b p))).
Proof.
  unfold local_mapper, pragma_finders. cbn [flat_map]. rewrite app_nil_r.
  rewrite in_flat_map. split.
  - intros (m & Hm & Hkv).
    assert (exists i a b, items !! i = Some a /\ items !! S i = Some b
                          /\ type_of a = TPragma /\ takes_pragma b = true
                          /\ m = mkMatch [] i [a; b])
      as (i & a & b & Ea & Eb & Ha & Hb & ->).
    { apply in_app_or in Hm as [Hm|Hm]; [|apply in_app_or in Hm as [Hm|Hm]];
        apply in_tuple_matches in Hm as (i & a & b & Ea & Eb & Ha & Hb & ->);
        exists i, a, b; repeat split; auto; unfold takes_pragma; rewrite Hb; reflexivity. }
    destruct a as [| | | | |p0| | | |]; try discriminate.
    unfold inline_pragmas_entries in Hkv. cbn [m_nodes] in Hkv.
    exists i, p0, b. split; [exact Ea|]. split; [exact Eb|]. split; [exact Hb|].
    unfold node_key in Hkv. cbn [m_tuple m_index app] in Hkv.
    rewrite Nat.add_0_r, Nat.add_1_r in Hkv.
    destruct Hkv as [[= <- <-]|[[= <- <-]|[]]]; auto.
  - intros (i & p0 & b & Ea & Eb & Ht & Hkv).
    exists (mkMatch [] i [Pragma p0; b]). split.
    + destruct (takes_pragma_type _ Ht) as [Hb|[Hb|Hb]].
      * apply in_or_app. left. apply in_tuple_matches. exists i, (Pragma p0), b. auto 10.
      * apply in_or_app. right. apply in_or_app. left.
        apply in_tuple_matches. exists i, (Pragma p0), b. auto 10.
      * apply in_or_app. right. apply in_or_app. right.
        apply in_tuple_matches. exists i, (Pragma p0), b. auto 10.
    + unfold inline_pragmas_entries. cbn [m_nodes].
      unfold node_key. cbn [m_tuple m_index app]. rewrite Nat.add_0_r, Nat.add_1_r.
      destruct Hkv as [[-> ->]|[-> ->]]; [left | right; left]; reflexivity.
Qed.

Lemma pragma_not_taking p : takes_pragma (Pragma p) = false.
Proof. reflexivity. Qed.

Lemma pragma_handle_pair items k p b :
  items !! k = Some (Pragma p) -> items !! S k = Some b -> takes_pragma b = true ->
  mapper_get (local_mapper pragma_finders inline_pragmas_entries items) [k] = Some None
  /\ mapper_get (local_mapper pragma_finders inline_pragmas_entries items) [S k]
     = Some (Some (set_pragma b p)).
Proof.
  intros Ea Eb Ht. split; apply mapper_get_unique.
  - apply in_pragma_entries. exists k, p, b. auto 10.
  - intros v' Hv'. apply in_pragma_entries in Hv'
      as (i & p' & b' & Ea' & Eb' & Ht' & [[[= <-] ->]|[[= ->] ->]]).
    + reflexivity.
    + rewrite Ea in Eb'. injection Eb' as <-. rewrite pragma_not_taking in Ht'.
      discriminate.
  - apply in_pragma_entries. exists k, p, b. auto 10.
  - intros v' Hv'. apply in_pragma_entries in Hv'
      as (i & p' & b' & Ea' & Eb' & Ht' & [[[= <-] ->]|[[= <-] ->]]).
    + rewrite Eb in Ea'. injection Ea' as ->. rewrite pragma_not_taking in Ht.
      discriminate.
    + congruence.
Qed.

Lemma pragma_handle_none items k a :
  items !! k = Some a ->
  (forall p b, a = Pragma p -> items !! S k = Some b -> takes_pragma b = false) ->
  (forall k' p, k = S k' -> items !! k' = Some (Pragma p) -> takes_pragma a = false) ->
  mapper_get (local_mapper pragma_finders inline_pragmas_entries items) [k] = None.
Proof.
  intros Ea Hnext Hprev. apply mapper_get_absent. intros v Hv.
  apply in_pragma_entries in Hv
    as (i & p & b & Ea' & Eb' & Ht' & [[[= <-] ->]|[[= ->] ->]]).
  - rewrite Ea in Ea'. injection Ea' as ->.
    rewrite (Hnext p b eq_refl Eb') in Ht'. discriminate.
  - rewrite Ea in Eb'. injection Eb' as ->.
    rewrite (Hprev i p eq_refl Ea') in Ht'. discriminate.
Qed.

Lemma apply_handle_pragma g b p :
  takes_pragma b = true ->
  apply_handle (Some (Some (set_pragma b p))) (descend g b)
  = Some (set_pragma (descend g b) p).
Proof. destruct b; cbn; try discriminate; reflexivity. Qed.

Lemma pragmas_items g items :
  forall n suf pre,
    (length suf <= n)%nat -> items = pre ++ suf ->
    (forall k' p b, length pre = S k' -> items !! k' = Some (Pragma p) ->
                    head suf = Some b -> takes_pragma b = false) ->
    visit_items (fun k c =>
                   apply_handle
                     (mapper_get (local_mapper pragma_finders inline_pragmas_entries items)
                                 [k])
                     (descend g c))
                suf (length pre)
    = attach_pragmas_in (descend g) suf.
Proof.
  induction n as [|n IH]; intros suf pre Hlen Hitems Hprev.
  - destruct suf; [reflexivity | cbn in Hlen; lia].
  - destruct suf as [|a rest]; [reflexivity|].
    assert (Ea : items !! length pre = Some a)
      by (rewrite Hitems; apply list_lookup_middle; reflexivity).
    assert (Hrest : items = (pre ++ [a]) ++ rest) by (rewrite <- app_assoc; exact Hitems).
    assert (Hlen1 : length (pre ++ [a]) = S (length pre))
      by (rewrite length_app; cbn; lia).
    assert (Hkeep : (forall p b, a = Pragma p -> head rest = Some b ->
                                 takes_pragma b = false) ->
                visit_items (fun k c =>
                   apply_handle
                     (mapper_get (local_mapper pragma_finders inline_pragmas_entries items)
                                 [k])
                     (descend g c))
                  (a :: rest) (length pre)
                = descend g a :: attach_pragmas_in (descend g) rest).
    { intros Hno. rewrite visit_items_cons.
      rewrite (pragma_handle_none items (length pre) a Ea).
      - rewrite apply_handle_none. f_equal.
        rewrite <- (IH rest (pre ++ [a])).
        + f_equal. exact (eq_sym Hlen1).
        + cbn in Hlen. lia.
        + exact Hrest.
        + intros k' p b Hk Hz Hhd. rewrite Hlen1 in Hk. injection Hk as <-.
          rewrite Ea in Hz. injection Hz as ->. exact (Hno p b eq_refl Hhd).
      - intros p b -> Hb. apply (Hno p b eq_refl).
        rewrite Hrest, <- Hlen1 in Hb. destruct rest as [|b' rest'].
        + rewrite lookup_ge_None_2 in Hb; [discriminate|]. rewrite app_nil_r. lia.
        + rewrite list_lookup_middle in Hb by reflexivity. exact Hb.
      - intros k' p Hk Hz. apply (Hprev k' p a Hk Hz). reflexivity. }
    destruct a as [| | | | |p| | | |]; try (apply Hkeep; intros; discriminate).
    destruct rest as [|b rest']; [apply Hkeep; intros; discriminate|].
    cbn [attach_pragmas_in].
    destruct (takes_pragma b) eqn:Ht.
    + assert (Eb : items !! S (length pre) = Some b).
      { rewrite Hrest, <- Hlen1. apply list_lookup_middle. reflexivity. }
      destruct (pragma_handle_pair items _ _ _ Ea Eb Ht) as [H1 H2].
      rewrite visit_items_cons, H1.
      rewrite apply_handle_drop by (rewrite descend_type; discriminate).
      rewrite visit_items_cons, H2, apply_handle_pragma by exact Ht.
      f_equal. rewrite <- (IH rest' (pre ++ [Pragma p; b])).
      * f_equal. rewrite length_app. cbn. lia.
      * cbn in Hlen. lia.
      * rewrite <- app_assoc. exact Hitems.
      * intros k' p' b' Hk Hz Hhd. rewrite length_app in Hk. cbn in Hk.
        assert (k' = S (length pre)) as -> by lia.
        rewrite Eb in Hz. injection Hz as ->. rewrite pragma_not_taking in Ht.
        discriminate.
    + apply Hkeep. intros p' b' _ [= <-]. exact Ht.
Qed.

(** *** The clustering pass, item by item *)

Lemma groupby_head x rest i :
  exists g groups, groupby_type (x :: rest) i = (type_of x, i, x :: g) :: groups.
Proof.
  cbn [groupby_type]. destruct (groupby_type rest (S i)) as [|[[t j] g] groups]; [eauto|].
  destruct (decide (t = type_of x)) as [->|]; eauto.
Qed.

Lemma groups_from_skip x rest i :
  type_of x <> TComment -> groups_from TComment (x :: rest) i = groups_from TComment rest (S i).
Proof.
  intros Hx. unfold groups_from. cbn [groupby_type].
  destruct (groupby_type rest (S i)) as [|[[t j] g] groups].
  - cbn. rewrite bool_decide_eq_false_2 by exact Hx. reflexivity.
  - destruct (decide (t = type_of x)) as [->|Hne]; cbn [omap list_omap].
    + rewrite !bool_decide_eq_false_2 by exact Hx. reflexivity.
    + rewrite (bool_decide_eq_false_2 (type_of x = TComment)) by exact Hx. reflexivity.
Qed.

Lemma groupby_run cs rest i :
  cs <> [] -> (forall x, head rest = Some x -> type_of x <> TComment) ->
  groupby_type (map Comment cs ++ rest) i
  = (TComment, i, map Comment cs) :: groupby_type rest (i + length cs).
Proof.
  intros Hcs Hrest. revert i. induction cs as [|c cs IH]; intros i; [contradiction|].
  destruct cs as [|c2 cs].
  - cbn [map app length]. rewrite Nat.add_1_r. cbn [groupby_type].
    destruct rest as [|x rest']; [reflexivity|].
    destruct (groupby_head x rest' (S i)) as (g & groups & E). rewrite E.
    destruct (decide (type_of x = type_of (Comment c))) as [Heq|]; [|reflexivity].
    exfalso. exact (Hrest x eq_refl Heq).
  - change (map Comment (c :: c2 :: cs) ++ rest)
      with (Comment c :: (map Comment (c2 :: cs) ++ rest)).
    cbn [groupby_type]. rewrite IH by discriminate.
    destruct (decide (TComment = type_of (Comment c))); [|contradiction].
    replace (S i + length (c2 :: cs))%nat with (i + length (c :: c2 :: cs))%nat
      by (cbn [length]; lia).
    reflexivity.
Qed.

Lemma groups_from_run cs rest i :
  (forall x, head rest = Some x -> type_of x <> TComment) ->
  flat_map cluster_comments_entries (groups_from TComment (map Comment cs ++ rest) i)
  = run_entries i cs
    ++ flat_map cluster_comments_entries (groups_from TComment rest (i + length cs)).
Proof.
  intros Hrest. destruct cs as [|c cs].
  - cbn. rewrite Nat.add_0_r. reflexivity.
  - unfold groups_from. rewrite groupby_run by (auto; discriminate).
    cbn [omap list_omap]. unfold run_entries.
    rewrite bool_decide_eq_true_2 by reflexivity. rewrite length_map. cbn [andb].
    destruct (1 <? length (c :: cs))%nat; [|reflexivity].
    cbn [flat_map]. reflexivity.
Qed.

Lemma groupby_indices items i t j g :
  In (t, j, g) (groupby_type items i) -> (i <= j)%nat.
Proof.
  revert i t j g. induction items as [|x rest IH]; intros i t j g; [intros []|].
  cbn [groupby_type]. destruct (groupby_type rest (S i)) as [|[[t' j'] g'] groups] eqn:E.
  - intros [[= _ <- _]|[]]. lia.
  - assert (Hhd : (S i <= j')%nat) by (apply (IH (S i) t' j' g'); rewrite E; left; reflexivity).
    assert (Hrest : forall ty jy gy, In (ty, jy, gy) groups -> (S i <= jy)%nat).
    { intros ty jy gy Hy. apply (IH (S i) ty jy gy). rewrite E. right. exact Hy. }
    destruct (decide (t' = type_of x)).
    + intros [[= _ <- _]|Hin]; [lia|]. specialize (Hrest _ _ _ Hin). lia.
    + intros [[= _ <- _]|[[= _ <- _]|Hin]]; [lia|lia|]. specialize (Hrest _ _ _ Hin). lia.
Qed.

Lemma keys_groups_from items i :
  keys_ge i (flat_map cluster_comments_entries (groups_from TComment items i)).
Proof.
  intros kv Hin. apply in_flat_map in Hin as (m & Hm & Hkv).
  unfold groups_from in Hm. apply list_elem_of_In, list_elem_of_omap in Hm.
  destruct Hm as ([[t j] g] & Hg & Hsel).
  destruct (bool_decide (t = TComment) && (1 <? length g)%nat); [|discriminate].
  injection Hsel as <-. apply list_elem_of_In, groupby_indices in Hg.
  unfold cluster_comments_entries, node_key in Hkv. cbn [m_tuple m_index m_nodes app] in Hkv.
  destruct Hkv as [<-|Hkv].
  - eexists. split; [reflexivity | lia].
  - apply in_map_iff in Hkv as (jj & <- & _). eexists. split; [reflexivity | lia].
Qed.

Lemma omap_comment_of cs : omap comment_of (map Comment cs) = cs.
Proof. induction cs as [|c cs IH]; [reflexivity|]. cbn. f_equal. exact IH. Qed.

Lemma in_run_entries j cs key v :
  In (key, v) (run_entries j cs)
  <-> (1 < length cs)%nat
      /\ ((key = [j] /\ v = Some (CommentBlock cs (block_source cs)))
          \/ exists jj, (1 <= jj < length cs)%nat /\ key = [(j + jj)%nat] /\ v = None).
Proof.
  unfold run_entries. destruct (1 <? length cs)%nat eqn:E.
  - apply Nat.ltb_lt in E. unfold cluster_comments_entries, node_key.
    cbn [m_tuple m_index m_nodes app]. rewrite omap_comment_of, length_map, Nat.add_0_r.
    split.
    + intros [[= <- <-]|H]; [auto|].
      apply in_map_iff in H as (jj & [= <- <-] & Hjj). apply in_seq in Hjj.
      split; [exact E|]. right. exists jj. split; [lia|]. auto.
    + intros [_ [[-> ->]|(jj & Hjj & -> & ->)]]; [left; reflexivity|].
      right. apply in_map_iff. exists jj. split; [reflexivity|]. apply in_seq. lia.
  - apply Nat.ltb_ge in E. split; [intros [] | intros [H _]; lia].
Qed.

Lemma keys_run_entries j cs : keys_ge j (run_entries j cs).
Proof.
  intros [key v] Hin. apply in_run_entries in Hin as [_ [[-> _]|(jj & Hjj & -> & _)]];
    eexists; (split; [reflexivity | lia]).
Qed.

Lemma keys_run_entries_lt j cs : keys_lt (j + length cs) (run_entries j cs).
Proof.
  intros [key v] Hin. apply in_run_entries in Hin as [Hl [[-> _]|(jj & Hjj & -> & _)]];
    eexists; (split; [reflexivity | lia]).
Qed.

Lemma mapper_get_keys_lt j M k : keys_lt j M -> (j <= k)%nat -> mapper_get M [k] = None.
Proof.
  intros HM Hk. apply mapper_get_none. intros kv Hin.
  destruct (HM kv Hin) as (k' & -> & Hk'). intros [= ->]. lia.
Qed.

Lemma mapper_get_keys_ge j M k : keys_ge j M -> (k < j)%nat -> mapper_get M [k] = None.
Proof.
  intros HM Hk. apply mapper_get_none. intros kv Hin.
  destruct (HM kv Hin) as (k' & -> & Hk'). intros [= ->]. lia.
Qed.

(** The entry of an item of a run, with entries for earlier items before
    and entries for later items after those of the run. *)
Lemma run_handle Mpre Mpost j cs k :
  keys_lt j Mpre -> keys_ge (j + length cs) Mpost ->
  (j <= k < j + length cs)%nat ->
  mapper_get (Mpre ++ run_entries j cs ++ Mpost) [k]
  = if (1 <? length cs)%nat
    then if decide (k = j) then Some (Some (CommentBlock cs (block_source cs)))
         else Some None
    else None.
Proof.
  intros Hpre Hpost Hk. rewrite !mapper_get_app.
  rewrite (mapper_get_keys_ge _ _ _ Hpost) by lia.
  rewrite (mapper_get_keys_lt _ _ _ Hpre) by lia.
  destruct (1 <? length cs)%nat eqn:E.
  - apply Nat.ltb_lt in E. destruct (decide (k = j)) as [->|Hne].
    + rewrite (mapper_get_unique _ _ (Some (CommentBlock cs (block_source cs)))).
      * reflexivity.
      * apply in_run_entries. auto.
      * intros v' Hv'. apply in_run_entries in Hv' as [_ [[_ ->]|(jj & Hjj & [= Hj] & _)]];
          [reflexivity | lia].
    + rewrite (mapper_get_unique _ _ None).
      * reflexivity.
      * apply in_run_entries. split; [exact E|]. right. exists (k - j)%nat.
        split; [lia|]. split; [f_equal; lia | reflexivity].
      * intros v' Hv'. apply in_run_entries in Hv' as [_ [[[= Hj] _]|(jj & _ & _ & ->)]];
          [lia | reflexivity].
  - rewrite mapper_get_absent; [reflexivity|].
    intros v Hv. apply in_run_entries in Hv as [Hl _]. apply Nat.ltb_ge in E. lia.
Qed.

Lemma visit_items_app f l1 l2 i :
  visit_items f (l1 ++ l2) i = visit_items f l1 i ++ visit_items f l2 (i + length l1).
Proof.
  revert i. induction l1 as [|c l1 IH]; intros i.
  - cbn. rewrite Nat.add_0_r. reflexivity.
  - cbn [app]. rewrite !visit_items_cons, IH. cbn [length].
    replace (S i + length l1)%nat with (i + S (length l1))%nat by lia.
    destruct (f i c); reflexivity.
Qed.

Lemma run_dropped g (h : nat -> option (option Node)) cs i :
  (forall k, (i <= k < i + length cs)%nat -> h k = Some None) ->
  visit_items (fun k c => apply_handle (h k) (descend g c)) (map Comment cs) i = [].
Proof.
  revert i. induction cs as [|c cs IH]; intros i H; [reflexivity|].
  cbn [map]. rewrite visit_items_cons, H by (cbn; lia). cbn [descend apply_handle replace].
  apply IH. intros k Hk. apply H. cbn. lia.
Qed.

Lemma run_flushed g (h : nat -> option (option Node)) cs j :
  (forall k, (j <= k < j + length cs)%nat ->
             h k = if (1 <? length cs)%nat
                   then if decide (k = j)
                        then Some (Some (CommentBlock cs (block_source cs)))
                        else Some None
                   else None) ->
  visit_items (fun k c => apply_handle (h k) (descend g c)) (map Comment cs) j = flush cs.
Proof.
  intros H. destruct cs as [|c [|c2 cs]]; [reflexivity| |].
  - cbn [map]. rewrite visit_items_cons, H by (cbn; lia). reflexivity.
  - change (map Comment (c :: c2 :: cs)) with (Comment c :: map Comment (c2 :: cs)).
    rewrite visit_items_cons, H by (cbn; lia).
    change (1 <? length (c :: c2 :: cs))%nat with true. cbn iota.
    destruct (decide (j = j)); [|contradiction].
    cbn [descend apply_handle replace children rebuild].
    rewrite run_dropped; [reflexivity|].
    intros k Hk. rewrite H by (cbn in *; lia).
    change (1 <? length (c :: c2 :: cs))%nat with true. cbn iota.
    destruct (decide (k = j)); [lia | reflexivity].
Qed.

Lemma cluster_in_other f cs x rest :
  type_of x <> TComment ->
  cluster_in f cs (x :: rest) = flush cs ++ f x :: cluster_in f [] rest.
Proof. destruct x; cbn; try reflexivity. contradiction. Qed.

Lemma keys_lt_app j j' M M' :
  keys_lt j M -> keys_lt j' M' -> (j <= j')%nat -> keys_lt j' (M ++ M').
Proof.
  intros H H' Hj kv Hin. apply in_app_or in Hin as [Hin|Hin].
  - destruct (H kv Hin) as (k & E & Hk). exists k. split; [exact E | lia].
  - exact (H' kv Hin).
Qed.

Lemma keys_ge_weaken j j' M : keys_ge j M -> (j' <= j)%nat -> keys_ge j' M.
Proof.
  intros H Hj kv Hin. destruct (H kv Hin) as (k & E & Hk). exists k. split; [exact E | lia].
Qed.

Lemma keys_lt_weaken j j' M : keys_lt j M -> (j <= j')%nat -> keys_lt j' M.
Proof.
  intros H Hj kv Hin. destruct (H kv Hin) as (k & E & Hk). exists k. split; [exact E | lia].
Qed.

Lemma cluster_items g :
  forall l cs j Mpre,
    keys_lt j Mpre ->
    visit_items
      (fun k c =>
         apply_handle
           (mapper_get (Mpre ++ flat_map cluster_comments_entries
                                         (groups_from TComment (map Comment cs ++ l) j))
                       [k])
           (descend g c))
      (map Comment cs ++ l) j
    = cluster_in (descend g) cs l.
Proof.
  induction l as [|x rest IH]; intros cs j Mpre Hpre.
  - rewrite groups_from_run by discriminate. cbn [groups_from groupby_type omap list_omap
                                                   flat_map].
    rewrite !app_nil_r. cbn [cluster_in]. apply run_flushed.
    intros k Hk. rewrite <- (app_nil_r (run_entries j cs)).
    apply run_handle; [exact Hpre | intros kv [] | exact Hk].
  - assert (Hnc : type_of x <> TComment ->
              visit_items
                (fun k c =>
                   apply_handle
                     (mapper_get (Mpre ++ flat_map cluster_comments_entries
                                      (groups_from TComment (map Comment cs ++ x :: rest) j))
                                 [k])
                     (descend g c))
                (map Comment cs ++ x :: rest) j
              = cluster_in (descend g) cs (x :: rest)).
    { intros Hx. rewrite cluster_in_other by exact Hx.
      rewrite groups_from_run by (intros y [= <-]; exact Hx).
      rewrite groups_from_skip by exact Hx.
      set (Mpost := flat_map cluster_comments_entries
                             (groups_from TComment rest (S (j + length cs)))).
      assert (Hpost : keys_ge (S (j + length cs)) Mpost) by apply keys_groups_from.
      assert (Hrun : keys_lt (j + length cs) (Mpre ++ run_entries j cs)).
      { apply (keys_lt_app j); [exact Hpre | apply keys_run_entries_lt | lia]. }
      rewrite visit_items_app, length_map. f_equal.
      - apply run_flushed. intros k Hk.
        apply run_handle; [exact Hpre | | exact Hk].
        eapply keys_ge_weaken; [exact Hpost | lia].
      - rewrite visit_items_cons.
        rewrite app_assoc, mapper_get_app.
        rewrite (mapper_get_keys_ge _ _ _ Hpost) by lia.
        rewrite (mapper_get_keys_lt _ _ _ Hrun) by lia.
        rewrite apply_handle_none. f_equal.
        apply (IH [] (S (j + length cs)) (Mpre ++ run_entries j cs)).
        eapply keys_lt_weaken; [exact Hrun | lia]. }
    destruct x; try (apply Hnc; discriminate).
    replace (map Comment cs ++ Comment c :: rest) with (map Comment (cs ++ [c]) ++ rest)
      by (rewrite map_app, <- app_assoc; reflexivity).
    cbn [cluster_in]. apply IH. exact Hpre.
Qed.

Lemma cluster_comments_items g items :
  visit_items (fun k c =>
                 apply_handle
                   (mapper_get (local_mapper [tuple_groups TComment] cluster_comments_entries
                                             items) [k])
                   (descend g c))
              items 0
  = cluster_in (descend g) [] items.
Proof.
  unfold local_mapper. cbn [flat_map]. rewrite app_nil_r.
  exact (cluster_items g items [] 0%nat [] (fun kv (H : In kv []) => match H with end)).
Qed.

Lemma inline_comments_items g items :
  visit_items (fun k c =>
                 apply_handle
                   (mapper_get (local_mapper comment_finders inline_comments_entries items)
                               [k])
                   (descend g c))
              items 0
  = merge_comments_in (descend g) items.
Proof.
  apply (comments_items g items (length items) items []); [lia | reflexivity |].
  intros k' z c Hk. discriminate Hk.
Qed.

Lemma inline_pragmas_items g items :
  visit_items (fun k c =>
                 apply_handle
                   (mapper_get (local_mapper pragma_finders inline_pragmas_entries items)
                               [k])
                   (descend g c))
              items 0
  = attach_pragmas_in (descend g) items.
Proof.
  apply (pragmas_items g items (length items) items []); [lia | reflexivity |].
  intros k' z c Hk. discriminate Hk.
Qed.

(** *** From the sequences to the tree *)

Lemma rewrite_unfold local o :
  rewrite local o
  = descend (fun items =>
               visit_items (fun i c => apply_handle (mapper_get (local items) [i])
                                                      (rewrite local c))
                           items 0) o.
Proof. destruct o; reflexivity. Qed.

Lemma descend_ext f g o :
  match o with
  | Tuple items => f items = g items
  | Loop _ _ body _ _ => f body = g body
  | Conditional _ bodies else_body _ => f bodies = g bodies /\ f else_body = g else_body
  | _ => True
  end ->
  descend f o = descend g o.
Proof.
  destruct o; cbn [descend]; try reflexivity.
  - intros ->. reflexivity.
  - intros ->. reflexivity.
  - intros [-> ->]. reflexivity.
Qed.

Lemma merge_comments_in_ext f g items :
  Forall (fun x => f x = g x) items -> merge_comments_in f items = merge_comments_in g items.
Proof.
  remember (length items) as n eqn:Hn.
  assert (Hlen : (length items <= n)%nat) by lia. clear Hn.
  revert items Hlen. induction n as [|n IH]; intros items Hlen Hall.
  - destruct items; [reflexivity | cbn in Hlen; lia].
  - destruct items as [|a rest]; [reflexivity|].
    inversion Hall as [|? ? Ha Hrest]; subst.
    assert (E : merge_comments_in f rest = merge_comments_in g rest)
      by (apply IH; [cbn in Hlen; lia | exact Hrest]).
    cbn [merge_comments_in]. rewrite Ha.
    destruct rest as [|b rest']; [reflexivity|].
    destruct b; try (rewrite E; reflexivity).
    destruct (takes_comment a c); [|rewrite E; reflexivity].
    f_equal. inversion Hrest; subst. apply IH; [cbn in Hlen; lia | assumption].
Qed.

Lemma attach_pragmas_in_ext f g items :
  Forall (fun x => f x = g x) items -> attach_pragmas_in f items = attach_pragmas_in g items.
Proof.
  remember (length items) as n eqn:Hn.
  assert (Hlen : (length items <= n)%nat) by lia. clear Hn.
  revert items Hlen. induction n as [|n IH]; intros items Hlen Hall.
  - destruct items; [reflexivity | cbn in Hlen; lia].
  - destruct items as [|a rest]; [reflexivity|].
    inversion Hall as [|? ? Ha Hrest]; subst.
    assert (E : attach_pragmas_in f rest = attach_pragmas_in g rest)
      by (apply IH; [cbn in Hlen; lia | exact Hrest]).
    cbn [attach_pragmas_in]. rewrite Ha.
    destruct a as [| | | | |p| | | |]; try (rewrite E; reflexivity).
    destruct rest as [|b rest']; [reflexivity|].
    inversion Hrest as [|? ? Hb Hrest']; subst. rewrite Hb.
    destruct (takes_pragma b); [|rewrite E; reflexivity].
    f_equal. apply IH; [cbn in Hlen; lia | assumption].
Qed.

Lemma cluster_in_ext f g items :
  Forall (fun x => f x = g x) items ->
  forall run, cluster_in f run items = cluster_in g run items.
Proof.
  induction 1 as [|a rest Ha Hrest IH]; intros run; [reflexivity|].
  destruct a; cbn [cluster_in]; rewrite ?Ha, ?IH; reflexivity.
Qed.

(** A pass whose entries rewrite every sequence as [spec_in] says rewrites
    the tree as the recursive [spec] says. *)
Lemma rewrite_is local (spec_in : (Node -> Node) -> list Node -> list Node) spec :
  (forall g items,
      visit_items (fun k c => apply_handle (mapper_get (local items) [k]) (descend g c))
                  items 0
      = spec_in (descend g) items) ->
  (forall f g items, Forall (fun x => f x = g x) items -> spec_in f items = spec_in g items) ->
  (forall o, spec o = descend (spec_in spec) o) ->
  forall o, rewrite local o = spec o.
Proof.
  intros Hitems Hext Hspec.
  set (G := fun items =>
              visit_items (fun i c => apply_handle (mapper_get (local items) [i])
                                                     (rewrite local c))
                          items 0).
  assert (HG : forall o, rewrite local o = descend G o) by apply rewrite_unfold.
  assert (Hseq : forall items, Forall (fun c => rewrite local c = spec c) items ->
                               G items = spec_in spec items).
  { intros items Hall. unfold G at 1.
    rewrite (visit_items_ext _ (fun i c => apply_handle (mapper_get (local items) [i])
                                                        (descend G c))).
    - rewrite Hitems. apply Hext.
      eapply Forall_impl; [exact Hall|]. intros c Hc. cbn beta. rewrite <- HG. exact Hc.
    - intros k c _. rewrite HG. reflexivity. }
  induction o as [o IH] using Node_subnodes_ind.
  rewrite HG, Hspec. apply descend_ext.
  destruct o; cbn [subnodes] in IH |- *; try (apply Hseq; exact IH); try exact I.
  apply Forall_app in IH as [IH1 IH2]. split; apply Hseq; assumption.
Qed.

Lemma merged_comments_unfold o :
  merged_comments o = descend (merge_comments_in merged_comments) o.
Proof. destruct o; reflexivity. Qed.

Lemma clustered_comments_unfold o :
  clustered_comments o = descend (cluster_in clustered_comments []) o.
Proof. destruct o; reflexivity. Qed.

Lemma attached_pragmas_unfold o :
  attached_pragmas o = descend (attach_pragmas_in attached_pragmas) o.
Proof. destruct o; reflexivity. Qed.

(** The three passes, as rewrites of the tree. *)
Lemma inline_comments_merges ir : inline_comments ir = Some (merged_comments ir).
Proof.
  rewrite inline_comments_rewrites. f_equal.
  apply (rewrite_is _ merge_comments_in).
  - apply inline_comments_items.
  - apply merge_comments_in_ext.
  - apply merged_comments_unfold.
Qed.

Lemma cluster_comments_clusters ir : cluster_comments ir = Some (clustered_comments ir).
Proof.
  rewrite cluster_comments_rewrites. f_equal.
  apply (rewrite_is _ (fun inside => cluster_in inside [])).
  - apply cluster_comments_items.
  - intros f g items H. apply cluster_in_ext. exact H.
  - apply clustered_comments_unfold.
Qed.

Lemma inline_pragmas_attaches ir : inline_pragmas ir = Some (attached_pragmas ir).
Proof.
  rewrite inline_pragmas_rewrites. f_equal.
  apply (rewrite_is _ attach_pragmas_in).
  - apply inline_pragmas_items.
  - apply attach_pragmas_in_ext.
  - apply attached_pragmas_unfold.
Qed.

(** *** A pass run on its own result: the sequences *)

Lemma cluster_flush g run :
  (forall cs s, g (CommentBlock cs s) = CommentBlock cs s) ->
  cluster_in g [] (flush run) = flush run.
Proof.
  intros Hg. destruct run as [|c [|c2 run]]; [reflexivity | reflexivity |].
  cbn. rewrite Hg. reflexivity.
Qed.

Lemma cluster_flush_cons g run y l :
  (forall cs s, g (CommentBlock cs s) = CommentBlock cs s) ->
  type_of y <> TComment ->
  cluster_in g [] (flush run ++ y :: l) = flush run ++ g y :: cluster_in g [] l.
Proof.
  intros Hg Hy. destruct run as [|c [|c2 run]].
  - apply cluster_in_other. exact Hy.
  - cbn [flush app cluster_in]. apply (cluster_in_other g [c]). exact Hy.
  - cbn [flush app]. rewrite cluster_in_other by discriminate. rewrite Hg.
    cbn [flush app]. f_equal. apply cluster_in_other. exact Hy.
Qed.

Lemma cluster_twice f g :
  (forall cs s, g (CommentBlock cs s) = CommentBlock cs s) ->
  (forall x, type_of (f x) = type_of x) ->
  forall items run,
    cluster_in g [] (cluster_in f run items) = cluster_in (fun x => g (f x)) run items.
Proof.
  intros Hg Hty. induction items as [|a rest IH]; intros run.
  - apply cluster_flush. exact Hg.
  - destruct (decide (type_of a = TComment)) as [E|E].
    + destruct a; try discriminate. cbn [cluster_in]. apply IH.
    + rewrite !cluster_in_other by exact E.
      rewrite cluster_flush_cons by (try exact Hg; rewrite Hty; exact E).
      rewrite IH. reflexivity.
Qed.

Lemma all_triples_cons R a rest : all_triples R (a :: rest) = true -> all_triples R rest = true.
Proof. cbn [all_triples]. intros H. apply andb_true_iff in H as [_ H]. exact H. Qed.

Lemma all_triples_head R a b c l : all_triples R (a :: b :: c :: l) = true -> R a b c = true.
Proof. cbn [all_triples]. intros H. apply andb_true_iff in H as [H _]. exact H. Qed.

Lemma set_pragma_type o p : type_of (set_pragma o p) = type_of o.
Proof. destruct o; reflexivity. Qed.

Lemma takes_pragma_by_type x y : type_of x = type_of y -> takes_pragma x = takes_pragma y.
Proof. unfold takes_pragma. intros ->. reflexivity. Qed.

Lemma takes_pragma_not_pragma b : takes_pragma b = true -> type_of b <> TPragma.
Proof. intros H E. apply takes_pragma_type in H as [H|[H|H]]; congruence. Qed.

Lemma attach_cons_other f a L :
  type_of a <> TPragma -> attach_pragmas_in f (a :: L) = f a :: attach_pragmas_in f L.
Proof.
  destruct a; cbn [attach_pragmas_in]; try reflexivity.
  intros H. exfalso. apply H. reflexivity.
Qed.

Lemma attach_cons_keep f p L :
  (forall b, head L = Some b -> takes_pragma b = false) ->
  attach_pragmas_in f (Pragma p :: L) = f (Pragma p) :: attach_pragmas_in f L.
Proof.
  destruct L as [|b L']; [reflexivity|]. intros H.
  cbn [attach_pragmas_in]. rewrite (H b eq_refl). reflexivity.
Qed.

Lemma attach_cons_take f p b L :
  takes_pragma b = true ->
  attach_pragmas_in f (Pragma p :: b :: L) = set_pragma (f b) p :: attach_pragmas_in f L.
Proof. intros H. cbn [attach_pragmas_in]. rewrite H. reflexivity. Qed.

Lemma attach_head f b rest y :
  (forall x, type_of (f x) = type_of x) ->
  takes_pragma b = false ->
  (forall c, type_of b = TPragma -> head rest = Some c -> takes_pragma c = false) ->
  head (attach_pragmas_in f (b :: rest)) = Some y -> takes_pragma y = false.
Proof.
  intros Hty Hb Hc. destruct (decide (type_of b = TPragma)) as [E|E].
  - destruct b as [| | | | |p| | | |]; try discriminate.
    rewrite attach_cons_keep by (intros c; apply Hc; reflexivity).
    intros [= <-]. rewrite (takes_pragma_by_type _ (Pragma p)) by apply Hty. reflexivity.
  - rewrite attach_cons_other by exact E.
    intros [= <-]. rewrite (takes_pragma_by_type _ b) by apply Hty. exact Hb.
Qed.

Lemma attach_pragmas_twice f :
  (forall y p, f (set_pragma y p) = set_pragma (f y) p) ->
  (forall x, type_of (f x) = type_of x) ->
  (forall p, f (Pragma p) = Pragma p) ->
  forall n items,
    (length items <= n)%nat ->
    Forall (fun x => f (f x) = f x) items ->
    pragmas_settled items = true ->
    attach_pragmas_in f (attach_pragmas_in f items) = attach_pragmas_in f items.
Proof.
  intros Hset Hty Hprag. induction n as [|n IH]; intros items Hlen Hall HQ.
  - destruct items; [reflexivity | cbn in Hlen; lia].
  - destruct items as [|a rest]; [reflexivity|].
    inversion Hall as [|? ? Ha Hrest]; subst.
    pose proof (all_triples_cons _ _ _ HQ) as HQrest.
    assert (IHrest : attach_pragmas_in f (attach_pragmas_in f rest) = attach_pragmas_in f rest)
      by (apply IH; [cbn in Hlen; lia | exact Hrest | exact HQrest]).
    destruct (decide (type_of a = TPragma)) as [E|E].
    + destruct a as [| | | | |p| | | |]; try discriminate.
      destruct rest as [|b rest'].
      * cbn [attach_pragmas_in]. rewrite Hprag.
        cbn [attach_pragmas_in]. rewrite Hprag. reflexivity.
      * destruct (takes_pragma b) eqn:Hb.
        -- rewrite attach_cons_take by exact Hb.
           rewrite attach_cons_other
             by (rewrite set_pragma_type, Hty; apply takes_pragma_not_pragma; exact Hb).
           rewrite Hset. inversion Hrest as [|? ? Hfb Hrest']; subst. rewrite Hfb. f_equal.
           apply IH; [cbn in Hlen; lia | exact Hrest' |].
           exact (all_triples_cons _ _ _ HQrest).
        -- rewrite (attach_cons_keep f p (b :: rest')) by (intros ? [= <-]; exact Hb).
           rewrite Hprag. rewrite attach_cons_keep.
           ++ rewrite Hprag, IHrest. reflexivity.
           ++ intros y Hy. apply (attach_head f b rest' y Hty Hb); [|exact Hy].
              intros c Eb Hc. destruct rest' as [|c' rest'']; [discriminate|].
              injection Hc as ->. apply all_triples_head in HQ.
              rewrite Eb in HQ. cbn in HQ.
              destruct (takes_pragma c); [discriminate | reflexivity].
    + rewrite attach_cons_other by exact E.
      rewrite attach_cons_other by (rewrite Hty; exact E).
      rewrite Ha, IHrest. reflexivity.
Qed.

Lemma merge_cons_take f a c L :
  takes_comment a c = true ->
  merge_comments_in f (a :: Comment c :: L) = set_comment a c :: merge_comments_in f L.
Proof. intros H. cbn [merge_comments_in]. rewrite H. reflexivity. Qed.

Lemma merge_cons_keep f a L :
  (forall c, head L = Some (Comment c) -> takes_comment a c = false) ->
  merge_comments_in f (a :: L) = f a :: merge_comments_in f L.
Proof.
  destruct L as [|b L']; [reflexivity|]. intros H.
  cbn [merge_comments_in]. destruct b; try reflexivity.
  rewrite (H c eq_refl). reflexivity.
Qed.

Lemma takes_set_comment a c c2 : takes_comment (set_comment a c) c2 = takes_comment a c2.
Proof. destruct a; reflexivity. Qed.

Lemma takes_comment_inside f a c :
  (forall x, type_of (f x) = type_of x) ->
  (forall x, type_of x = TStatement \/ type_of x = TDeclaration -> f x = x) ->
  takes_comment (f a) c = takes_comment a c.
Proof.
  intros Hty Hleaf.
  destruct (decide (type_of a = TStatement \/ type_of a = TDeclaration)) as [E|E].
  - rewrite Hleaf by exact E. reflexivity.
  - unfold takes_comment. rewrite Hty.
    rewrite !bool_decide_eq_false_2 by tauto. reflexivity.
Qed.

Lemma merge_head f x r c :
  (forall x, type_of (f x) = type_of x) ->
  (forall c, f (Comment c) = Comment c) ->
  head (merge_comments_in f (x :: r)) = Some (Comment c) -> x = Comment c.
Proof.
  intros Hty Hcom.
  assert (Hfx : f x = Comment c -> x = Comment c).
  { intros E. pose proof (Hty x) as T. rewrite E in T.
    destruct x; try discriminate. rewrite Hcom in E. exact E. }
  assert (Hcase : (exists c0 r', r = Comment c0 :: r' /\ takes_comment x c0 = true)
                  \/ (forall c0, head r = Some (Comment c0) -> takes_comment x c0 = false)).
  { destruct r as [|b r']; [right; discriminate|].
    destruct b; try (right; intros; discriminate).
    destruct (takes_comment x c0) eqn:E; [left; eauto | right; intros ? [= <-]; exact E]. }
  destruct Hcase as [(c0 & r' & -> & Ht)|Hkeep].
  - rewrite merge_cons_take by exact Ht. intros [= E].
    apply takes_comment_type in Ht as [Ht _]. pose proof (set_comment_type x c0) as T.
    rewrite E in T. cbn in T. destruct Ht; congruence.
  - rewrite merge_cons_keep by exact Hkeep.
    intros [= E]. apply Hfx. exact E.
Qed.

Lemma merge_comments_twice f :
  (forall x, type_of (f x) = type_of x) ->
  (forall c, f (Comment c) = Comment c) ->
  (forall x, type_of x = TStatement \/ type_of x = TDeclaration -> f x = x) ->
  forall n items,
    (length items <= n)%nat ->
    Forall (fun x => f (f x) = f x) items ->
    comments_settled items = true ->
    merge_comments_in f (merge_comments_in f items) = merge_comments_in f items.
Proof.
  intros Hty Hcom Hleaf. induction n as [|n IH]; intros items Hlen Hall HQ.
  - destruct items; [reflexivity | cbn in Hlen; lia].
  - destruct items as [|a rest]; [reflexivity|].
    inversion Hall as [|? ? Ha Hrest]; subst.
    pose proof (all_triples_cons _ _ _ HQ) as HQrest.
    assert (Hcase : (exists c rest', rest = Comment c :: rest' /\ takes_comment a c = true)
                    \/ (forall c, head rest = Some (Comment c) -> takes_comment a c = false)).
    { destruct rest as [|b r]; [right; discriminate|].
      destruct b; try (right; intros; discriminate).
      destruct (takes_comment a c) eqn:E; [left; eauto | right; intros ? [= <-]; exact E]. }
    destruct Hcase as [(c & rest' & -> & Ht)|Hkeep].
    + rewrite merge_cons_take by exact Ht.
      inversion Hrest as [|? ? _ Hrest']; subst.
      rewrite merge_cons_keep.
      * rewrite Hleaf
          by (rewrite set_comment_type; apply takes_comment_type in Ht as [Ht _]; exact Ht).
        f_equal. apply IH; [cbn in Hlen; lia | exact Hrest' |].
        exact (all_triples_cons _ _ _ HQrest).
      * intros c2 Hc2. rewrite takes_set_comment.
        destruct rest' as [|x r]; [discriminate|].
        apply (merge_head f x r c2 Hty Hcom) in Hc2 as ->.
        apply all_triples_head in HQ. rewrite Ht in HQ. cbn in HQ.
        destruct (takes_comment a c2); [discriminate | reflexivity].
    + rewrite (merge_cons_keep f a rest) by exact Hkeep.
      rewrite merge_cons_keep.
      * rewrite Ha. f_equal. apply IH; [cbn in Hlen; lia | exact Hrest | exact HQrest].
      * intros c2 Hc2. rewrite (takes_comment_inside f a c2 Hty Hleaf).
        apply Hkeep. destruct rest as [|x r]; [discriminate|].
        apply (merge_head f x r c2 Hty Hcom) in Hc2 as ->. reflexivity.
Qed.

(** *** A pass run on its own result: the tree *)

Lemma descend_descend F G o :
  descend G (descend F o) = descend (fun items => G (F items)) o.
Proof. destruct o; reflexivity. Qed.

Lemma settled_items Q (P : Node -> Prop) items :
  forallb (everywhere Q) items = true ->
  Forall (fun x => everywhere Q x = true -> P x) items ->
  Forall P items.
Proof.
  intros Hall HP. induction HP as [|x rest Hx _ IH]; [constructor|].
  cbn in Hall. apply andb_true_iff in Hall as [H1 H2].
  constructor; [exact (Hx H1) | exact (IH H2)].
Qed.

Lemma twice_tree (spec_in : (Node -> Node) -> list Node -> list Node) spec Q :
  (forall o, spec o = descend (spec_in spec) o) ->
  (forall items, Q items = true -> Forall (fun x => spec (spec x) = spec x) items ->
                 spec_in spec (spec_in spec items) = spec_in spec items) ->
  forall o, everywhere Q o = true -> spec (spec o) = spec o.
Proof.
  intros Hspec Hseq o.
  induction o as [o IH] using Node_subnodes_ind. intros HQ.
  rewrite (Hspec (spec o)), (Hspec o), descend_descend. apply descend_ext.
  destruct o; cbn [subnodes everywhere] in IH, HQ |- *; try exact I.
  - apply andb_true_iff in HQ as [H1 H2].
    apply Hseq; [exact H1 | exact (settled_items _ _ _ H2 IH)].
  - apply andb_true_iff in HQ as [H1 H2].
    apply Hseq; [exact H1 | exact (settled_items _ _ _ H2 IH)].
  - apply andb_true_iff in HQ as [Hb He].
    apply andb_true_iff in Hb as [H1 H2]. apply andb_true_iff in He as [H3 H4].
    apply Forall_app in IH as [IH1 IH2]. split.
    + apply Hseq; [exact H1 | exact (settled_items _ _ _ H2 IH1)].
    + apply Hseq; [exact H3 | exact (settled_items _ _ _ H4 IH2)].
Qed.

Lemma everywhere_true o : everywhere (fun _ => true) o = true.
Proof.
  induction o as [o IH] using Node_subnodes_ind.
  assert (H : forall items, Forall (fun x => everywhere (fun _ => true) x = true) items ->
                            forallb (everywhere (fun _ => true)) items = true).
  { induction 1 as [|x rest Hx _ IHr]; [reflexivity|]. cbn. rewrite Hx, IHr. reflexivity. }
  destruct o; cbn [subnodes everywhere] in IH |- *; try reflexivity.
  - rewrite (H _ IH). reflexivity.
  - rewrite (H _ IH). reflexivity.
  - apply Forall_app in IH as [IH1 IH2]. rewrite (H _ IH1), (H _ IH2). reflexivity.
Qed.

Lemma clustered_comments_type x : type_of (clustered_comments x) = type_of x.
Proof. rewrite clustered_comments_unfold. apply descend_type. Qed.

Lemma attached_pragmas_type x : type_of (attached_pragmas x) = type_of x.
Proof. rewrite attached_pragmas_unfold. apply descend_type. Qed.

Lemma merged_comments_type x : type_of (merged_comments x) = type_of x.
Proof. rewrite merged_comments_unfold. apply descend_type. Qed.

Lemma merged_comments_leaf x :
  type_of x = TStatement \/ type_of x = TDeclaration -> merged_comments x = x.
Proof. destruct x; cbn; intros [H|H]; try discriminate; reflexivity. Qed.

Lemma clustered_twice o : clustered_comments (clustered_comments o) = clustered_comments o.
Proof.
  apply (twice_tree (fun inside => cluster_in inside []) clustered_comments (fun _ => true)).
  - apply clustered_comments_unfold.
  - intros items _ Hall. rewrite cluster_twice.
    + apply cluster_in_ext. exact Hall.
    + reflexivity.
    + apply clustered_comments_type.
  - apply everywhere_true.
Qed.

Lemma attached_twice o :
  everywhere pragmas_settled o = true ->
  attached_pragmas (attached_pragmas o) = attached_pragmas o.
Proof.
  apply (twice_tree attach_pragmas_in attached_pragmas pragmas_settled).
  - apply attached_pragmas_unfold.
  - intros items HQ Hall.
    apply (attach_pragmas_twice attached_pragmas) with (n := length items);
      [ intros y p; destruct y; reflexivity
      | apply attached_pragmas_type
      | reflexivity
      | lia
      | exact Hall
      | exact HQ ].
Qed.

Lemma merged_twice o :
  everywhere comments_settled o = true ->
  merged_comments (merged_comments o) = merged_comments o.
Proof.
  apply (twice_tree merge_comments_in merged_comments comments_settled).
  - apply merged_comments_unfold.
  - intros items HQ Hall.
    apply (merge_comments_twice merged_comments) with (n := length items);
      [ apply merged_comments_type
      | reflexivity
      | apply merged_comments_leaf
      | lia
      | exact Hall
      | exact HQ ].
Qed.

(** *** The order of what is left *)

Lemma bare_set_comment a c : bare (set_comment a c) = bare a.
Proof. destruct a; reflexivity. Qed.

Lemma bare_set_pragma b p : bare (set_pragma b p) = bare b.
Proof. destruct b; reflexivity. Qed.

Lemma merge_in_order f :
  (forall x, type_of x = TStatement \/ type_of x = TDeclaration -> f x = x) ->
  forall n items, (length items <= n)%nat ->
                  in_order (merge_comments_in f items) (map f items).
Proof.
  intros Hleaf. unfold in_order. induction n as [|n IH]; intros items Hlen.
  - destruct items; [constructor | cbn in Hlen; lia].
  - destruct items as [|a rest]; [constructor|].
    assert (Hkeep : map bare (f a :: merge_comments_in f rest)
                        `sublist_of` map bare (map f (a :: rest))).
    { cbn [map]. apply sublist_skip. apply IH. cbn in Hlen; lia. }
    cbn [merge_comments_in]. destruct rest as [|b rest']; [exact Hkeep|].
    destruct b; try exact Hkeep.
    destruct (takes_comment a c) eqn:Ht; [|exact Hkeep].
    cbn [map]. rewrite bare_set_comment.
    rewrite Hleaf by (apply takes_comment_type in Ht as [Ht _]; exact Ht).
    apply sublist_skip, sublist_cons. apply IH. cbn in Hlen; lia.
Qed.

Lemma attach_in_order f :
  forall n items, (length items <= n)%nat ->
                  in_order (attach_pragmas_in f items) (map f items).
Proof.
  unfold in_order. induction n as [|n IH]; intros items Hlen.
  - destruct items; [constructor | cbn in Hlen; lia].
  - destruct items as [|a rest]; [constructor|].
    assert (Hkeep : map bare (f a :: attach_pragmas_in f rest)
                        `sublist_of` map bare (map f (a :: rest))).
    { cbn [map]. apply sublist_skip. apply IH. cbn in Hlen; lia. }
    cbn [attach_pragmas_in]. destruct a as [| | | | |p| | | |]; try exact Hkeep.
    destruct rest as [|b rest']; [exact Hkeep|].
    destruct (takes_pragma b); [|exact Hkeep].
    cbn [map]. rewrite bare_set_pragma.
    apply sublist_cons, sublist_skip. apply IH. cbn in Hlen; lia.
Qed.

Lemma expanded_flush run : expanded (flush run) = map Comment run.
Proof.
  destruct run as [|c [|c2 run]]; [reflexivity | reflexivity |].
  unfold expanded. cbn [flush flat_map expand]. apply app_nil_r.
Qed.

Lemma cluster_regrouped f :
  (forall c, f (Comment c) = Comment c) ->
  forall items run,
    expanded (cluster_in f run items) = map Comment run ++ expanded (map f items).
Proof.
  intros Hcom. induction items as [|a rest IH]; intros run.
  - cbn [cluster_in map]. rewrite expanded_flush. symmetry. apply app_nil_r.
  - destruct (decide (type_of a = TComment)) as [E|E].
    + destruct a; try discriminate. cbn [cluster_in map]. rewrite IH, Hcom.
      rewrite map_app, <- app_assoc. reflexivity.
    + rewrite cluster_in_other by exact E. unfold expanded at 1.
      rewrite flat_map_app. fold (expanded (flush run)). rewrite expanded_flush.
      cbn [flat_map map]. fold (expanded (cluster_in f [] rest)). rewrite IH.
      reflexivity.
Qed.

Lemma pass_on_items (pass : Node -> option Node) spec items :
  (forall o, pass o = Some (spec o)) ->
  Forall2 (fun x k => pass x = Some k) items (map spec items).
Proof. intros H. induction items; constructor; [apply H | assumption]. Qed.

(** *** A pair in a sequence *)

Lemma merge_app_other f a rest :
  type_of a <> TComment ->
  forall n pre, (length pre <= n)%nat ->
    merge_comments_in f (pre ++ a :: rest)
    = merge_comments_in f pre ++ merge_comments_in f (a :: rest).
Proof.
  intros Ha. induction n as [|n IH]; intros pre Hlen.
  - destruct pre; [reflexivity | cbn in Hlen; lia].
  - destruct pre as [|x pre']; [reflexivity|].
    assert (Hcase : (exists c pre'', pre' = Comment c :: pre'' /\ takes_comment x c = true)
                    \/ (forall c, head pre' = Some (Comment c) -> takes_comment x c = false)).
    { destruct pre' as [|b r]; [right; discriminate|].
      destruct b; try (right; intros; discriminate).
      destruct (takes_comment x c) eqn:E; [left; eauto | right; intros ? [= <-]; exact E]. }
    destruct Hcase as [(c & pre'' & -> & Ht)|Hkeep].
    + cbn [app]. rewrite !merge_cons_take by exact Ht.
      rewrite IH by (cbn in Hlen; lia). reflexivity.
    + cbn [app]. rewrite (merge_cons_keep f x pre') by exact Hkeep.
      rewrite merge_cons_keep.
      * rewrite IH by (cbn in Hlen; lia). reflexivity.
      * intros c Hc. destruct pre' as [|b r].
        -- injection Hc as ->. exfalso. apply Ha. reflexivity.
        -- apply Hkeep. exact Hc.
Qed.

Lemma same_line_spans a c :
  same_line a c = true
  <-> exists s0 s1, source_of a = Some s0 /\ c_source c = Some s1
                    /\ fst (lines s1) = snd (lines s0).
Proof.
  unfold same_line. split.
  - destruct (source_of a) as [s0|], (c_source c) as [s1|]; try discriminate.
    intros H. exists s0, s1. repeat split. apply Z.eqb_eq. exact H.
  - intros (s0 & s1 & -> & -> & H). apply Z.eqb_eq. exact H.
Qed.

(** C9, the claim as stated fails for a comment on the line after the
  statement: the two spans are contiguous on the next line, and the pass
  leaves the pair as it is. *)
Lemma inline_comments_next_line_kept :
  same_or_next_line (assign 1) (remark "note" 2) = true
  /\ inline_comments (Tuple [assign 1; Comment (remark "note" 2)])
     = Some (Tuple [assign 1; Comment (remark "note" 2)]).
Proof. split; vm_compute; reflexivity. Qed.

(** C9, amended. The inline-comments pass rewrites every sequence of
  siblings. Where a [Comment] follows a [Statement] or [Declaration], the
  comment is put into the comment slot of that node and the standalone
  [Comment] is dropped exactly when both nodes carry a source span and the
  comment starts on the line on which the node ends; when the lines differ
  or a span is missing, the two nodes stay as they are. What stands in front
  of the pair and what follows it is rewritten on its own. *)
Theorem inline_comments_merge_rule (pre suf : list Node) (a : Node) (c : CommentData) :
  type_of a = TStatement \/ type_of a = TDeclaration ->
  exists on_items : list Node -> list Node,
    (forall o, inline_comments o = Some (descend on_items o))
    /\ on_items (pre ++ a :: Comment c :: suf)
       = on_items pre
         ++ (if same_line a c then [set_comment a c] else [a; Comment c])
         ++ on_items suf
    /\ (same_line a c = true
        <-> exists s0 s1, source_of a = Some s0 /\ c_source c = Some s1
                          /\ fst (lines s1) = snd (lines s0)).
Proof.
  intros Ha. exists (merge_comments_in merged_comments). split; [|split].
  - intros o. rewrite inline_comments_merges, merged_comments_unfold. reflexivity.
  - rewrite (merge_app_other _ _ _) with (n := length pre)
      by (try lia; destruct Ha as [Ha|Ha]; rewrite Ha; discriminate).
    f_equal.
    assert (Ht : takes_comment a c = same_line a c).
    { unfold takes_comment. destruct Ha as [Ha|Ha]; rewrite Ha; reflexivity. }
    destruct (same_line a c) eqn:Hs.
    + rewrite merge_cons_take by exact Ht. reflexivity.
    + rewrite merge_cons_keep by (intros ? [= <-]; exact Ht).
      rewrite merged_comments_leaf by exact Ha.
      rewrite merge_cons_keep by (intros; reflexivity). reflexivity.
  - apply same_line_spans.
Qed.

Lemma inline_comments_merge_rule_witness :
  (type_of (assign 1) = TStatement \/ type_of (assign 1) = TDeclaration)
  /\ exists on_items : list Node -> list Node,
      (forall o, inline_comments o = Some (descend on_items o))
      /\ on_items ([] ++ assign 1 :: Comment (remark "note" 1) :: [])
         = on_items []
           ++ (if same_line (assign 1) (remark "note" 1)
               then [set_comment (assign 1) (remark "note" 1)]
               else [assign 1; Comment (remark "note" 1)])
           ++ on_items []
      /\ (same_line (assign 1) (remark "note" 1) = true
          <-> exists s0 s1, source_of (assign 1) = Some s0
                            /\ c_source (remark "note" 1) = Some s1
                            /\ fst (lines s1) = snd (lines s0)).
Proof.
  split; [left; reflexivity|].
  apply (inline_comments_merge_rule [] [] (assign 1) (remark "note" 1)).
  left. reflexivity.
Defined.

(** *** The passes run twice *)

(** C5, the claim as stated fails for two of the passes. With two pragmas
  in front of a loop the first run attaches the second pragma and the next
  run replaces it by the first; with two comments on the line of a
  statement the first run takes the first comment and the next run the
  second. *)
Lemma inline_passes_not_idempotent :
  (inline_pragmas (Tuple [Pragma (directive "a" 1); Pragma (directive "b" 2);
                          counted [] None 3])
   = Some (Tuple [Pragma (directive "a" 1); counted [] (Some (directive "b" 2)) 3])
   /\ inline_pragmas (Tuple [Pragma (directive "a" 1);
                             counted [] (Some (directive "b" 2)) 3])
      = Some (Tuple [counted [] (Some (directive "a" 1)) 3])
   /\ Tuple [Pragma (directive "a" 1); counted [] (Some (directive "b" 2)) 3]
      <> Tuple [counted [] (Some (directive "a" 1)) 3])
  /\ (inline_comments (Tuple [assign 1; Comment (remark "x" 1); Comment (remark "y" 1)])
      = Some (Tuple [set_comment (assign 1) (remark "x" 1); Comment (remark "y" 1)])
      /\ inline_comments (Tuple [set_comment (assign 1) (remark "x" 1);
                                 Comment (remark "y" 1)])
         = Some (Tuple [set_comment (assign 1) (remark "y" 1)])
      /\ Tuple [set_comment (assign 1) (remark "x" 1); Comment (remark "y" 1)]
         <> Tuple [set_comment (assign 1) (remark "y" 1)]).
Proof.
  split; (split; [vm_compute; reflexivity | split; [vm_compute; reflexivity | discriminate]]).
Qed.

(** C5, amended. Comment clustering is idempotent on every tree. Pragma
  inlining is idempotent on every tree in which no sequence of siblings has
  two pragmas in a row in front of a declaration, call or loop, and
  inline-comment merging on every tree in which no statement or declaration
  is followed by two comments that both start on the line on which it ends.
  Each pass rewrites the sequences of siblings and reorders nothing: the two
  inline passes leave, slots aside, a subsequence of the rewritten items, and
  comment clustering leaves the rewritten items, gathered into blocks. *)
Theorem passes_idempotent_when_settled (ir : Node) :
  (exists out, cluster_comments ir = Some out /\ cluster_comments out = Some out)
  /\ (everywhere pragmas_settled ir = true ->
      exists out, inline_pragmas ir = Some out /\ inline_pragmas out = Some out)
  /\ (everywhere comments_settled ir = true ->
      exists out, inline_comments ir = Some out /\ inline_comments out = Some out)
  /\ rewrites_sequences inline_comments in_order
  /\ rewrites_sequences cluster_comments regrouped
  /\ rewrites_sequences inline_pragmas in_order.
Proof.
  repeat apply conj.
  - exists (clustered_comments ir). split; [apply cluster_comments_clusters|].
    rewrite cluster_comments_clusters, clustered_twice. reflexivity.
  - intros HQ. exists (attached_pragmas ir). split; [apply inline_pragmas_attaches|].
    rewrite inline_pragmas_attaches, (attached_twice _ HQ). reflexivity.
  - intros HQ. exists (merged_comments ir). split; [apply inline_comments_merges|].
    rewrite inline_comments_merges, (merged_twice _ HQ). reflexivity.
  - exists (merge_comments_in merged_comments). split.
    + intros o. rewrite inline_comments_merges, merged_comments_unfold. reflexivity.
    + intros items. exists (map merged_comments items). split.
      * apply pass_on_items, inline_comments_merges.
      * apply (merge_in_order _ merged_comments_leaf (length items)). lia.
  - exists (cluster_in clustered_comments []). split.
    + intros o. rewrite cluster_comments_clusters, clustered_comments_unfold. reflexivity.
    + intros items. exists (map clustered_comments items). split.
      * apply pass_on_items, cluster_comments_clusters.
      * unfold regrouped. rewrite cluster_regrouped by reflexivity. reflexivity.
  - exists (attach_pragmas_in attached_pragmas). split.
    + intros o. rewrite inline_pragmas_attaches, attached_pragmas_unfold. reflexivity.
    + intros items. exists (map attached_pragmas items). split.
      * apply pass_on_items, inline_pragmas_attaches.
      * apply (attach_in_order _ (length items)). lia.
Qed.

Lemma passes_idempotent_when_settled_witness :
  (everywhere pragmas_settled
              (Tuple [Pragma (directive "a" 1);
                      counted [assign 3; Comment (remark "x" 3); Comment (remark "y" 4)]
                              None 2])
   = true
   /\ exists out,
       inline_pragmas
         (Tuple [Pragma (directive "a" 1);
                 counted [assign 3; Comment (remark "x" 3); Comment (remark "y" 4)]
                         None 2])
       = Some out
       /\ inline_pragmas out = Some out)
  /\ (everywhere comments_settled
                 (Tuple [Pragma (directive "a" 1);
                         counted [assign 3; Comment (remark "x" 3); Comment (remark "y" 4)]
                                 None 2])
      = true
      /\ exists out,
          inline_comments
            (Tuple [Pragma (directive "a" 1);
                    counted [assign 3; Comment (remark "x" 3); Comment (remark "y" 4)]
                            None 2])
          = Some out
          /\ inline_comments out = Some out).
Proof.
  split; (split; [reflexivity|]).
  - refine (proj1 (proj2 (passes_idempotent_when_settled _)) _). reflexivity.
  - refine (proj1 (proj2 (proj2 (passes_idempotent_when_settled _))) _). reflexivity.
Defined.

End TransformerFacts.

(** * Further properties of the code *)

(** ** Sublists between marker nodes ([fparser.py]) *)

Section NodeSublistFacts.
Import Frontend.
Local Open Scope list_scope.
Context {A : Type}.
Variables starttype endtype : A -> bool.

Lemma node_sublist_loop_sub active l :
  node_sublist_loop starttype endtype active l `sublist_of` l.
Proof.
  revert active. induction l as [|node rest IH]; intros active; [constructor|].
  cbn [node_sublist_loop].
  destruct (if endtype node then false else active).
  - apply sublist_skip, IH.
  - apply sublist_cons, IH.
Qed.

Lemma node_sublist_loop_no_end active l :
  Forall (fun x => endtype x = false) (node_sublist_loop starttype endtype active l).
Proof.
  revert active. induction l as [|node rest IH]; intros active; [constructor|].
  cbn [node_sublist_loop]. destruct (endtype node) eqn:E.
  - apply IH.
  - destruct active; [constructor; [exact E | apply IH] | apply IH].
Qed.

Lemma node_sublist_loop_inactive pre rest :
  Forall (fun x => starttype x = false) pre ->
  node_sublist_loop starttype endtype false (pre ++ rest)
  = node_sublist_loop starttype endtype false rest.
Proof.
  induction 1 as [|node pre Hn _ IH]; [reflexivity|].
  cbn [app node_sublist_loop]. rewrite Hn.
  destruct (endtype node); exact IH.
Qed.

Lemma node_sublist_loop_active mid rest :
  Forall (fun x => endtype x = false) mid ->
  node_sublist_loop starttype endtype true (mid ++ rest)
  = mid ++ node_sublist_loop starttype endtype true rest.
Proof.
  induction 1 as [|node mid Hn _ IH]; [reflexivity|].
  cbn [app node_sublist_loop]. rewrite Hn.
  destruct (starttype node); cbn [app]; f_equal; exact IH.
Qed.

(** X1. What [node_sublist] returns is taken from the list in the order
  of the list, holds no node of the end type, and is empty when the list
  has no node of the start type. *)
Theorem node_sublist_between (nodelist : list A) :
  node_sublist starttype endtype nodelist `sublist_of` nodelist
  /\ Forall (fun x => endtype x = false) (node_sublist starttype endtype nodelist)
  /\ (Forall (fun x => starttype x = false) nodelist ->
      node_sublist starttype endtype nodelist = []).
Proof.
  split; [apply node_sublist_loop_sub|]. split; [apply node_sublist_loop_no_end|].
  intros H. unfold node_sublist.
  rewrite <- (app_nil_r nodelist), (node_sublist_loop_inactive _ _ H). reflexivity.
Qed.

(** From a start node to the next end node. *)
Lemma node_sublist_span pre a mid b post :
  Forall (fun x => starttype x = false) pre ->
  starttype a = true ->
  Forall (fun x => endtype x = false) mid ->
  endtype b = true ->
  node_sublist starttype endtype (pre ++ a :: mid ++ b :: post)
  = mid ++ node_sublist_loop starttype endtype (starttype b) post.
Proof.
  intros Hpre Ha Hmid Hb. unfold node_sublist.
  rewrite (node_sublist_loop_inactive _ _ Hpre).
  cbn [node_sublist_loop]. rewrite Ha.
  replace (if if endtype a then false else false then [a] else []) with (@nil A)
    by (destruct (endtype a); reflexivity).
  cbn [app]. rewrite (node_sublist_loop_active _ _ Hmid).
  cbn [node_sublist_loop]. rewrite Hb. cbn [app].
  destruct (starttype b); reflexivity.
Qed.

Lemma node_sublist_loop_idle l :
  Forall (fun x => starttype x = false) l ->
  node_sublist_loop starttype endtype false l = [].
Proof.
  intros H. rewrite <- (app_nil_r l), (node_sublist_loop_inactive _ _ H). reflexivity.
Qed.

(** X2. For a list with one start node and one end node after it,
  [node_sublist] returns exactly the nodes between the two when none of
  them is of the end type, as for the body of a [DO] construct between its
  [Nonlabel_Do_Stmt] and its [End_Do_Stmt]. *)
Theorem node_sublist_bracketed (pre mid post : list A) (a b : A) :
  Forall (fun x => starttype x = false) pre ->
  starttype a = true ->
  Forall (fun x => endtype x = false) mid ->
  endtype b = true -> starttype b = false ->
  Forall (fun x => starttype x = false) post ->
  node_sublist starttype endtype (pre ++ a :: mid ++ b :: post) = mid.
Proof.
  intros Hpre Ha Hmid Hb Hb' Hpost.
  rewrite (node_sublist_span _ _ _ _ _ Hpre Ha Hmid Hb), Hb'.
  rewrite (node_sublist_loop_idle _ Hpost). apply app_nil_r.
Qed.

End NodeSublistFacts.

Lemma node_sublist_bracketed_witness :
  Frontend.node_sublist (Nat.eqb 1) (Nat.eqb 2) [0; 1; 5; 6; 2; 7]%nat = [5; 6]%nat.
Proof.
  refine (node_sublist_bracketed (Nat.eqb 1) (Nat.eqb 2)
                                 [0]%nat [5; 6]%nat [7]%nat 1%nat 2%nat _ _ _ _ _ _);
    try reflexivity; repeat constructor.
Defined.

Section IfConstructFacts.
Import Frontend.
Local Open Scope list_scope.
Context {A : Type}.

(** [isinstance] tests for the three statement classes. *)
Variables If_Then_Stmt Else_Stmt End_If_Stmt : A -> bool.

(** X3. The two sublists [visit_If_Construct] takes from the content of
  an [IF] construct that has no [Else_Stmt]: the body is everything after
  the [If_Then_Stmt], the closing statement of the construct included, and
  the else part is empty. *)
Theorem if_construct_without_else (head : A) (rest : list A) :
  If_Then_Stmt head = true ->
  Forall (fun x => Else_Stmt x = false) (head :: rest) ->
  node_sublist If_Then_Stmt Else_Stmt (head :: rest) = rest
  /\ node_sublist Else_Stmt End_If_Stmt (head :: rest) = [].
Proof.
  intros Hhead Hno. split.
  - inversion Hno as [|? ? Hh Hrest]; subst. unfold node_sublist.
    cbn [node_sublist_loop]. rewrite Hh, Hhead. cbn [app].
    rewrite <- (app_nil_r rest) at 1.
    rewrite (node_sublist_loop_active _ _ _ _ Hrest). cbn. apply app_nil_r.
  - apply node_sublist_between. exact Hno.
Qed.

End IfConstructFacts.

Lemma if_construct_without_else_witness :
  Frontend.node_sublist (Nat.eqb 1) (Nat.eqb 2) [1; 7; 8; 3]%nat = [7; 8; 3]%nat
  /\ Frontend.node_sublist (Nat.eqb 2) (Nat.eqb 3) [1; 7; 8; 3]%nat = [].
Proof.
  apply (if_construct_without_else (Nat.eqb 1) (Nat.eqb 2) (Nat.eqb 3) 1%nat [7; 8; 3]%nat);
    [reflexivity | repeat constructor].
Defined.

(** ** The finders ([util.py]) *)

Section FinderFacts.
Import IR Passes Frontend.
Local Open Scope list_scope.

Lemma match_from_filter p0 ps sequence j0 :
  match_from (p0 :: ps) sequence j0
  = List.filter (fun i => bool_decide (take (S (length ps)) (drop (i - j0) sequence)
                                       = p0 :: ps))
                (seq j0 (length sequence)).
Proof.
  revert j0. induction sequence as [|e rest IH]; intros j0; [reflexivity|].
  cbn [match_from length seq List.filter]. rewrite Nat.sub_diag. cbn [drop].
  rewrite IH.
  rewrite (filter_ext_in
             (fun i => bool_decide (take (S (length ps)) (drop (i - j0) (e :: rest))
                                    = p0 :: ps))
             (fun i => bool_decide (take (S (length ps)) (drop (i - S j0) rest)
                                    = p0 :: ps))).
  - destruct (decide (take (S (length ps)) (e :: rest) = p0 :: ps)) as [E|E].
    + rewrite (bool_decide_eq_true_2 _ E).
      rewrite bool_decide_eq_true_2 by (cbn in E |- *; congruence).
      reflexivity.
    + rewrite (bool_decide_eq_false_2 _ E), andb_false_r. reflexivity.
  - intros i Hi. apply in_seq in Hi.
    replace (i - j0)%nat with (S (i - S j0)) by lia. reflexivity.
Qed.

(** X4. [match_indices] returns the positions at which the pattern
  occurs in the sequence, each once and in increasing order; with an empty
  pattern it raises [IndexError] unless the sequence is empty too. *)
Theorem match_indices_occurrences (pattern sequence : list NodeType) :
  Frontend.match_indices pattern sequence
  = match pattern, sequence with
    | [], _ :: _ => Raise IndexError
    | _, _ =>
        Ok (List.filter
              (fun i => bool_decide (take (length pattern) (drop i sequence) = pattern))
              (seq 0 (length sequence)))
    end.
Proof.
  destruct pattern as [|p0 ps].
  - destruct sequence; reflexivity.
  - assert (E : Frontend.match_indices (p0 :: ps) sequence
                = Ok (match_from (p0 :: ps) sequence 0))
      by (destruct sequence; reflexivity).
    rewrite E, match_from_filter.
    replace (match sequence with
             | [] | _ =>
                 Ok (List.filter
                       (fun i => bool_decide (take (length (p0 :: ps)) (drop i sequence)
                                              = p0 :: ps))
                       (seq 0 (length sequence)))
             end)
      with (Ok (List.filter
                  (fun i => bool_decide (take (length (p0 :: ps)) (drop i sequence)
                                         = p0 :: ps))
                  (seq 0 (length sequence))))
      by (destruct sequence; reflexivity).
    f_equal. apply filter_ext_in. intros i _. rewrite Nat.sub_0_r. reflexivity.
Qed.

Lemma in_visit_each (P : Match -> Prop) (visit : Node -> list Match) items :
  (forall i m, P m -> P (enter i m)) ->
  Forall (fun c => forall m, In m (visit c) -> P m) items ->
  forall i0 m, In m (visit_each (fun i c => map (enter i) (visit c)) items i0) -> P m.
Proof.
  intros Henter Hall. induction Hall as [|c rest Hc _ IH]; intros i0 m; [intros []|].
  cbn [visit_each]. rewrite in_app_iff. intros [H|H].
  - apply in_map_iff in H as (m' & <- & Hm'). apply Henter, Hc, Hm'.
  - exact (IH _ _ H).
Qed.

Lemma in_map_enter (P : Match -> Prop) i l m :
  (forall i m, P m -> P (enter i m)) ->
  (forall m, In m l -> P m) -> In m (map (enter i) l) -> P m.
Proof. intros Henter Hl H. apply in_map_iff in H as (m' & <- & Hm'). auto. Qed.

(** What holds of the matches of every tuple, and is kept on the way up,
    holds of every match a finder reports. *)
Lemma finder_visit_all (in_tuple : list Node -> list Match) (P : Match -> Prop) :
  (forall items m, In m (in_tuple items) -> P m) ->
  (forall i m, P m -> P (enter i m)) ->
  forall o m, In m (finder_visit in_tuple o) -> P m.
Proof.
  intros Hhere Henter o.
  induction o as [o IH] using Node_subnodes_ind.
  assert (Htuple : forall items,
             Forall (fun c => forall m, In m (finder_visit in_tuple c) -> P m) items ->
             forall m, In m (visit_tuple in_tuple (finder_visit in_tuple) items) -> P m).
  { intros items Hall m. unfold visit_tuple. rewrite in_app_iff. intros [H|H].
    - exact (in_visit_each P _ _ Henter Hall _ _ H).
    - exact (Hhere _ _ H). }
  intros m. destruct o; cbn [finder_visit Rewrites.subnodes] in IH |- *;
    try (apply Hhere); try (apply Htuple; exact IH).
  - rewrite in_app_iff. intros [H|H]; [|exact (Hhere _ _ H)].
    exact (in_map_enter P _ _ _ Henter (Htuple _ IH) H).
  - apply Forall_app in IH as [IH1 IH2].
    rewrite !in_app_iff. intros [H|[H|H]]; [| |exact (Hhere _ _ H)].
    + exact (in_map_enter P _ _ _ Henter (Htuple _ IH1) H).
    + exact (in_map_enter P _ _ _ Henter (Htuple _ IH2) H).
Qed.

(** X5. Every match [PatternFinder] reports, at any depth of the tree,
  is a run of as many nodes as the pattern has entries, and their types
  are the entries of the pattern: a pass can take [pair[0]] and [pair[1]]
  of a pattern of two types without a test. *)
Theorem PatternFinder_matches_pattern (pattern : list NodeType) (o : Node) (m : Match) :
  pattern <> [] ->
  In m (PatternFinder pattern o) ->
  map type_of (m_nodes m) = pattern /\ length (m_nodes m) = length pattern.
Proof.
  intros Hne Hin.
  assert (H : map type_of (m_nodes m) = pattern).
  { revert o m Hin. apply finder_visit_all; [|intros i m H; exact H].
    intros items m Hm. unfold tuple_matches, Passes.match_indices in Hm.
    apply in_map_iff in Hm as (i & <- & Hi). cbn [m_nodes].
    destruct pattern as [|p0 ps]; [contradiction|].
    rewrite match_from_filter in Hi. apply filter_In in Hi as [_ Hi].
    apply bool_decide_eq_true in Hi. rewrite Nat.sub_0_r in Hi.
    etransitivity; [|exact Hi]. cbn [length].
    change (map type_of) with (fmap (M := list) type_of).
    rewrite fmap_take, fmap_drop. reflexivity. }
  split; [exact H|]. rewrite <- (length_map type_of), H. reflexivity.
Qed.

Lemma PatternFinder_matches_pattern_witness :
  map type_of (m_nodes (mkMatch [] 0 [Rewrites.assign 1; Comment (Rewrites.remark "x" 1)]))
  = [TStatement; TComment]
  /\ length (m_nodes (mkMatch [] 0 [Rewrites.assign 1; Comment (Rewrites.remark "x" 1)]))
     = length [TStatement; TComment].
Proof.
  apply (PatternFinder_matches_pattern
           [TStatement; TComment]
           (Tuple [Rewrites.assign 1; Comment (Rewrites.remark "x" 1)])).
  - discriminate.
  - left. reflexivity.
Defined.

Lemma groupby_type_groups items i t j g :
  In (t, j, g) (groupby_type items i) ->
  g <> [] /\ Forall (fun x => type_of x = t) g.
Proof.
  revert i t j g. induction items as [|x rest IH]; intros i t j g; [intros []|].
  cbn [groupby_type]. destruct (groupby_type rest (S i)) as [|[[t' j'] g'] groups] eqn:E.
  - intros [[= <- _ <-]|[]]. split; [discriminate | repeat constructor].
  - assert (Hhd : g' <> [] /\ Forall (fun y => type_of y = t') g')
      by (apply (IH (S i) t' j' g'); rewrite E; left; reflexivity).
    assert (Htl : forall ty jy gy, In (ty, jy, gy) groups ->
                                   gy <> [] /\ Forall (fun y => type_of y = ty) gy).
    { intros ty jy gy Hy. apply (IH (S i) ty jy gy). rewrite E. right. exact Hy. }
    destruct (decide (t' = type_of x)) as [->|Hne].
    + intros [[= <- _ <-]|H]; [|exact (Htl _ _ _ H)].
      split; [discriminate | constructor; [reflexivity | apply Hhd]].
    + intros [[= <- _ <-]|[[= <- _ <-]|H]]; [| exact Hhd | exact (Htl _ _ _ H)].
      split; [discriminate | repeat constructor].
Qed.

(** X6. Every group [SequenceFinder] reports, at any depth of the tree,
  has at least two nodes, all of the type looked for: [comments[0]] and
  [comments[-1]] in [cluster_comments] are always there. *)
Theorem SequenceFinder_groups (node_type : NodeType) (o : Node) (m : Match) :
  In m (SequenceFinder node_type o) ->
  (2 <= length (m_nodes m))%nat /\ Forall (fun x => type_of x = node_type) (m_nodes m).
Proof.
  revert o m. apply finder_visit_all; [|intros i m H; exact H].
  intros items m Hm. unfold tuple_groups in Hm.
  apply list_elem_of_In, list_elem_of_omap in Hm as ([[t j] g] & Hg & Hsel).
  destruct (bool_decide (t = node_type)) eqn:Et; [|discriminate].
  destruct (1 <? length g)%nat eqn:El; [|discriminate].
  injection Hsel as <-. cbn [m_nodes].
  apply bool_decide_eq_true in Et as <-. apply Nat.ltb_lt in El.
  split; [lia|]. apply list_elem_of_In, groupby_type_groups in Hg. apply Hg.
Qed.

Lemma SequenceFinder_groups_witness :
  (2 <= length (m_nodes (mkMatch [] 0 [Comment (Rewrites.remark "x" 1);
                                       Comment (Rewrites.remark "y" 2)])))%nat
  /\ Forall (fun x => type_of x = TComment)
            (m_nodes (mkMatch [] 0 [Comment (Rewrites.remark "x" 1);
                                    Comment (Rewrites.remark "y" 2)])).
Proof.
  apply (SequenceFinder_groups
           TComment
           (Tuple [Comment (Rewrites.remark "x" 1); Comment (Rewrites.remark "y" 2)])).
  left. reflexivity.
Defined.

End FinderFacts.

(** ** Names and literals ([symbol_types.py]) *)

Section NameFacts.
Import PyStr Reference.

(** X7. The base name of a variable is what follows the last [%] of its
  name: for a qualified name [parent%field] it is the field, a name
  without [%] is its own base name, and a base name is never qualified. *)
Theorem basename_last_component (parent field : string) :
  char_in "%" field = false ->
  basename (parent ++ "%" ++ field) = field
  /\ basename field = field
  /\ char_in "%" (basename (parent ++ "%" ++ field)) = false.
Proof.
  intros Hf.
  assert (H1 : basename (parent ++ "%" ++ field) = field).
  { unfold basename, rfind.
    change ("%" ++ field) with (String "%" field).
    rewrite (rfind_from_last _ _ _ _ _ Hf).
    replace (parent ++ String "%" field) with ((parent ++ "%") ++ field)
      by (rewrite append_assoc; reflexivity).
    replace (0 + len parent + 1) with (len (parent ++ "%"))
      by (unfold len; rewrite append_length; cbn; lia).
    apply slice_from_tail. }
  split; [exact H1|]. split; [|rewrite H1; exact Hf].
  unfold basename, rfind. rewrite (rfind_from_absent _ _ _ _ Hf).
  exact (slice_from_tail EmptyString field).
Qed.

Lemma basename_last_component_witness :
  basename ("item" ++ "%" ++ "vector") = "vector"
  /\ basename "vector" = "vector"
  /\ char_in "%" (basename ("item" ++ "%" ++ "vector")) = false.
Proof. apply (basename_last_component "item" "vector"). reflexivity. Defined.

Lemma last_char_append s c : last_char (s ++ String c EmptyString) = Some c.
Proof.
  induction s as [|d s IH]; [reflexivity|].
  rewrite append_cons. destruct s as [|e s]; [reflexivity|].
  rewrite append_cons in *. exact IH.
Qed.

Lemma drop_last_append s c : drop_last (s ++ String c EmptyString) = s.
Proof.
  induction s as [|d s IH]; [reflexivity|].
  rewrite append_cons. destruct s as [|e s]; [reflexivity|].
  rewrite append_cons in *. cbn [drop_last] in *. rewrite IH. reflexivity.
Qed.

Lemma StringLiteral_init_nonempty c s :
  Literals.StringLiteral_init (String c s)
  = Ok (if outer_quoted (String c s) then strip_outer (String c s) else String c s).
Proof.
  destruct (last_char_is_Some (String c s)) as [l Hl]; [discriminate|].
  unfold Literals.StringLiteral_init.
  rewrite index_0. cbn [mbind Result_bind].
  rewrite (index_last _ _ Hl). cbn [mbind Result_bind].
  unfold outer_quoted. cbn [first_char]. rewrite Hl.
  rewrite char_in_quotes, slice_outer.
  destruct (Ascii.eqb c l); [|reflexivity].
  cbn [andb]. destruct (is_quote c); reflexivity.
Qed.

(** X8. A string literal read back from its printed form is the literal
  again: [StringLiteral] applied to what the stringifier prints for a
  [StringLiteral] stores the value that was printed, whatever characters
  it holds. *)
Theorem StringLiteral_print_parse (stringify : Value -> string) (s : string) :
  Literals.StringLiteral_init (py_str stringify (StringLiteral s)) = Ok s.
Proof.
  cbn [py_str].
  change ("'" ++ s ++ "'") with (String squote (s ++ String squote EmptyString)).
  rewrite StringLiteral_init_nonempty.
  unfold outer_quoted. cbn [first_char].
  change (last_char (String squote (s ++ String squote EmptyString)))
    with (match s ++ String squote EmptyString with
          | EmptyString => Some squote
          | String _ _ => last_char (s ++ String squote EmptyString)
          end).
  rewrite last_char_append.
  replace (match s ++ String squote EmptyString with
           | EmptyString | _ => Some squote
           end) with (Some squote) by (destruct (s ++ String squote EmptyString); reflexivity).
  cbn [strip_outer]. rewrite drop_last_append. reflexivity.
Qed.

(** X9. [Literal] applied to a string: the four spellings of a logical
  constant, in any letter case, give the [LogicLiteral] of their truth
  value; the empty string raises [IndexError]; every other string gives a
  [StringLiteral], without its outer quotes if it has them. *)
Theorem Literal_of_string (s : string) :
  Literals.Literal (PyStr s)
  = if in_tuple (lower s) [".true."; "true"] then Ok (LogicLiteral true)
    else if in_tuple (lower s) [".false."; "false"] then Ok (LogicLiteral false)
    else match s with
         | EmptyString => Raise IndexError
         | String _ _ =>
             Ok (StringLiteral (if outer_quoted s then strip_outer s else s))
         end.
Proof.
  unfold Literals.Literal, Literals.from_literal, Literals.LogicLiteral_init.
  unfold in_tuple, existsb.
  destruct (String.eqb (lower s) ".true."), (String.eqb (lower s) "true"),
    (String.eqb (lower s) ".false."), (String.eqb (lower s) "false");
    try reflexivity.
  cbn [orb]. destruct s as [|c s]; [reflexivity|].
  rewrite StringLiteral_init_nonempty. reflexivity.
Qed.

End NameFacts.

(** ** Operands of an operator ([fparser.py]) *)

Section OperandFacts.
Import Operators Operands.
Local Open Scope list_scope.

Lemma getitem_Some {A} (l : list A) i :
  (i < length l)%nat -> exists x, getitem l i = Ok x.
Proof.
  intros H. unfold getitem. destruct (l !! i) as [x|] eqn:E; [eauto|].
  apply lookup_ge_None in E. lia.
Qed.

Lemma getitem_None {A} (l : list A) i :
  (length l <= i)%nat -> getitem l i = Raise IndexError.
Proof. intros H. unfold getitem. rewrite lookup_ge_None_2 by exact H. reflexivity. Qed.

Lemma recognised_cases op :
  recognised op = true -> In op symbolic_tokens \/ In (PyStr.lower op) mnemonic_tokens.
Proof.
  unfold recognised, PyStr.in_tuple. intros H. apply orb_true_iff in H as [H|H];
    apply existsb_exists in H as (x & Hx & E); apply String.eqb_eq in E; subst x; auto.
Qed.

(** X10. A recognised operator is translated if [exprs] holds the
  operands the translation takes by index, and raises [IndexError], not
  the translation error, if it holds fewer. Sums, products, conjunctions
  and disjunctions take the tuple as it is, the empty one included. *)
Theorem visit_operation_operands (op : string) (exprs : list Value) :
  recognised op = true ->
  if (operands_needed op (length exprs) <=? length exprs)%nat
  then is_Ok (visit_operation op exprs) = true
  else visit_operation op exprs = Raise IndexError.
Proof.
  intros Hrec. apply recognised_cases in Hrec as [H|H].
  - cbn [symbolic_tokens In] in H.
    repeat (destruct H as [<-|H]; [destruct exprs as [|e0 [|e1 rest]]; reflexivity|]).
    destruct H.
  - cbn [mnemonic_tokens In] in H.
    repeat (destruct H as [H|H];
            [symmetry in H; unfold visit_operation, operands_needed; rewrite H;
             rewrite !(eqb_symbolic_false op _ _ H) by (vm_compute; discriminate);
             destruct exprs as [|e0 [|e1 rest]]; reflexivity|]).
    destruct H.
Qed.

Lemma visit_operation_operands_witness :
  visit_operation "/" [Raw (PyInt 1)] = Raise IndexError.
Proof. exact (visit_operation_operands "/" [Raw (PyInt 1)] eq_refl). Defined.

End OperandFacts.

(** ** Variables and the symbol table ([symbol_types.py]) *)

Section VariableFacts.
Import Types Symbols Reference Built.

Lemma instantiate_plain new st obj n sc l T :
  var_name obj = Ok n -> var_scope obj = Ok sc ->
  getitem st sc n = Some l -> types st !! l = Some T -> dtype T <> DERIVED_TYPE ->
  instantiate_derived_type_variables new st obj = Ok (obj, st).
Proof.
  intros Hn Hsc Hl HT Hd. unfold instantiate_derived_type_variables.
  rewrite (get_type_var _ _ _ _ Hn Hsc), Hl. cbn [mbind Result_bind].
  unfold deref. rewrite HT. cbn [mbind Result_bind].
  destruct (decide (dtype T = DERIVED_TYPE)); [contradiction | reflexivity].
Qed.

Lemma define_same st sc name l : getitem st sc name = Some l -> define st sc name l = st.
Proof.
  unfold getitem, define, with_symbols. intros H.
  rewrite insert_id by exact H. destruct st; reflexivity.
Qed.

Lemma built_name a shape : var_name (built a shape) = Ok (a_name a).
Proof. unfold built. destruct (scalar_test _ _); reflexivity. Qed.

Lemma built_scope a shape : var_scope (built a shape) = Ok (a_scope a).
Proof. unfold built. destruct (scalar_test _ _); reflexivity. Qed.

Lemma construct_built st a l T :
  resolve_type st a = Some l -> types st !! l = Some T ->
  construct st a = Ok (built a (shape T), define st (a_scope a) (a_name a) l).
Proof.
  intros Hr HT. unfold construct, resolve_shape, built. rewrite Hr.
  unfold deref. rewrite HT. cbn [mbind Result_bind].
  unfold Scalar_init, Array_init, init_type.
  destruct (scalar_test _ _); reflexivity.
Qed.

(** X11. A type handed to [Variable(...)] overwrites the entry of the
  name in the symbol table of the scope, whatever was bound before: for a
  type that is not a derived type the store afterwards is the store with
  that one entry set, and the new variable reads the given type. *)
Theorem Variable_given_type_overwrites (fuel : nat) (st : Store) (a : VarArgs)
        (l : type_id) (T : SymbolType) :
  a_type a = Some (Some l) -> types st !! l = Some T -> dtype T <> DERIVED_TYPE ->
  exists obj,
    Variable_new (S fuel) st a = Ok (obj, define st (a_scope a) (a_name a) l)
    /\ get_type (define st (a_scope a) (a_name a) l) obj = Ok (Some l).
Proof.
  intros Ha HT Hd. exists (built a (shape T)).
  assert (Hr : resolve_type st a = Some l) by (unfold resolve_type; rewrite Ha; reflexivity).
  rewrite Variable_new_S, (construct_built _ _ _ _ Hr HT). cbn [mbind Result_bind].
  rewrite (get_type_var _ _ _ _ (built_name _ _) (built_scope _ _)), getitem_define_eq.
  split; [|reflexivity].
  apply (instantiate_plain _ _ _ _ _ l T (built_name _ _) (built_scope _ _));
    [apply getitem_define_eq | exact HT | exact Hd].
Qed.

Lemma Variable_given_type_overwrites_witness :
  exists obj,
    Variable_new 1 Sample.store
                 (mkVarArgs "a" Sample.typedef_scope None None (Some (Some 1%nat)) None)
    = Ok (obj, define Sample.store Sample.typedef_scope "a" 1%nat)
    /\ get_type (define Sample.store Sample.typedef_scope "a" 1%nat) obj = Ok (Some 1%nat).
Proof.
  apply (Variable_given_type_overwrites
           0 Sample.store
           (mkVarArgs "a" Sample.typedef_scope None None (Some (Some 1%nat)) None)
           1%nat Sample.vector_type);
    [reflexivity | reflexivity | discriminate].
Defined.

(** X12. [Variable(...)] for a name that is declared in the scope, and
  without a type of its own, changes nothing in the store when the
  declared type is not a derived type: the variable reads the declared
  type. *)
Theorem Variable_of_declared_name (fuel : nat) (st : Store) (a : VarArgs)
        (l : type_id) (T : SymbolType) :
  a_type a = None -> getitem st (a_scope a) (a_name a) = Some l ->
  types st !! l = Some T -> dtype T <> DERIVED_TYPE ->
  exists obj,
    Variable_new (S fuel) st a = Ok (obj, st) /\ get_type st obj = Ok (Some l).
Proof.
  intros Ha Hl HT Hd. exists (built a (shape T)).
  assert (Hr : resolve_type st a = Some l) by (unfold resolve_type; rewrite Ha; exact Hl).
  rewrite Variable_new_S, (construct_built _ _ _ _ Hr HT). cbn [mbind Result_bind].
  rewrite (define_same _ _ _ _ Hl).
  rewrite (get_type_var _ _ _ _ (built_name _ _) (built_scope _ _)), Hl.
  split; [|reflexivity].
  apply (instantiate_plain _ _ _ _ _ l T (built_name _ _) (built_scope _ _));
    [exact Hl | exact HT | exact Hd].
Qed.

Lemma Variable_of_declared_name_witness :
  exists obj,
    Variable_new 1 Sample.store
                 (mkVarArgs "b" Sample.typedef_scope None None None None)
    = Ok (obj, Sample.store)
    /\ get_type Sample.store obj = Ok (Some 1%nat).
Proof.
  apply (Variable_of_declared_name
           0 Sample.store (mkVarArgs "b" Sample.typedef_scope None None None None)
           1%nat Sample.vector_type);
    [reflexivity | reflexivity | reflexivity | discriminate].
Defined.

(** X13. [Variable(...)] for a name that is not declared in the scope,
  and without a type, enters a new [DEFERRED] type for it: the name is
  bound to a type object that was not there before, and no other entry of
  any symbol table changes. *)
Theorem Variable_of_undeclared_name (fuel : nat) (st : Store) (a : VarArgs) :
  wf st ->
  resolve_type st a = None -> getitem st (a_scope a) (a_name a) = None ->
  exists obj st',
    Variable_new (S fuel) st a = Ok (obj, st')
    /\ obj = built a None
    /\ (exists l, get_type st' obj = Ok (Some l)
                  /\ types st !! l = None
                  /\ types st' !! l = Some (SymbolType_new DEFERRED))
    /\ (forall sc name,
           (sc, format_lookup_name name) <> (a_scope a, format_lookup_name (a_name a)) ->
           getitem st' sc name = getitem st sc name).
Proof.
  intros Hwf Hr Hb.
  set (st' := define (alloc_type st (SymbolType_new DEFERRED)).2
                     (a_scope a) (a_name a) (next_type st)).
  assert (Hc : construct st a = Ok (built a None, st')).
  { unfold construct, resolve_shape, built. rewrite Hr. cbn [mbind Result_bind].
    unfold Scalar_init, Array_init, init_type.
    change (alloc_type st (SymbolType_new DEFERRED))
      with (next_type st, (alloc_type st (SymbolType_new DEFERRED)).2).
    cbn iota. unfold setdefault. rewrite getitem_alloc_type, Hb.
    destruct (scalar_test _ _); reflexivity. }
  assert (Hl : getitem st' (a_scope a) (a_name a) = Some (next_type st))
    by apply getitem_define_eq.
  assert (HT : types st' !! next_type st = Some (SymbolType_new DEFERRED)).
  { unfold st'. cbn [types define with_symbols alloc_type snd].
    apply lookup_insert_eq. }
  exists (built a None), st'. split; [|split; [reflexivity|split]].
  - rewrite Variable_new_S, Hc. cbn [mbind Result_bind].
    apply (instantiate_plain _ _ _ _ _ _ _ (built_name _ _) (built_scope _ _) Hl HT).
    discriminate.
  - exists (next_type st).
    rewrite (get_type_var _ _ _ _ (built_name _ _) (built_scope _ _)), Hl.
    split; [reflexivity|]. split; [|exact HT].
    destruct (types st !! next_type st) eqn:E; [|reflexivity].
    destruct Hwf as [Hwf _].
    assert (Hs : is_Some (types st !! next_type st)) by (rewrite E; eauto).
    apply Hwf in Hs. lia.
  - intros sc name Hne. unfold st'.
    rewrite getitem_define_ne by (intros E; apply Hne; symmetry; exact E).
    apply getitem_alloc_type.
Qed.

Lemma Variable_of_undeclared_name_witness :
  exists obj st',
    Variable_new 1 Sample.store (mkVarArgs "y" Sample.routine_scope None None None None)
    = Ok (obj, st')
    /\ obj = built (mkVarArgs "y" Sample.routine_scope None None None None) None
    /\ (exists l, get_type st' obj = Ok (Some l)
                  /\ types Sample.store !! l = None
                  /\ types st' !! l = Some (SymbolType_new DEFERRED))
    /\ (forall sc name,
           (sc, format_lookup_name name)
           <> (Sample.routine_scope, format_lookup_name "y") ->
           getitem st' sc name = getitem Sample.store sc name).
Proof.
  apply (Variable_of_undeclared_name
           0 Sample.store (mkVarArgs "y" Sample.routine_scope None None None None));
    [apply wf_check_sound; reflexivity | reflexivity | reflexivity].
Defined.

End VariableFacts.

(** ** What the passes leave behind ([util.py], [fparser.py]) *)

Section PipelineFacts.
Import IR Passes Rewrites Pipeline.
Local Open Scope list_scope.

Lemma all_pairs_cons R a l :
  all_pairs R (a :: l) = true
  <-> (forall b, head l = Some b -> R a b = true) /\ all_pairs R l = true.
Proof.
  cbn [all_pairs]. rewrite andb_true_iff. destruct l as [|b l]; cbn [head].
  - split; intros [_ H]; (split; [|exact H]); [intros b; discriminate | reflexivity].
  - split; intros [H1 H2]; (split; [|exact H2]).
    + intros b' [= <-]. exact H1.
    + apply H1. reflexivity.
Qed.

(** *** Trees a pass has nothing to do in *)

Lemma fixed_tree (spec_in : (Node -> Node) -> list Node -> list Node) spec Q :
  (forall o, spec o = descend (spec_in spec) o) ->
  (forall items, Q items = true -> Forall (fun x => spec x = x) items ->
                 spec_in spec items = items) ->
  forall o, everywhere Q o = true -> spec o = o.
Proof.
  intros Hspec Hseq o.
  induction o as [o IH] using Node_subnodes_ind. intros HQ.
  rewrite (Hspec o).
  destruct o; cbn [subnodes everywhere descend] in IH, HQ |- *; try reflexivity.
  - apply andb_true_iff in HQ as [H1 H2].
    rewrite (Hseq _ H1 (settled_items _ _ _ H2 IH)). reflexivity.
  - apply andb_true_iff in HQ as [H1 H2].
    rewrite (Hseq _ H1 (settled_items _ _ _ H2 IH)). reflexivity.
  - apply andb_true_iff in HQ as [Hb He].
    apply andb_true_iff in Hb as [H1 H2]. apply andb_true_iff in He as [H3 H4].
    apply Forall_app in IH as [IH1 IH2].
    rewrite (Hseq _ H1 (settled_items _ _ _ H2 IH1)).
    rewrite (Hseq _ H3 (settled_items _ _ _ H4 IH2)). reflexivity.
Qed.

Lemma cluster_in_fixed f items :
  Forall (fun x => f x = x) items -> comments_apart items = true ->
  cluster_in f [] items = items
  /\ forall c, comments_apart (Comment c :: items) = true ->
               cluster_in f [c] items = Comment c :: items.
Proof.
  induction 1 as [|a rest Ha _ IH]; intros Hap.
  - split; reflexivity.
  - pose proof (proj1 (all_pairs_cons _ _ _) Hap) as [_ Hrest].
    destruct (IH Hrest) as [IH1 IH2]. split.
    + destruct (decide (type_of a = TComment)) as [E|E].
      * destruct a; try discriminate. cbn [cluster_in app]. apply IH2. exact Hap.
      * rewrite cluster_in_other by exact E. rewrite Ha, IH1. reflexivity.
    + intros c Hc. apply all_pairs_cons in Hc as [Hc _].
      specialize (Hc a eq_refl). cbn in Hc.
      assert (E : type_of a <> TComment).
      { intros E. rewrite (bool_decide_eq_true_2 (type_of a = TComment) E) in Hc.
        discriminate. }
      rewrite cluster_in_other by exact E. rewrite Ha, IH1. reflexivity.
Qed.

Lemma attach_fixed f items :
  Forall (fun x => f x = x) items -> pragmas_taken items = true ->
  attach_pragmas_in f items = items.
Proof.
  induction 1 as [|a rest Ha _ IH]; intros Hq; [reflexivity|].
  apply all_pairs_cons in Hq as [Hhd Hrest].
  destruct (decide (type_of a = TPragma)) as [E|E].
  - destruct a as [| | | | |p| | | |]; try discriminate.
    rewrite attach_cons_keep.
    + rewrite Ha, (IH Hrest). reflexivity.
    + intros b Hb. specialize (Hhd b Hb). cbn in Hhd.
      destruct (takes_pragma b); [discriminate | reflexivity].
  - rewrite attach_cons_other by exact E. rewrite Ha, (IH Hrest). reflexivity.
Qed.

Lemma merge_fixed f items :
  Forall (fun x => f x = x) items -> comments_taken items = true ->
  merge_comments_in f items = items.
Proof.
  induction 1 as [|a rest Ha _ IH]; intros Hq; [reflexivity|].
  apply all_pairs_cons in Hq as [Hhd Hrest].
  rewrite merge_cons_keep.
  - rewrite Ha, (IH Hrest). reflexivity.
  - intros c Hc. specialize (Hhd _ Hc). cbn in Hhd.
    destruct (takes_comment a c); [discriminate | reflexivity].
Qed.

(** X14. Each pass hands back a tree it has nothing to do in as it is:
  inline-comment merging when no comment follows a statement or declaration
  on the line on which that node ends, comment clustering when no two
  comments are neighbours, pragma inlining when no pragma stands in front
  of a declaration, call or loop. *)
Theorem passes_keep_normal_trees (ir : Node) :
  (everywhere comments_taken ir = true -> inline_comments ir = Some ir)
  /\ (everywhere comments_apart ir = true -> cluster_comments ir = Some ir)
  /\ (everywhere pragmas_taken ir = true -> inline_pragmas ir = Some ir).
Proof.
  split; [|split]; intros HQ.
  - rewrite inline_comments_merges. f_equal.
    apply (fixed_tree merge_comments_in merged_comments comments_taken);
      [apply merged_comments_unfold | | exact HQ].
    intros items Hq Hall. apply merge_fixed; assumption.
  - rewrite cluster_comments_clusters. f_equal.
    apply (fixed_tree (fun inside => cluster_in inside []) clustered_comments comments_apart);
      [apply clustered_comments_unfold | | exact HQ].
    intros items Hq Hall. apply cluster_in_fixed; assumption.
  - rewrite inline_pragmas_attaches. f_equal.
    apply (fixed_tree attach_pragmas_in attached_pragmas pragmas_taken);
      [apply attached_pragmas_unfold | | exact HQ].
    intros items Hq Hall. apply attach_fixed; assumption.
Qed.

Lemma passes_keep_normal_trees_witness :
  inline_comments (Tuple [assign 1; Comment (remark "x" 2); counted [assign 4] None 3])
  = Some (Tuple [assign 1; Comment (remark "x" 2); counted [assign 4] None 3])
  /\ cluster_comments (Tuple [assign 1; Comment (remark "x" 2); counted [assign 4] None 3])
     = Some (Tuple [assign 1; Comment (remark "x" 2); counted [assign 4] None 3])
  /\ inline_pragmas (Tuple [assign 1; Comment (remark "x" 2); counted [assign 4] None 3])
     = Some (Tuple [assign 1; Comment (remark "x" 2); counted [assign 4] None 3]).
Proof.
  pose proof (passes_keep_normal_trees
                (Tuple [assign 1; Comment (remark "x" 2); counted [assign 4] None 3]))
    as (H1 & H2 & H3).
  split; [apply H1; reflexivity | split; [apply H2; reflexivity | apply H3; reflexivity]].
Defined.

(** *** What holds of a tree after a pass *)

Lemma everywhere_out (spec_in : (Node -> Node) -> list Node -> list Node) spec Q :
  (forall o, spec o = descend (spec_in spec) o) ->
  (forall items, Q (spec_in spec items) = true) ->
  (forall items, Forall (fun x => everywhere Q (spec x) = true) items ->
                 forallb (everywhere Q) (spec_in spec items) = true) ->
  forall o, everywhere Q (spec o) = true.
Proof.
  intros Hspec HQ Hall o.
  induction o as [o IH] using Node_subnodes_ind.
  rewrite (Hspec o).
  destruct o; cbn [subnodes everywhere descend] in IH |- *; try reflexivity.
  - rewrite HQ, (Hall _ IH). reflexivity.
  - rewrite HQ, (Hall _ IH). reflexivity.
  - apply Forall_app in IH as [IH1 IH2].
    rewrite !HQ, (Hall _ IH1), (Hall _ IH2). reflexivity.
Qed.

Lemma everywhere_kept (spec_in : (Node -> Node) -> list Node -> list Node) spec Q :
  (forall o, spec o = descend (spec_in spec) o) ->
  (forall items, Q items = true -> Q (spec_in spec items) = true) ->
  (forall items, Forall (fun x => everywhere Q (spec x) = true) items ->
                 forallb (everywhere Q) (spec_in spec items) = true) ->
  forall o, everywhere Q o = true -> everywhere Q (spec o) = true.
Proof.
  intros Hspec HQ Hall o.
  induction o as [o IH] using Node_subnodes_ind. intros Ho.
  rewrite (Hspec o).
  destruct o; cbn [subnodes everywhere descend] in IH, Ho |- *; try reflexivity.
  - apply andb_true_iff in Ho as [H1 H2].
    rewrite (HQ _ H1), (Hall _ (settled_items _ _ _ H2 IH)). reflexivity.
  - apply andb_true_iff in Ho as [H1 H2].
    rewrite (HQ _ H1), (Hall _ (settled_items _ _ _ H2 IH)). reflexivity.
  - apply andb_true_iff in Ho as [Hb He].
    apply andb_true_iff in Hb as [H1 H2]. apply andb_true_iff in He as [H3 H4].
    apply Forall_app in IH as [IH1 IH2].
    rewrite (HQ _ H1), (HQ _ H3), (Hall _ (settled_items _ _ _ H2 IH1)),
      (Hall _ (settled_items _ _ _ H4 IH2)). reflexivity.
Qed.

Lemma apart_cons_other a l :
  type_of a <> TComment -> comments_apart (a :: l) = comments_apart l.
Proof.
  intros E. unfold comments_apart. cbn [all_pairs].
  rewrite (bool_decide_eq_false_2 _ E). destruct l; reflexivity.
Qed.

Lemma apart_before_other a b l :
  type_of b <> TComment -> comments_apart (a :: b :: l) = comments_apart (b :: l).
Proof.
  intros E. unfold comments_apart. cbn [all_pairs].
  rewrite (bool_decide_eq_false_2 _ E), andb_false_r. reflexivity.
Qed.

Lemma cluster_in_apart f :
  (forall x, type_of (f x) = type_of x) ->
  forall items run, comments_apart (cluster_in f run items) = true.
Proof.
  intros Hty. induction items as [|a rest IH]; intros run.
  - destruct run as [|c [|c2 run]]; reflexivity.
  - destruct (decide (type_of a = TComment)) as [E|E].
    + destruct a; try discriminate. cbn [cluster_in]. apply IH.
    + rewrite cluster_in_other by exact E.
      assert (E' : type_of (f a) <> TComment) by (rewrite Hty; exact E).
      destruct run as [|c [|c2 run]]; cbn [flush app];
        rewrite ?(apart_before_other _ _ _ E'), (apart_cons_other _ _ E'); apply IH.
Qed.

Lemma cluster_in_everywhere f Q :
  forall items run,
    Forall (fun x => everywhere Q (f x) = true) items ->
    forallb (everywhere Q) (cluster_in f run items) = true.
Proof.
  induction items as [|a rest IH]; intros run Hall.
  - destruct run as [|c [|c2 run]]; reflexivity.
  - inversion Hall as [|? ? Ha Hrest]; subst.
    destruct (decide (type_of a = TComment)) as [E|E].
    + destruct a; try discriminate. cbn [cluster_in]. apply IH. exact Hrest.
    + rewrite cluster_in_other by exact E. rewrite forallb_app. cbn [forallb].
      rewrite Ha, (IH [] Hrest).
      destruct run as [|c [|c2 run]]; reflexivity.
Qed.

Lemma clustered_apart o : everywhere comments_apart (clustered_comments o) = true.
Proof.
  apply (everywhere_out (fun inside => cluster_in inside []) clustered_comments).
  - apply clustered_comments_unfold.
  - intros items. apply cluster_in_apart, clustered_comments_type.
  - intros items Hall. apply cluster_in_everywhere. exact Hall.
Qed.

(** X15. After comment clustering no two [Comment] nodes are neighbours
  in any sequence of the tree: every run of comments has become one
  block. *)
Theorem cluster_comments_leaves_no_run (ir : Node) :
  exists out, cluster_comments ir = Some out /\ everywhere comments_apart out = true.
Proof.
  exists (clustered_comments ir). split; [apply cluster_comments_clusters|].
  apply clustered_apart.
Qed.

Lemma attach_head_type f l y :
  (forall x, type_of (f x) = type_of x) ->
  head (attach_pragmas_in f l) = Some y -> type_of y = TComment ->
  exists x, head l = Some x /\ type_of x = TComment.
Proof.
  intros Hty. destruct l as [|a rest]; [discriminate|].
  destruct (decide (type_of a = TPragma)) as [E|E].
  - destruct a as [| | | | |p| | | |]; try discriminate.
    cbn [attach_pragmas_in]. destruct rest as [|b rest'].
    + intros [= <-] Hy. rewrite Hty in Hy. discriminate.
    + destruct (takes_pragma b) eqn:Hb.
      * intros [= <-] Hy. rewrite set_pragma_type, Hty in Hy.
        apply takes_pragma_type in Hb as [Hb|[Hb|Hb]]; congruence.
      * intros [= <-] Hy. rewrite Hty in Hy. discriminate.
  - rewrite attach_cons_other by exact E. intros [= <-] Hy.
    rewrite Hty in Hy. exists a. split; [reflexivity | exact Hy].
Qed.

Lemma attach_apart f :
  (forall x, type_of (f x) = type_of x) ->
  forall n items, (length items <= n)%nat ->
                  comments_apart items = true ->
                  comments_apart (attach_pragmas_in f items) = true.
Proof.
  intros Hty. induction n as [|n IH]; intros items Hlen Hap.
  - destruct items; [reflexivity | cbn in Hlen; lia].
  - destruct items as [|a rest]; [reflexivity|].
    pose proof (proj1 (all_pairs_cons _ _ _) Hap) as [Hhd Hrest].
    assert (Hkeep : comments_apart (f a :: attach_pragmas_in f rest) = true).
    { apply all_pairs_cons. split; [|apply IH; [cbn in Hlen; lia | exact Hrest]].
      intros y Hy. destruct (decide (type_of y = TComment)) as [Ey|Ey].
      - destruct (attach_head_type f rest y Hty Hy Ey) as (x & Hx & Ex).
        specialize (Hhd x Hx). rewrite Hty, Ey.
        rewrite (bool_decide_eq_true_2 (type_of x = TComment) Ex) in Hhd.
        rewrite (bool_decide_eq_true_2 (TComment = TComment) eq_refl).
        exact Hhd.
      - rewrite (bool_decide_eq_false_2 _ Ey), andb_false_r. reflexivity. }
    cbn [attach_pragmas_in]. destruct a as [| | | | |p| | | |]; try exact Hkeep.
    destruct rest as [|b rest']; [exact Hkeep|].
    destruct (takes_pragma b) eqn:Hb; [|exact Hkeep].
    rewrite apart_cons_other.
    + apply IH; [cbn in Hlen; lia|].
      exact (proj2 (proj1 (all_pairs_cons _ _ _) Hrest)).
    + rewrite set_pragma_type, Hty.
      apply takes_pragma_type in Hb as [Hb|[Hb|Hb]]; congruence.
Qed.

Lemma everywhere_set_pragma Q y p : everywhere Q (set_pragma y p) = everywhere Q y.
Proof. destruct y; reflexivity. Qed.

Lemma attach_everywhere f Q :
  forall n items, (length items <= n)%nat ->
                  Forall (fun x => everywhere Q (f x) = true) items ->
                  forallb (everywhere Q) (attach_pragmas_in f items) = true.
Proof.
  induction n as [|n IH]; intros items Hlen Hall.
  - destruct items; [reflexivity | cbn in Hlen; lia].
  - destruct items as [|a rest]; [reflexivity|].
    inversion Hall as [|? ? Ha Hrest]; subst.
    assert (Hkeep : forallb (everywhere Q) (f a :: attach_pragmas_in f rest) = true).
    { cbn [forallb]. rewrite Ha. apply IH; [cbn in Hlen; lia | exact Hrest]. }
    cbn [attach_pragmas_in]. destruct a as [| | | | |p| | | |]; try exact Hkeep.
    destruct rest as [|b rest']; [exact Hkeep|].
    destruct (takes_pragma b); [|exact Hkeep].
    inversion Hrest as [|? ? Hb Hrest']; subst.
    cbn [forallb]. rewrite everywhere_set_pragma, Hb.
    apply IH; [cbn in Hlen; lia | exact Hrest'].
Qed.

Lemma attached_apart o :
  everywhere comments_apart o = true ->
  everywhere comments_apart (attached_pragmas o) = true.
Proof.
  apply (everywhere_kept attach_pragmas_in attached_pragmas).
  - apply attached_pragmas_unfold.
  - intros items H. apply (attach_apart _ attached_pragmas_type (length items)); [lia | exact H].
  - intros items Hall. apply (attach_everywhere _ _ (length items)); [lia | exact Hall].
Qed.

(** X16. The three sanitation steps of [parse_fparser_ast], run one
  after the other, always give a tree, and in that tree no two [Comment]
  nodes are neighbours in any sequence: pragma inlining, which runs last,
  never brings two comments together. *)
Theorem parse_fparser_ast_passes_result (ir : Node) :
  exists out,
    parse_fparser_ast_passes ir = Some out
    /\ everywhere comments_apart out = true.
Proof.
  exists (attached_pragmas (clustered_comments (merged_comments ir))). split.
  - unfold parse_fparser_ast_passes.
    rewrite inline_comments_merges. cbn [mbind option_bind].
    rewrite cluster_comments_clusters. cbn [mbind option_bind].
    apply inline_pragmas_attaches.
  - apply attached_apart, clustered_apart.
Qed.

End PipelineFacts.

(** ** Kernel code ([maxgen.py]) *)

Section KernelFacts.
Import IR Types Passes Rewrites Maxj Kernel.

Variable stringify : Value -> String.string.
Variable maxjsymgen : Value -> String.string.
Variable visit_Declaration : nat -> Node -> Result String.string.
Variable loop_header : nat -> Value -> list Value -> Result String.string.

Lemma char_in_append c (a b : String.string) :
  PyStr.char_in c (a ++ b) = PyStr.char_in c a || PyStr.char_in c b.
Proof.
  induction a as [|d a IH]; [reflexivity|].
  rewrite append_cons. cbn [PyStr.char_in]. destruct (Ascii.eqb c d); [reflexivity | exact IH].
Qed.

Lemma char_in_indent depth : PyStr.char_in "!" (indent depth) = false.
Proof.
  unfold indent. induction depth as [|n IH]; [reflexivity|].
  cbn [PyStr.repeat]. rewrite char_in_append, IH. reflexivity.
Qed.

Lemma char_in_replaced text : PyStr.char_in "!" (PyStr.replace_char "!" "//" text) = false.
Proof.
  induction text as [|d text IH]; [reflexivity|].
  cbn [PyStr.replace_char]. destruct (Ascii.eqb "!" d) eqn:E.
  - rewrite char_in_append, IH. reflexivity.
  - cbn [PyStr.char_in]. rewrite E. exact IH.
Qed.

(** X17. The line [visit_Comment] emits for a comment holds no
  exclamation mark: every one of the Fortran text has become [//]. It
  fails, with [AttributeError], exactly when the comment has no text of
  its own and no source text either. *)
Theorem visit_Comment_line (depth : nat) (o : CommentData) :
  (forall line, visit_Comment depth o = Ok line -> PyStr.char_in "!" line = false)
  /\ (visit_Comment depth o = Raise AttributeError
      <-> text o = None /\ (forall src, c_source o = Some src -> IR.string src = None))
  /\ (is_Ok (visit_Comment depth o) = false -> visit_Comment depth o = Raise AttributeError).
Proof.
  unfold visit_Comment. destruct o as [t src]. cbn [text c_source].
  destruct t as [t|]; [|destruct src as [[ln [s|] fl lb]|]]; cbn [mbind Result_bind IR.string].
  - split; [|split].
    + intros line [= <-]. rewrite char_in_append, char_in_indent, char_in_replaced. reflexivity.
    + split; [discriminate | intros [H _]; discriminate].
    + discriminate.
  - split; [|split].
    + intros line [= <-]. rewrite char_in_append, char_in_indent, char_in_replaced. reflexivity.
    + split; [discriminate | intros [_ H]; specialize (H _ eq_refl); discriminate].
    + discriminate.
  - split; [|split].
    + discriminate.
    + split; [|reflexivity]. intros _. split; [reflexivity|].
      intros src' [= <-]. reflexivity.
    + reflexivity.
  - split; [|split].
    + discriminate.
    + split; [|reflexivity]. intros _. split; [reflexivity | discriminate].
    + reflexivity.
Qed.

(** X18. [visit_SymbolType] prints a type for the logical, integer,
  real and derived types and fails, with [ValueError], exactly for the
  character and the deferred type. *)
Theorem visit_SymbolType_defined (o : SymbolType) :
  (is_Ok (visit_SymbolType stringify o) = true
   <-> dtype o <> CHARACTER /\ dtype o <> DEFERRED)
  /\ (is_Ok (visit_SymbolType stringify o) = false ->
      visit_SymbolType stringify o = Raise (ValueError "SymbolType")).
Proof.
  unfold visit_SymbolType, maxj_dfevar_type, maxj_local_type.
  destruct (dtype o) eqn:E; cbn; destruct (dfevar o); cbn;
    repeat match goal with
           | |- context [if ?b then _ else _] => destruct b
           end; cbn;
    (split; [split; [intros; split; discriminate | intros [H1 H2]; congruence]
            | congruence]).
Qed.

(** *** Clustered comments in the kernel code *)

Lemma bind_ret {A} (m : Result A) : (x ← m; Ok x) = m.
Proof. destruct m; reflexivity. Qed.

Lemma traverse_length {A B} (f : A -> Result B) l ys :
  traverse f l = Ok ys -> length ys = length l.
Proof.
  revert ys. induction l as [|x rest IH]; intros ys; [intros [= <-]; reflexivity|].
  cbn [traverse]. destruct (f x) as [y|e]; [|discriminate]. cbn [mbind Result_bind].
  destruct (traverse f rest) as [ys'|e]; [|discriminate]. cbn [mbind Result_bind].
  intros [= <-]. cbn. rewrite (IH ys' eq_refl). reflexivity.
Qed.

Lemma traverse_map {A B C} (f : B -> Result C) (g : A -> B) l :
  traverse f (map g l) = traverse (fun x => f (g x)) l.
Proof.
  induction l as [|x rest IH]; [reflexivity|].
  cbn [map traverse]. rewrite IH. reflexivity.
Qed.

Lemma visit_tuple_cons f y C :
  visit_tuple f (y :: C)
  = match C with
    | [] => f y
    | _ :: _ => a ← f y; b ← visit_tuple f C; Ok (a ++ newline ++ b)
    end.
Proof.
  unfold visit_tuple. cbn [traverse]. destruct C as [|z C].
  - cbn [traverse]. destruct (f y); reflexivity.
  - destruct (f y) as [a|e]; [|reflexivity]. cbn [mbind Result_bind].
    destruct (traverse f (z :: C)) as [ys|e] eqn:E; [|reflexivity].
    cbn [mbind Result_bind]. apply traverse_length in E.
    destruct ys as [|b ys]; [discriminate|]. reflexivity.
Qed.

Lemma visit_tuple_app f A B :
  visit_tuple f (A ++ B)%list
  = match A, B with
    | [], _ => visit_tuple f B
    | _, [] => visit_tuple f A
    | _, _ => a ← visit_tuple f A; b ← visit_tuple f B; Ok (a ++ newline ++ b)
    end.
Proof.
  induction A as [|y A IH]; [reflexivity|].
  destruct B as [|z B]; [rewrite app_nil_r; reflexivity|].
  cbn [app]. rewrite (visit_tuple_cons f y (A ++ z :: B)%list), (visit_tuple_cons f y A).
  destruct A as [|y' A].
  - cbn [app]. destruct (f y); reflexivity.
  - cbn [app] in *. rewrite IH.
    destruct (f y) as [a|e]; [|reflexivity]. cbn [mbind Result_bind].
    destruct (visit_tuple f (y' :: A)) as [b|e]; [|reflexivity]. cbn [mbind Result_bind].
    destruct (visit_tuple f (z :: B)) as [c|e]; [|reflexivity]. cbn [mbind Result_bind].
    rewrite !append_assoc. reflexivity.
Qed.

Lemma visit_flush depth run :
  visit_tuple (visit maxjsymgen visit_Declaration loop_header depth) (flush run)
  = visit_tuple (visit maxjsymgen visit_Declaration loop_header depth) (map Comment run).
Proof.
  destruct run as [|c [|c2 run]]; [reflexivity | reflexivity |].
  cbn [flush]. rewrite visit_tuple_cons. cbn [visit].
  unfold visit_CommentBlock, visit_tuple. rewrite traverse_map. reflexivity.
Qed.

Lemma flush_nil run : flush run = [] <-> run = [].
Proof. destruct run as [|c [|c2 run]]; split; intros; try reflexivity; discriminate. Qed.

Lemma visit_tuple_flush depth run B :
  visit_tuple (visit maxjsymgen visit_Declaration loop_header depth) (flush run ++ B)%list
  = visit_tuple (visit maxjsymgen visit_Declaration loop_header depth)
                (map Comment run ++ B)%list.
Proof.
  rewrite !visit_tuple_app, visit_flush.
  destruct run as [|c [|c2 run]]; reflexivity.
Qed.

Lemma cluster_in_nil g items : cluster_in g [] items = [] -> items = [].
Proof.
  destruct items as [|a rest]; [reflexivity|].
  destruct (decide (type_of a = TComment)) as [E|E].
  - destruct a; try discriminate. cbn [cluster_in app].
    assert (H : forall l run, run <> [] -> cluster_in g run l <> []).
    { induction l as [|x l IH]; intros run Hrun.
      - cbn. intros H. apply flush_nil in H. contradiction.
      - destruct (decide (type_of x = TComment)) as [Ex|Ex].
        + destruct x; try discriminate. cbn [cluster_in]. apply IH.
          destruct run; discriminate.
        + rewrite cluster_in_other by exact Ex. destruct (flush run); discriminate. }
    intros H0. exfalso. exact (H rest [c] ltac:(discriminate) H0).
  - rewrite cluster_in_other by exact E. discriminate.
Qed.

Lemma visit_cluster_in depth g :
  forall items run,
    Forall (fun x => forall d, visit maxjsymgen visit_Declaration loop_header d (g x)
                               = visit maxjsymgen visit_Declaration loop_header d x) items ->
    visit_tuple (visit maxjsymgen visit_Declaration loop_header depth) (cluster_in g run items)
    = visit_tuple (visit maxjsymgen visit_Declaration loop_header depth)
                  (map Comment run ++ items)%list.
Proof.
  induction items as [|a rest IH]; intros run Hall.
  - cbn [cluster_in]. rewrite app_nil_r. apply visit_flush.
  - inversion Hall as [|? ? Ha Hrest]; subst.
    destruct (decide (type_of a = TComment)) as [E|E].
    + destruct a; try discriminate. cbn [cluster_in]. rewrite (IH _ Hrest).
      rewrite map_app, <- app_assoc. reflexivity.
    + rewrite cluster_in_other by exact E. rewrite visit_tuple_flush.
      rewrite !(visit_tuple_app _ (map Comment run)).
      rewrite !visit_tuple_cons, Ha.
      pose proof (IH [] Hrest) as IH0. cbn [map app] in IH0. rewrite IH0.
      destruct (cluster_in g [] rest) as [|z C] eqn:EC.
      * apply cluster_in_nil in EC. subst rest. reflexivity.
      * destruct rest as [|r rest']; [discriminate|]. reflexivity.
Qed.

Lemma visit_clustered o :
  forall depth,
    visit maxjsymgen visit_Declaration loop_header depth (clustered_comments o)
    = visit maxjsymgen visit_Declaration loop_header depth o.
Proof.
  induction o as [o IH] using Node_subnodes_ind. intros depth.
  rewrite clustered_comments_unfold.
  destruct o; cbn [descend subnodes] in IH |- *; try reflexivity.
  - cbn [visit]. exact (visit_cluster_in depth clustered_comments items [] IH).
  - cbn [visit].
    rewrite (visit_cluster_in (S depth) clustered_comments body [] IH). reflexivity.
Qed.

(** X19. Comment clustering does not show in the kernel code: for every
  tree, at every depth of indentation, the generator emits for the
  clustered tree what it emits for the tree itself, the same text or the
  same failure. *)
Theorem cluster_comments_same_kernel (ir : Node) (depth : nat) :
  exists out,
    cluster_comments ir = Some out
    /\ visit maxjsymgen visit_Declaration loop_header depth out
       = visit maxjsymgen visit_Declaration loop_header depth ir.
Proof.
  exists (clustered_comments ir). split; [apply cluster_comments_clusters|].
  apply visit_clustered.
Qed.

End KernelFacts.

(** ** The type of a stream variable ([maxgen.py]) *)

Section StreamFacts.
Import Streams.

Lemma append_empty s : (s ++ "")%string = s.
Proof.
  induction s as [|c s IH]; [reflexivity|]. rewrite append_cons. f_equal. exact IH.
Qed.

Lemma repeat_comm s n : (PyStr.repeat s n ++ s = s ++ PyStr.repeat s n)%string.
Proof.
  induction n as [|n IH].
  - cbn [PyStr.repeat]. rewrite append_nil, append_empty. reflexivity.
  - cbn [PyStr.repeat]. rewrite append_assoc, IH. reflexivity.
Qed.

Lemma percent_vector p :
  percent "DFEVector<%s>" p = Some ("DFEVector<" ++ p ++ ">")%string.
Proof. reflexivity. Qed.

Lemma reduce_replicate k p :
  reduce_percent p (replicate k "DFEVector<%s>"%string)
  = Some (PyStr.repeat "DFEVector<" k ++ p ++ PyStr.repeat ">" k)%string.
Proof.
  revert p. induction k as [|k IH]; intros p.
  - cbn [replicate reduce_percent PyStr.repeat]. rewrite append_nil, append_empty.
    reflexivity.
  - cbn [replicate reduce_percent]. rewrite percent_vector. cbn [mbind option_bind].
    rewrite IH. f_equal. cbn [PyStr.repeat].
    rewrite !append_assoc.
    rewrite <- (append_assoc (PyStr.repeat "DFEVector<" k) "DFEVector<").
    rewrite repeat_comm, append_assoc. reflexivity.
Qed.

(** X20. The types [type_and_stream] builds for a variable with [L]
  dimensions: there are [L + 1] of them, the one at index [i] is [DFEVar]
  inside [i] nested [DFEVector<...>], and the type returned is the one with
  all [L] levels. *)
Theorem vector_type_nested (L : nat) :
  vector_types L
  = Some (map (fun i => PyStr.repeat "DFEVector<" i ++ "DFEVar" ++ PyStr.repeat ">" i)%string
              (seq 0 (L + 1)))
  /\ vector_type L
     = Some (PyStr.repeat "DFEVector<" L ++ "DFEVar" ++ PyStr.repeat ">" L)%string.
Proof.
  assert (H : vector_types L
              = Some (map (fun i => PyStr.repeat "DFEVector<" i ++ "DFEVar"
                                    ++ PyStr.repeat ">" i)%string
                          (seq 0 (L + 1)))).
  { unfold vector_types. apply mapM_Some.
    rewrite <- (fmap_S_seq 0 (L + 1)).
    change (map ?f ?l) with (f <$> l).
    apply Forall2_fmap. apply Forall_Forall2_diag, Forall_forall.
    intros i Hi. apply elem_of_seq in Hi. cbn [take].
    rewrite take_replicate, Nat.min_l by lia. apply reduce_replicate. }
  split; [exact H|]. unfold vector_type. rewrite H. cbn [mbind option_bind].
  rewrite seq_app. cbn [seq]. change (map ?f ?l) with (f <$> l).
  rewrite fmap_app. cbn [fmap list_fmap]. rewrite last_snoc. reflexivity.
Qed.

End StreamFacts.

(** ** Statement labels ([util.py]) *)

Section LabelFacts.
Import IR Passes Rewrites Labels.
Local Open Scope list_scope.

Lemma inline_labels_local : local_pass label_finders inline_labels_entries.
Proof.
  constructor.
  - intros f items m [<-|[<-|[]]]; apply tuple_matches_here.
  - intros f o [<-|[<-|[]]]; destruct o; reflexivity.
  - intros i [t idx nodes]. unfold inline_labels_entries. cbn [m_nodes enter].
    destruct nodes as [|[] [|b [|]]]; try reflexivity.
    destruct (labels c b); reflexivity.
  - intros [t idx nodes] kv. unfold inline_labels_entries. cbn [m_nodes].
    destruct nodes as [|[] [|b [|]]]; try solve [intros []].
    destruct (labels c b); [|intros []].
    intros [<-|[<-|[]]]; eexists; reflexivity.
Qed.

Lemma inline_labels_rewrites ir :
  inline_labels ir
  = Some (rewrite (local_mapper label_finders inline_labels_entries) ir).
Proof.
  rewrite <- (pass_rewrites _ _ _ inline_labels_local).
  unfold inline_labels, pass_mapper, label_finders, PatternFinder. cbn [flat_map].
  rewrite app_nil_r. reflexivity.
Qed.

Lemma takes_label_type c b :
  takes_label c b = true ->
  (type_of b = TStatement \/ type_of b = TIntrinsic) /\ labels c b = true.
Proof.
  unfold takes_label. intros H. apply andb_true_iff in H as [H1 H2].
  split; [|exact H2]. apply orb_true_iff in H1 as [H1|H1];
    apply bool_decide_eq_true in H1; auto.
Qed.

Lemma comment_takes_no_label c c' : takes_label c (Comment c') = false.
Proof. reflexivity. Qed.

Lemma in_label_entries items key v :
  In (key, v) (local_mapper label_finders inline_labels_entries items)
  <-> exists i c b,
      items !! i = Some (Comment c) /\ items !! S i = Some b /\ takes_label c b = true
      /\ ((key = [i] /\ v = None)
          \/ (key = [S i] /\ v = Some (set_source b (c_source c)))).
Proof.
  unfold local_mapper, label_finders. cbn [flat_map]. rewrite app_nil_r.
  rewrite in_flat_map. split.
  - intros (m & Hm & Hkv).
    assert (exists i a b, items !! i = Some a /\ items !! S i = Some b
                          /\ type_of a = TComment
                          /\ (type_of b = TStatement \/ type_of b = TIntrinsic)
                          /\ m = mkMatch [] i [a; b])
      as (i & a & b & Ea & Eb & Ha & Hb & ->).
    { apply in_app_or in Hm as [Hm|Hm];
        apply in_tuple_matches in Hm as (i & a & b & Ea & Eb & Ha & Hb & ->);
        exists i, a, b; repeat split; auto. }
    destruct a as [| | |c0| | | | | |]; try discriminate.
    unfold inline_labels_entries in Hkv. cbn [m_nodes] in Hkv.
    destruct (labels c0 b) eqn:Hl; [|destruct Hkv].
    exists i, c0, b. split; [exact Ea|]. split; [exact Eb|]. split.
    { unfold takes_label. rewrite Hl, andb_true_r.
      destruct Hb as [Hb|Hb]; rewrite Hb; reflexivity. }
    unfold node_key in Hkv. cbn [m_tuple m_index app] in Hkv.
    rewrite Nat.add_0_r, Nat.add_1_r in Hkv.
    destruct Hkv as [[= <- <-]|[[= <- <-]|[]]]; auto.
  - intros (i & c0 & b & Ea & Eb & Ht & Hkv).
    destruct (takes_label_type _ _ Ht) as [Hb Hl].
    exists (mkMatch [] i [Comment c0; b]). split.
    + destruct Hb as [Hb|Hb].
      * apply in_or_app. left. apply in_tuple_matches. exists i, (Comment c0), b. auto 10.
      * apply in_or_app. right. apply in_tuple_matches. exists i, (Comment c0), b. auto 10.
    + unfold inline_labels_entries. cbn [m_nodes]. rewrite Hl.
      unfold node_key. cbn [m_tuple m_index app]. rewrite Nat.add_0_r, Nat.add_1_r.
      destruct Hkv as [[-> ->]|[-> ->]]; [left | right; left]; reflexivity.
Qed.

Lemma label_handle_pair items k c b :
  items !! k = Some (Comment c) -> items !! S k = Some b -> takes_label c b = true ->
  mapper_get (local_mapper label_finders inline_labels_entries items) [k] = Some None
  /\ mapper_get (local_mapper label_finders inline_labels_entries items) [S k]
     = Some (Some (set_source b (c_source c))).
Proof.
  intros Ea Eb Ht. split; apply mapper_get_unique.
  - apply in_label_entries. exists k, c, b. auto 10.
  - intros v' Hv'. apply in_label_entries in Hv'
      as (i & c' & b' & Ea' & Eb' & Ht' & [[[= <-] ->]|[[= ->] ->]]).
    + reflexivity.
    + rewrite Ea in Eb'. injection Eb' as <-. rewrite comment_takes_no_label in Ht'.
      discriminate.
  - apply in_label_entries. exists k, c, b. auto 10.
  - intros v' Hv'. apply in_label_entries in Hv'
      as (i & c' & b' & Ea' & Eb' & Ht' & [[[= <-] ->]|[[= <-] ->]]).
    + rewrite Eb in Ea'. injection Ea' as ->. rewrite comment_takes_no_label in Ht.
      discriminate.
    + congruence.
Qed.

Lemma label_handle_none items k a :
  items !! k = Some a ->
  (forall c b, a = Comment c -> items !! S k = Some b -> takes_label c b = false) ->
  (forall k' c, k = S k' -> items !! k' = Some (Comment c) -> takes_label c a = false) ->
  mapper_get (local_mapper label_finders inline_labels_entries items) [k] = None.
Proof.
  intros Ea Hnext Hprev. apply mapper_get_absent. intros v Hv.
  apply in_label_entries in Hv
    as (i & c & b & Ea' & Eb' & Ht' & [[[= <-] ->]|[[= ->] ->]]).
  - rewrite Ea in Ea'. injection Ea' as ->.
    rewrite (Hnext c b eq_refl Eb') in Ht'. discriminate.
  - rewrite Ea in Eb'. injection Eb' as ->.
    rewrite (Hprev i c eq_refl Ea') in Ht'. discriminate.
Qed.

Lemma apply_handle_label g b s :
  type_of b = TStatement \/ type_of b = TIntrinsic ->
  apply_handle (Some (Some (set_source b s))) (descend g b)
  = Some (set_source (descend g b) s).
Proof. destruct b; cbn; intros [H|H]; try discriminate; reflexivity. Qed.

Lemma labels_items g items :
  forall n suf pre,
    (length suf <= n)%nat -> items = pre ++ suf ->
    (forall k' c b, length pre = S k' -> items !! k' = Some (Comment c) ->
                    head suf = Some b -> takes_label c b = false) ->
    visit_items (fun k c =>
                   apply_handle
                     (mapper_get (local_mapper label_finders inline_labels_entries items)
                                 [k])
                     (descend g c))
                suf (length pre)
    = attach_labels_in (descend g) suf.
Proof.
  induction n as [|n IH]; intros suf pre Hlen Hitems Hprev.
  - destruct suf; [reflexivity | cbn in Hlen; lia].
  - destruct suf as [|a rest]; [reflexivity|].
    assert (Ea : items !! length pre = Some a)
      by (rewrite Hitems; apply list_lookup_middle; reflexivity).
    assert (Hrest : items = (pre ++ [a]) ++ rest) by (rewrite <- app_assoc; exact Hitems).
    assert (Hlen1 : length (pre ++ [a]) = S (length pre))
      by (rewrite length_app; cbn; lia).
    assert (Hkeep : (forall c b, a = Comment c -> head rest = Some b ->
                                 takes_label c b = false) ->
                visit_items (fun k c =>
                   apply_handle
                     (mapper_get (local_mapper label_finders inline_labels_entries items)
                                 [k])
                     (descend g c))
                  (a :: rest) (length pre)
                = descend g a :: attach_labels_in (descend g) rest).
    { intros Hno. rewrite visit_items_cons.
      rewrite (label_handle_none items (length pre) a Ea).
      - rewrite apply_handle_none. f_equal.
        rewrite <- (IH rest (pre ++ [a])).
        + f_equal. exact (eq_sym Hlen1).
        + cbn in Hlen. lia.
        + exact Hrest.
        + intros k' c b Hk Hz Hhd. rewrite Hlen1 in Hk. injection Hk as <-.
          rewrite Ea in Hz. injection Hz as ->. exact (Hno c b eq_refl Hhd).
      - intros c b -> Hb. apply (Hno c b eq_refl).
        rewrite Hrest, <- Hlen1 in Hb. destruct rest as [|b' rest'].
        + rewrite lookup_ge_None_2 in Hb; [discriminate|]. rewrite app_nil_r. lia.
        + rewrite list_lookup_middle in Hb by reflexivity. exact Hb.
      - intros k' c Hk Hz. apply (Hprev k' c a Hk Hz). reflexivity. }
    destruct a as [| | |c| | | | | |]; try (apply Hkeep; intros; discriminate).
    destruct rest as [|b rest']; [apply Hkeep; intros; discriminate|].
    cbn [attach_labels_in].
    destruct (takes_label c b) eqn:Ht.
    + assert (Eb : items !! S (length pre) = Some b).
      { rewrite Hrest, <- Hlen1. apply list_lookup_middle. reflexivity. }
      destruct (label_handle_pair items _ _ _ Ea Eb Ht) as [H1 H2].
      rewrite visit_items_cons, H1.
      rewrite apply_handle_drop by (rewrite descend_type; discriminate).
      rewrite visit_items_cons, H2.
      rewrite apply_handle_label by (apply takes_label_type in Ht as [Ht _]; exact Ht).
      f_equal. rewrite <- (IH rest' (pre ++ [Comment c; b])).
      * f_equal. rewrite length_app. cbn. lia.
      * cbn in Hlen. lia.
      * rewrite <- app_assoc. exact Hitems.
      * intros k' c' b' Hk Hz Hhd. rewrite length_app in Hk. cbn in Hk.
        assert (k' = S (length pre)) as -> by lia.
        rewrite Eb in Hz. injection Hz as ->. rewrite comment_takes_no_label in Ht.
        discriminate.
    + apply Hkeep. intros c' b' [= <-] [= <-]. exact Ht.
Qed.

Lemma inline_labels_items g items :
  visit_items (fun k c =>
                 apply_handle
                   (mapper_get (local_mapper label_finders inline_labels_entries items) [k])
                   (descend g c))
              items 0
  = attach_labels_in (descend g) items.
Proof.
  apply (labels_items g items (length items) items []); [lia | reflexivity |].
  intros k' z c Hk. discriminate Hk.
Qed.

Lemma attach_labels_in_ext f g items :
  Forall (fun x => f x = g x) items -> attach_labels_in f items = attach_labels_in g items.
Proof.
  remember (length items) as n eqn:Hn.
  assert (Hlen : (length items <= n)%nat) by lia. clear Hn.
  revert items Hlen. induction n as [|n IH]; intros items Hlen Hall.
  - destruct items; [reflexivity | cbn in Hlen; lia].
  - destruct items as [|a rest]; [reflexivity|].
    inversion Hall as [|? ? Ha Hrest]; subst.
    assert (E : attach_labels_in f rest = attach_labels_in g rest)
      by (apply IH; [cbn in Hlen; lia | exact Hrest]).
    cbn [attach_labels_in]. rewrite Ha.
    destruct a as [| | |c| | | | | |]; try (rewrite E; reflexivity).
    destruct rest as [|b rest']; [reflexivity|].
    inversion Hrest as [|? ? Hb Hrest']; subst. rewrite Hb.
    destruct (takes_label c b); [|rewrite E; reflexivity].
    f_equal. apply IH; [cbn in Hlen; lia | assumption].
Qed.

Lemma labelled_unfold o : labelled o = descend (attach_labels_in labelled) o.
Proof. destruct o; reflexivity. Qed.

Lemma inline_labels_attaches ir : inline_labels ir = Some (labelled ir).
Proof.
  rewrite inline_labels_rewrites. f_equal.
  apply (rewrite_is _ attach_labels_in).
  - apply inline_labels_items.
  - apply attach_labels_in_ext.
  - apply labelled_unfold.
Qed.

Lemma attach_labels_cons_keep f a L :
  (forall c b, a = Comment c -> head L = Some b -> takes_label c b = false) ->
  attach_labels_in f (a :: L) = f a :: attach_labels_in f L.
Proof.
  intros H. cbn [attach_labels_in]. destruct a as [| | |c| | | | | |]; try reflexivity.
  destruct L as [|b L']; [reflexivity|]. rewrite (H c b eq_refl eq_refl). reflexivity.
Qed.

Lemma attach_labels_app f c rest :
  forall n pre, (length pre <= n)%nat ->
    attach_labels_in f (pre ++ Comment c :: rest)
    = attach_labels_in f pre ++ attach_labels_in f (Comment c :: rest).
Proof.
  induction n as [|n IH]; intros pre Hlen.
  - destruct pre; [reflexivity | cbn in Hlen; lia].
  - destruct pre as [|x pre']; [reflexivity|].
    assert (Hcase : (exists c0 b pre'', x = Comment c0 /\ pre' = b :: pre''
                                        /\ takes_label c0 b = true)
                    \/ (forall c0 b, x = Comment c0 -> head pre' = Some b ->
                                     takes_label c0 b = false)).
    { destruct x as [| | |c0| | | | | |]; try (right; intros; discriminate).
      destruct pre' as [|b r]; [right; intros; discriminate|].
      destruct (takes_label c0 b) eqn:E; [left; eauto 10|].
      right. intros ? ? [= <-] [= <-]. exact E. }
    destruct Hcase as [(c0 & b & pre'' & -> & -> & Ht)|Hkeep].
    + cbn [app attach_labels_in]. rewrite Ht.
      rewrite IH by (cbn in Hlen; lia). reflexivity.
    + cbn [app]. rewrite (attach_labels_cons_keep f x pre') by exact Hkeep.
      rewrite attach_labels_cons_keep.
      * rewrite IH by (cbn in Hlen; lia). reflexivity.
      * intros c0 b E Hb. destruct pre' as [|b' r].
        -- injection Hb as <-. apply comment_takes_no_label.
        -- apply (Hkeep c0 b E). exact Hb.
Qed.

Lemma labels_spans c b :
  labels c b = true
  <-> text c = Some label_text
      /\ exists s0 s1, c_source c = Some s0 /\ source_of b = Some s1
                       /\ fst (lines s1) = snd (lines s0).
Proof.
  unfold labels. split.
  - destruct (c_source c) as [s0|]; [|discriminate].
    intros H. apply andb_true_iff in H as [H1 H2]. apply bool_decide_eq_true in H1.
    destruct (source_of b) as [s1|]; [|discriminate].
    split; [exact H1|]. exists s0, s1. repeat split. apply Z.eqb_eq. exact H2.
  - intros (Ht & s0 & s1 & -> & -> & H).
    rewrite (bool_decide_eq_true_2 _ Ht). apply Z.eqb_eq. exact H.
Qed.

(** X21. [inline_labels] rewrites every sequence of siblings. Where a
  [Comment] stands in front of a node, the comment is dropped and its
  source span is given to the node exactly when the node is a [Statement]
  or an [Intrinsic], the comment has a source span and the label text, and
  the node has a span that starts on the line on which the comment ends;
  otherwise the comment stays. What stands in front of the comment is
  rewritten on its own. *)
Theorem inline_labels_rule (pre suf : list Node) (c : CommentData) (b : Node) :
  exists on_items : list Node -> list Node,
    (forall o, inline_labels o = Some (descend on_items o))
    /\ on_items (pre ++ Comment c :: b :: suf)
       = on_items pre
         ++ (if takes_label c b
             then set_source b (c_source c) :: on_items suf
             else Comment c :: on_items (b :: suf))
    /\ (takes_label c b = true
        <-> (type_of b = TStatement \/ type_of b = TIntrinsic)
            /\ text c = Some label_text
            /\ exists s0 s1, c_source c = Some s0 /\ source_of b = Some s1
                             /\ fst (lines s1) = snd (lines s0)).
Proof.
  exists (attach_labels_in labelled). split; [|split].
  - intros o. rewrite inline_labels_attaches, labelled_unfold. reflexivity.
  - rewrite (attach_labels_app _ _ _ (length pre)) by lia. f_equal.
    destruct (takes_label c b) eqn:Ht.
    + cbn [attach_labels_in]. rewrite Ht. f_equal.
      apply takes_label_type in Ht as [[Hb|Hb] _]; destruct b; try discriminate; reflexivity.
    + rewrite attach_labels_cons_keep by (intros ? ? [= <-] [= <-]; exact Ht). reflexivity.
  - split.
    + intros H. apply takes_label_type in H as [Hb Hl]. split; [exact Hb|].
      apply labels_spans. exact Hl.
    + intros [Hb Hl]. unfold takes_label. rewrite (proj2 (labels_spans c b) Hl), andb_true_r.
      destruct Hb as [Hb|Hb]; rewrite Hb; reflexivity.
Qed.

Lemma attach_labels_fixed f items :
  Forall (fun x => f x = x) items -> no_labels items = true ->
  attach_labels_in f items = items.
Proof.
  induction 1 as [|a rest Ha _ IH]; intros Hq; [reflexivity|].
  unfold no_labels in Hq. cbn [forallb] in Hq. apply andb_true_iff in Hq as [Hhd Hrest].
  rewrite attach_labels_cons_keep.
  - rewrite Ha, (IH Hrest). reflexivity.
  - intros c b -> _. unfold takes_label, labels.
    destruct (bool_decide (text c = Some label_text)); [discriminate|].
    destruct (c_source c); cbn [andb]; apply andb_false_r.
Qed.

(** X22. A tree in which no comment is a statement label comes back
  from [inline_labels] as it is. *)
Theorem inline_labels_without_labels (ir : Node) :
  everywhere no_labels ir = true -> inline_labels ir = Some ir.
Proof.
  intros HQ. rewrite inline_labels_attaches. f_equal.
  apply (fixed_tree attach_labels_in labelled no_labels);
    [apply labelled_unfold | | exact HQ].
  intros items Hq Hall. apply attach_labels_fixed; assumption.
Qed.

Lemma inline_labels_without_labels_witness :
  inline_labels (Tuple [Comment (remark "x" 1); assign 1; counted [assign 3] None 2])
  = Some (Tuple [Comment (remark "x" 1); assign 1; counted [assign 3] None 2]).
Proof.
  apply (inline_labels_without_labels
           (Tuple [Comment (remark "x" 1); assign 1; counted [assign 3] None 2])).
  reflexivity.
Defined.

End LabelFacts.

(** ** More on markers and operators ([fparser.py]) *)

Section IfElseFacts.
Import Frontend.
Local Open Scope list_scope.
Context {A : Type}.
Variables If_Then_Stmt Else_Stmt End_If_Stmt : A -> bool.

(** X23. The two sublists [visit_If_Construct] takes from the content of
  an [IF] construct with an [Else_Stmt]: the body is what stands between
  the [If_Then_Stmt] and the [Else_Stmt], the else part what stands between
  the [Else_Stmt] and the [End_If_Stmt], when the statements in between are
  none of the three markers. *)
Theorem if_construct_with_else (head other tail : A) (body else_body : list A) :
  If_Then_Stmt head = true -> Else_Stmt head = false ->
  Else_Stmt other = true -> If_Then_Stmt other = false ->
  End_If_Stmt tail = true -> If_Then_Stmt tail = false -> Else_Stmt tail = false ->
  Forall (fun x => Else_Stmt x = false) body ->
  Forall (fun x => If_Then_Stmt x = false) else_body ->
  Forall (fun x => End_If_Stmt x = false) else_body ->
  node_sublist If_Then_Stmt Else_Stmt (head :: body ++ other :: else_body ++ [tail]) = body
  /\ node_sublist Else_Stmt End_If_Stmt (head :: body ++ other :: else_body ++ [tail])
     = else_body.
Proof.
  intros Hh Hh' Ho Ho' Ht Ht' Ht'' Hbody Helse Helse'. split.
  - change (head :: body ++ other :: else_body ++ [tail])
      with ([] ++ head :: body ++ other :: else_body ++ [tail]).
    rewrite (node_sublist_span If_Then_Stmt Else_Stmt [] head body other
                               (else_body ++ [tail]) (Forall_nil_2 _) Hh Hbody Ho), Ho'.
    rewrite node_sublist_loop_idle; [apply app_nil_r|].
    apply Forall_app. split; [exact Helse | repeat constructor; exact Ht'].
  - change (head :: body ++ other :: else_body ++ [tail])
      with ((head :: body) ++ other :: else_body ++ tail :: []).
    rewrite (node_sublist_span Else_Stmt End_If_Stmt (head :: body) other else_body tail []
                               (Forall_cons_2 _ _ _ Hh' Hbody) Ho Helse' Ht), Ht''.
    apply app_nil_r.
Qed.

End IfElseFacts.

Lemma if_construct_with_else_witness :
  Frontend.node_sublist (Nat.eqb 1) (Nat.eqb 2) [1; 7; 8; 2; 9; 3]%nat = [7; 8]%nat
  /\ Frontend.node_sublist (Nat.eqb 2) (Nat.eqb 3) [1; 7; 8; 2; 9; 3]%nat = [9]%nat.
Proof.
  refine (if_construct_with_else (Nat.eqb 1) (Nat.eqb 2) (Nat.eqb 3)
                                 1%nat 2%nat 3%nat [7; 8]%nat [9]%nat
                                 _ _ _ _ _ _ _ _ _ _);
    try reflexivity; repeat constructor.
Defined.

Section MnemonicFacts.
Import Operators.
Local Open Scope list_scope.

(** X24. An operator spelled as a mnemonic, logical or relational, is
  translated in any letter case as its lower-case spelling is: the same
  node, or the same failure. *)
Theorem visit_operation_any_case (op : string) (exprs : list Value) :
  In (PyStr.lower op) mnemonic_tokens ->
  visit_operation op exprs = visit_operation (PyStr.lower op) exprs.
Proof.
  intros H. cbn [mnemonic_tokens In] in H.
  repeat (destruct H as [H|H];
          [symmetry in H; rewrite H; unfold visit_operation; rewrite H;
           rewrite !(eqb_symbolic_false op _ _ H) by (vm_compute; discriminate);
           reflexivity|]).
  destruct H.
Qed.

Lemma visit_operation_any_case_witness :
  visit_operation ".And." [LogicLiteral true; LogicLiteral false]
  = visit_operation (PyStr.lower ".And.") [LogicLiteral true; LogicLiteral false].
Proof.
  apply (visit_operation_any_case ".And." [LogicLiteral true; LogicLiteral false]).
  left. reflexivity.
Defined.

End MnemonicFacts.

(** ** What the inline passes drop ([util.py]) *)

Section KeptFacts.
Import IR Passes Rewrites Kept.
Local Open Scope list_scope.

Lemma bare_type x : type_of (bare x) = type_of x.
Proof. destruct x; reflexivity. Qed.

Lemma others_cons t x l :
  others t (x :: l)
  = if bool_decide (type_of x = t) then others t l else bare x :: others t l.
Proof.
  unfold others. cbn [map List.filter]. rewrite bare_type.
  destruct (bool_decide (type_of x = t)); reflexivity.
Qed.

Lemma merge_drops_only f :
  (forall x, type_of (f x) = type_of x) ->
  (forall x, type_of x = TStatement \/ type_of x = TDeclaration -> f x = x) ->
  forall n items, (length items <= n)%nat ->
                  drops_only TComment (merge_comments_in f items) (map f items).
Proof.
  intros Hty Hleaf. unfold drops_only. induction n as [|n IH]; intros items Hlen.
  - destruct items; [reflexivity | cbn in Hlen; lia].
  - destruct items as [|a rest]; [reflexivity|].
    assert (Hkeep : others TComment (f a :: merge_comments_in f rest)
                    = others TComment (map f (a :: rest))).
    { cbn [map]. rewrite !others_cons, IH by (cbn in Hlen; lia). reflexivity. }
    cbn [merge_comments_in]. destruct rest as [|b rest']; [exact Hkeep|].
    destruct b; try exact Hkeep.
    destruct (takes_comment a c) eqn:Ht; [|exact Hkeep].
    apply takes_comment_type in Ht as [Ha _].
    cbn [map]. rewrite !others_cons, bare_set_comment, set_comment_type, !Hty.
    rewrite (Hleaf a Ha), IH by (cbn in Hlen; lia).
    cbn [type_of]. rewrite (bool_decide_eq_true_2 (TComment = TComment) eq_refl).
    reflexivity.
Qed.

Lemma attach_drops_only f :
  (forall x, type_of (f x) = type_of x) ->
  forall n items, (length items <= n)%nat ->
                  drops_only TPragma (attach_pragmas_in f items) (map f items).
Proof.
  intros Hty. unfold drops_only. induction n as [|n IH]; intros items Hlen.
  - destruct items; [reflexivity | cbn in Hlen; lia].
  - destruct items as [|a rest]; [reflexivity|].
    assert (Hkeep : others TPragma (f a :: attach_pragmas_in f rest)
                    = others TPragma (map f (a :: rest))).
    { cbn [map]. rewrite !others_cons, IH by (cbn in Hlen; lia). reflexivity. }
    cbn [attach_pragmas_in]. destruct a as [| | | | |p| | | |]; try exact Hkeep.
    destruct rest as [|b rest']; [exact Hkeep|].
    destruct (takes_pragma b) eqn:Hb; [|exact Hkeep].
    cbn [map]. rewrite !others_cons, bare_set_pragma, set_pragma_type, !Hty.
    rewrite IH by (cbn in Hlen; lia).
    cbn [type_of]. rewrite (bool_decide_eq_true_2 (TPragma = TPragma) eq_refl).
    reflexivity.
Qed.

(** X25. The inline passes drop nothing but what they attach: in every
  sequence of siblings inline-comment merging leaves every node that is
  not a [Comment], and pragma inlining every node that is not a [Pragma],
  all of them and in their order, with at most a comment or pragma put
  into their slot. *)
Theorem inline_passes_drop_only_attached :
  rewrites_sequences inline_comments (drops_only TComment)
  /\ rewrites_sequences inline_pragmas (drops_only TPragma).
Proof.
  split.
  - exists (merge_comments_in merged_comments). split.
    + intros o. rewrite inline_comments_merges, merged_comments_unfold. reflexivity.
    + intros items. exists (map merged_comments items). split.
      * apply pass_on_items, inline_comments_merges.
      * apply (merge_drops_only _ merged_comments_type merged_comments_leaf (length items)).
        lia.
  - exists (attach_pragmas_in attached_pragmas). split.
    + intros o. rewrite inline_pragmas_attaches, attached_pragmas_unfold. reflexivity.
    + intros items. exists (map attached_pragmas items). split.
      * apply pass_on_items, inline_pragmas_attaches.
      * apply (attach_drops_only _ attached_pragmas_type (length items)). lia.
Qed.

End KeptFacts.
